(** * Text-to-record extraction: the MCQ parser and the HTML block extractor

    A shallow embedding of [parseMCQResponse] / [extractOption]
    (PDF MCQ generator screen) and of [parseHtmlToBlocks] /
    [extractMainContent] (web scraper service), together with the
    backtracking regular-expression semantics both are written against. *)

From Stdlib Require Import List NArith ZArith Bool Ascii Lia Arith.
From Stdlib Require String.
Import ListNotations.
Import String.StringSyntax.
Delimit Scope string_scope with string.
Bind Scope string_scope with String.string.

Set Implicit Arguments.

(** ** Strings

    A JavaScript string is a sequence of UTF-16 code units. *)

Definition jsstring := list N.

Definition codes (s : String.string) : jsstring :=
  map N_of_ascii (String.list_ascii_of_string s).

Definition LF : N := 10%N.

(** [lines_of] joins lines with a line feed, for writing test inputs. *)
Fixpoint lines_of (ls : list String.string) : jsstring :=
  match ls with
  | [] => []
  | [l] => codes l
  | l :: tl => codes l ++ LF :: lines_of tl
  end.

Module Char.
Local Open Scope N_scope.

Definition in_range (lo hi c : N) : bool := (lo <=? c) && (c <=? hi).

(** ECMAScript LineTerminator: LF, CR, LS, PS. *)
Definition is_line_terminator (c : N) : bool :=
  (c =? 10) || (c =? 13) || (c =? 8232) || (c =? 8233).

(** ECMAScript WhiteSpace: TAB, VT, FF, SP, NBSP, ZWNBSP and category Zs. *)
Definition is_white_space (c : N) : bool :=
  (c =? 9) || (c =? 11) || (c =? 12) || (c =? 32) || (c =? 160)
  || (c =? 5760) || in_range 8192 8202 c || (c =? 8239) || (c =? 8287)
  || (c =? 12288) || (c =? 65279).

(** The class [\s], which is also what [String.prototype.trim] strips. *)
Definition is_space (c : N) : bool := is_white_space c || is_line_terminator c.

Definition is_digit (c : N) : bool := in_range 48 57 c.

Definition is_upper (c : N) : bool := in_range 65 90 c.
Definition is_lower (c : N) : bool := in_range 97 122 c.

(** The class [\w]. *)
Definition is_word (c : N) : bool :=
  is_upper c || is_lower c || is_digit c || (c =? 95).

(** Case mapping on the ASCII letters.  Every pattern of the two modules
    is written in ASCII, and the ECMAScript [Canonicalize] operation never
    maps a code unit above 127 to one below 128, so comparing against a
    pattern character only ever folds ASCII letters. *)
Definition upper (c : N) : N := if is_lower c then c - 32 else c.
Definition lower (c : N) : N := if is_upper c then c + 32 else c.

End Char.

Fixpoint drop_while (p : N -> bool) (l : jsstring) : jsstring :=
  match l with
  | c :: tl => if p c then drop_while p tl else l
  | [] => []
  end.

Fixpoint take_while (p : N -> bool) (l : jsstring) : jsstring :=
  match l with
  | c :: tl => if p c then c :: take_while p tl else []
  | [] => []
  end.

Definition drop_space (l : jsstring) : jsstring := drop_while Char.is_space l.

(** [String.prototype.trim]. *)
Definition trim (l : jsstring) : jsstring :=
  rev (drop_space (rev (drop_space l))).

(** [String.prototype.toUpperCase], on the ASCII letters (its one call
    site applies it to a single letter matched by [[A-D]]). *)
Definition toUpperCase (l : jsstring) : jsstring := map Char.upper l.

(** ** Regular expressions *)

Module Regex.

Inductive cset : Type :=
| CChar (c : N)            (* a single character *)
| CRange (lo hi : N)       (* [lo-hi] *)
| CSpace                   (* \s *)
| CNotSpace                (* \S *)
| CDigit.                  (* \d *)

Inductive regex : Type :=
| Eps
| Str (t : jsstring)                  (* a run of literal characters *)
| Dot                                 (* .  *)
| Cls (neg : bool) (items : list cset)   (* [...] and [^...] *)
| Seq (r1 r2 : regex)
| Alt (r1 r2 : regex)
| Star (greedy : bool) (r : regex)    (* r* and r*? *)
| Group (n : nat) (r : regex)         (* capturing group number n *)
| Look (positive : bool) (r : regex)  (* (?=r) and (?!r) *)
| Backref (n : nat)                   (* \n *)
| Bol                                 (* ^ without the m flag *)
| Eol                                 (* $ without the m flag *)
| WordB.                              (* \b *)

Definition Plus (greedy : bool) (r : regex) : regex := Seq r (Star greedy r).

Fixpoint seqs (rs : list regex) : regex :=
  match rs with
  | [] => Eps
  | [r] => r
  | r :: tl => Seq r (seqs tl)
  end.

Definition lit (s : String.string) : regex := Str (codes s).
Definition chr (s : String.string) : regex := Str (codes s).
Definition Space : regex := Cls false [CSpace].
Definition Digit : regex := Cls false [CDigit].
Definition AnyChar : regex := Cls false [CSpace; CNotSpace].   (* [\s\S] *)
Definition NotChar (s : String.string) : regex := Cls true (map CChar (codes s)).

(** The state of a match in progress: the code unit just before the
    current position (none at the start of the input), the input that
    remains, and the captures made so far. *)
Record mstate : Type := MState {
  prev : option N;
  rest : jsstring;
  caps : list (nat * jsstring)
}.

Fixpoint get_cap (n : nat) (cs : list (nat * jsstring)) : option jsstring :=
  match cs with
  | [] => None
  | (k, t) :: tl => if Nat.eqb k n then Some t else get_cap n tl
  end.

Section Matcher.

(** The [i] flag. *)
Variable ci : bool.

Definition canon (c : N) : N := if ci then Char.upper c else c.

Definition chr_eq (a b : N) : bool := N.eqb (canon a) (canon b).

Definition cset_mem (ch : N) (i : cset) : bool :=
  match i with
  | CChar c => chr_eq c ch
  | CRange lo hi =>
      Char.in_range lo hi ch
      || (ci && (Char.in_range lo hi (Char.upper ch)
                 || Char.in_range lo hi (Char.lower ch)))
  | CSpace => Char.is_space ch
  | CNotSpace => negb (Char.is_space ch)
  | CDigit => Char.is_digit ch
  end.

Definition cls_mem (neg : bool) (items : list cset) (ch : N) : bool :=
  xorb neg (existsb (cset_mem ch) items).

(** Consume one code unit satisfying [p]. *)
Definition eat (p : N -> bool) (s : mstate) : list mstate :=
  match rest s with
  | c :: tl => if p c then [MState (Some c) tl (caps s)] else []
  | [] => []
  end.

Fixpoint eat_str (t : jsstring) (s : mstate) : list mstate :=
  match t with
  | [] => [s]
  | c :: t' => flat_map (eat_str t') (eat (chr_eq c) s)
  end.

(** Iteration.  Each result list is in backtracking priority order: a
    greedy star tries one more iteration before stopping, a lazy one
    stops first.  As in ECMAScript an iteration that consumes nothing is
    rejected, so [fuel] = remaining length + 1 is never exhausted. *)
Fixpoint star_aux (greedy : bool) (m : mstate -> list mstate)
    (fuel : nat) (s : mstate) : list mstate :=
  match fuel with
  | O => [s]
  | S f =>
      let more :=
        flat_map (fun s' =>
                    if Nat.ltb (length (rest s')) (length (rest s))
                    then star_aux greedy m f s' else [])
                 (m s) in
      if greedy then more ++ [s] else s :: more
  end.

Definition is_word_opt (o : option N) : bool :=
  match o with Some c => Char.is_word c | None => false end.

(** [matches r s]: every way [r] can match at [s], most preferred first.
    The head of the list is the match a backtracking engine reports.
    (Captures are not reset on re-entering a star body; no pattern below
    has a group inside a star.) *)
Fixpoint matches (r : regex) (s : mstate) : list mstate :=
  match r with
  | Eps => [s]
  | Str t => eat_str t s
  | Dot => eat (fun c => negb (Char.is_line_terminator c)) s
  | Cls neg items => eat (cls_mem neg items) s
  | Seq r1 r2 => flat_map (matches r2) (matches r1 s)
  | Alt r1 r2 => matches r1 s ++ matches r2 s
  | Star g r1 => star_aux g (matches r1) (S (length (rest s))) s
  | Group n r1 =>
      map (fun s' =>
             MState (prev s') (rest s')
               ((n, firstn (length (rest s) - length (rest s')) (rest s))
                  :: caps s'))
          (matches r1 s)
  | Look true r1 =>
      match matches r1 s with
      | [] => []
      | s' :: _ => [MState (prev s) (rest s) (caps s')]
      end
  | Look false r1 =>
      match matches r1 s with
      | [] => [s]
      | _ :: _ => []
      end
  | Backref n =>
      match get_cap n (caps s) with
      | None => [s]
      | Some t => eat_str t s
      end
  | Bol => match prev s with None => [s] | Some _ => [] end
  | Eol => match rest s with [] => [s] | _ :: _ => [] end
  | WordB =>
      if xorb (is_word_opt (prev s)) (is_word_opt (hd_error (rest s)))
      then [s] else []
  end.

(** A successful match: the text before it, the matched text, the
    captures, and the text after it. *)
Record rmatch : Type := RMatch {
  m_pre : jsstring;
  m_text : jsstring;
  m_caps : list (nat * jsstring);
  m_post : jsstring
}.

Definition group (n : nat) (m : rmatch) : option jsstring :=
  get_cap n (m_caps m).

(** [match[n]] where the group is known to have taken part. *)
Definition group_text (n : nat) (m : rmatch) : jsstring :=
  match group n m with Some t => t | None => [] end.

(** Match at exactly the current position. *)
Definition exec_at (r : regex) (pv : option N) (l : jsstring) : option rmatch :=
  match matches r (MState pv l []) with
  | [] => None
  | s :: _ =>
      Some (RMatch [] (firstn (length l - length (rest s)) l) (caps s) (rest s))
  end.

Definition shift (c : N) (m : rmatch) : rmatch :=
  RMatch (c :: m_pre m) (m_text m) (m_caps m) (m_post m).

(** Leftmost match at or after the current position. *)
Fixpoint search (r : regex) (pv : option N) (l : jsstring) : option rmatch :=
  match exec_at r pv l with
  | Some m => Some m
  | None =>
      match l with
      | [] => None
      | c :: tl => option_map (shift c) (search r (Some c) tl)
      end
  end.

(** The code unit before the position reached after reading [l], [pv]
    being the one before [l]. *)
Fixpoint last_opt (pv : option N) (l : jsstring) : option N :=
  match l with
  | [] => pv
  | c :: tl => last_opt (Some c) tl
  end.

(** All successive matches of a global pattern, as [String.prototype.match]
    and [String.prototype.replace] find them: the scan resumes where the
    last match ended, one code unit further after an empty match. *)
Fixpoint match_all (r : regex) (fuel : nat) (pv : option N) (l : jsstring)
  : list rmatch :=
  match fuel with
  | O => []
  | S f =>
      match search r pv l with
      | None => []
      | Some m =>
          m :: match m_text m with
               | [] =>
                   match m_post m with
                   | [] => []
                   | c :: tl => match_all r f (Some c) tl
                   end
               | _ :: _ =>
                   match_all r f (last_opt pv (m_pre m ++ m_text m)) (m_post m)
               end
      end
  end.

(** The input with every match of a global pattern deleted. *)
Fixpoint remove_all (r : regex) (fuel : nat) (pv : option N) (l : jsstring)
  : jsstring :=
  match fuel with
  | O => l
  | S f =>
      match search r pv l with
      | None => l
      | Some m =>
          m_pre m ++
          match m_text m with
          | [] =>
              match m_post m with
              | [] => []
              | c :: tl => c :: remove_all r f (Some c) tl
              end
          | _ :: _ =>
              remove_all r f (last_opt pv (m_pre m ++ m_text m)) (m_post m)
          end
      end
  end.

End Matcher.

(** [str.match(re)] for a pattern without the [g] flag. *)
Definition js_match (ci : bool) (r : regex) (l : jsstring) : option rmatch :=
  search ci r None l.

(** [str.match(re)] for a global pattern: the matched texts. *)
Definition js_match_all (ci : bool) (r : regex) (l : jsstring) : list jsstring :=
  map m_text (match_all ci r (S (length l)) None l).

(** [str.replace(re, '')] for a global pattern. *)
Definition js_remove_all (ci : bool) (r : regex) (l : jsstring) : jsstring :=
  remove_all ci r (S (length l)) None l.

(** [str.split(re)]: the pieces between successive matches, each followed
    by the captures of the match that ended it ([ngroups] of them; a group
    that did not take part shows as the empty string).  [cur] is the piece
    being accumulated, in reverse.  A match is tried at every position
    but the end of the input; an empty match that would end an empty
    piece is skipped. *)
Fixpoint split_aux (ci : bool) (r : regex) (ngroups : nat) (fuel : nat)
    (pv : option N) (cur : jsstring) (l : jsstring) : list jsstring :=
  match fuel with
  | O => [rev cur ++ l]
  | S f =>
      match l with
      | [] => [rev cur]
      | c :: tl =>
          match exec_at ci r pv l with
          | None => split_aux ci r ngroups f (Some c) (c :: cur) tl
          | Some m =>
              match m_text m, cur with
              | [], [] => split_aux ci r ngroups f (Some c) [c] tl
              | _, _ =>
                  rev cur
                  :: map (fun k => group_text k m) (seq 1 ngroups)
                  ++ split_aux ci r ngroups f (last_opt pv (m_text m)) [] (m_post m)
              end
          end
      end
  end.

Definition js_split (ci : bool) (r : regex) (ngroups : nat) (l : jsstring)
  : list jsstring :=
  match l with
  | [] => match exec_at ci r None [] with Some _ => [] | None => [[]] end
  | _ :: _ => split_aux ci r ngroups (S (2 * length l)) None [] l
  end.

(** [re.exec(str)] for a global pattern, whose [lastIndex] is threaded:
    the scan starts at [lastIndex]; a match moves [lastIndex] to its end,
    a failure resets it to 0. *)
Definition exec (ci : bool) (r : regex) (l : jsstring) (lastIndex : nat)
  : option rmatch * nat :=
  if Nat.ltb (length l) lastIndex then (None, 0)
  else
    match search ci r (last_opt None (firstn lastIndex l)) (skipn lastIndex l) with
    | None => (None, 0)
    | Some m =>
        (Some (RMatch (firstn lastIndex l ++ m_pre m) (m_text m) (m_caps m) (m_post m)),
         lastIndex + length (m_pre m) + length (m_text m))
    end.

(** The loop [while ((match = re.exec(str)) !== null) { ... }], where the
    body contributes [f match] to the output: the output, and [lastIndex]
    when the loop is left.  [None] when the fuel runs out, which stands
    for a loop that does not terminate (an empty match leaves [lastIndex]
    where it was). *)
Fixpoint exec_loop (A : Type) (ci : bool) (r : regex) (f : rmatch -> list A)
    (fuel : nat) (l : jsstring) (lastIndex : nat) : option (list A * nat) :=
  match fuel with
  | O => None
  | S n =>
      match exec ci r l lastIndex with
      | (None, i) => Some ([], i)
      | (Some m, i) =>
          match exec_loop ci r f n l i with
          | Some (out, j) => Some (f m ++ out, j)
          | None => None
          end
      end
  end.

(** [str.replace(re, '')] for a pattern without the [g] flag. *)
Definition js_remove_first (ci : bool) (r : regex) (l : jsstring) : jsstring :=
  match search ci r None l with
  | None => l
  | Some m => m_pre m ++ m_post m
  end.

End Regex.

Import Regex.

(** [str.split(sep)] for a one-character separator. *)
Fixpoint split_on (sep : N) (l : jsstring) : list jsstring :=
  match l with
  | [] => [[]]
  | c :: tl =>
      if N.eqb c sep then [] :: split_on sep tl
      else match split_on sep tl with
           | h :: t => (c :: h) :: t
           | [] => [[c]]
           end
  end.

(** [arr.join(sep)]. *)
Fixpoint join (sep : jsstring) (ls : list jsstring) : jsstring :=
  match ls with
  | [] => []
  | [l] => l
  | l :: tl => l ++ sep ++ join sep tl
  end.

(** A JavaScript number holding an integer, or NaN.  (Numbers are
    doubles: an integer is held exactly up to 2^53.) *)
Inductive jsnumber : Type :=
| Num (z : Z)
| NaN.

Fixpoint digits_value (acc : Z) (l : jsstring) : Z :=
  match l with
  | c :: tl =>
      if Char.is_digit c then digits_value (10 * acc + (Z.of_N c - 48)) tl
      else acc
  | [] => acc
  end.

(** [parseInt(str)] in radix 10: leading white space is skipped, then the
    longest run of decimal digits is read; NaN when there is none.  (Signs
    and the [0x] prefix are left out: every call site passes text matched
    by [\d+] or [[1-6]].)  The digits are read exactly, which is what
    the source computes for a run below 2^53; a longer run it rounds to
    a double, and statements about the value read carry that bound. *)
Definition parseInt (l : jsstring) : jsnumber :=
  match drop_space l with
  | c :: tl => if Char.is_digit c then Num (digits_value 0 (c :: tl)) else NaN
  | [] => NaN
  end.

Definition is_empty (l : jsstring) : bool :=
  match l with [] => true | _ :: _ => false end.

(** ** The MCQ parser *)

Module MCQParser.

Record MCQ : Type := {
  id : jsnumber;
  question : jsstring;
  optionA : jsstring;
  optionB : jsstring;
  optionC : jsstring;
  optionD : jsstring;
  correctAnswer : jsstring;
  explanation : jsstring
}.

(** Lines written to the console. *)
Inductive log_event : Type :=
| LogParsing
| LogSkipMissingOptions (questionNum : jsnumber).

(** [/Question\s+(\d+)\s*:/gi] *)
Definition marker_re : regex :=
  seqs [lit "Question"; Plus true Space; Group 1 (Plus true Digit);
        Star true Space; chr ":"].

(** [/^([\s\S]+?)(?=\n\s*A\.)/i] *)
Definition stem_re : regex :=
  seqs [Bol; Group 1 (Plus false AnyChar);
        Look true (seqs [Str [LF]; Star true Space; lit "A."])].

(** [new RegExp(`${letter}\\.\\s*([\\s\\S]+?)(?=\\n\\s*${nextLetter}\\.)`, 'i')] *)
Definition option_re1 (letter nextLetter : jsstring) : regex :=
  seqs [Str letter; chr "."; Star true Space; Group 1 (Plus false AnyChar);
        Look true (seqs [Str [LF]; Star true Space; Str nextLetter; chr "."])].

(** [new RegExp(`${letter}\\.\\s*(.+?)(?=\\n)`, 'i')] *)
Definition option_re2 (letter : jsstring) : regex :=
  seqs [Str letter; chr "."; Star true Space; Group 1 (Plus false Dot);
        Look true (Str [LF])].

(** [new RegExp(`^${letter}\\.`, 'i')] *)
Definition line_start_re (letter : jsstring) : regex :=
  seqs [Bol; Str letter; chr "."].

(** [new RegExp(`^${letter}\\.\\s*`, 'i')] *)
Definition line_prefix_re (letter : jsstring) : regex :=
  seqs [Bol; Str letter; chr "."; Star true Space].

(** [/Correct\s*Answer\s*[:\s]*([A-D])/i] *)
Definition correct_re : regex :=
  seqs [lit "Correct"; Star true Space; lit "Answer"; Star true Space;
        Star true (Cls false [CChar 58; CSpace]);
        Group 1 (Cls false [CRange 65 68])].

(** [/Explanation\s*[:\s]*([\s\S]+?)(?=\n\s*$|$)/i] *)
Definition explanation_re : regex :=
  seqs [lit "Explanation"; Star true Space;
        Star true (Cls false [CChar 58; CSpace]);
        Group 1 (Plus false AnyChar);
        Look true (Alt (seqs [Str [LF]; Star true Space; Eol]) Eol)].

(** The loop over [patterns] in [extractOption]. *)
Fixpoint try_patterns (content : jsstring) (patterns : list regex)
  : option jsstring :=
  match patterns with
  | [] => None
  | pattern :: tl =>
      match js_match true pattern content with
      | Some m =>
          match group 1 m with
          | Some (c :: t) => Some (trim (c :: t))
          | _ => try_patterns content tl
          end
      | None => try_patterns content tl
      end
  end.

(** The loop over [lines] in [extractOption]. *)
Fixpoint scan_lines (letter : jsstring) (lines : list jsstring)
  : option jsstring :=
  match lines with
  | [] => None
  | line :: tl =>
      match js_match true (line_start_re letter) (trim line) with
      | Some _ => Some (trim (js_remove_first true (line_prefix_re letter) line))
      | None => scan_lines letter tl
      end
  end.

Definition extractOption (content letter nextLetter : jsstring) : jsstring :=
  match try_patterns content
          [option_re1 letter nextLetter; option_re2 letter] with
  | Some v => v
  | None =>
      match scan_lines letter (split_on LF content) with
      | Some v => v
      | None => []
      end
  end.

(** [question], [correctAnswer] and [explanation] as the loop body of
    [parseMCQResponse] computes them. *)
Definition extract_question (questionContent : jsstring) : jsstring :=
  match js_match true stem_re questionContent with
  | Some questionMatch => trim (group_text 1 questionMatch)
  | None => []
  end.

Definition extract_correctAnswer (questionContent : jsstring) : jsstring :=
  match js_match true correct_re questionContent with
  | Some correctMatch => toUpperCase (group_text 1 correctMatch)
  | None => codes "A"
  end.

Definition extract_explanation (questionContent correctAnswer : jsstring)
  : jsstring :=
  match js_match true explanation_re questionContent with
  | Some explanationMatch => trim (group_text 1 explanationMatch)
  | None => codes "The correct answer is " ++ correctAnswer ++ codes "."
  end.

(** One iteration of the loop of [parseMCQResponse], on [parts[i]] and
    [parts[i + 1]]: the record pushed, if any, and the console output. *)
Definition parse_segment (num questionContent : jsstring)
  : option MCQ * list log_event :=
  let questionNum := parseInt num in
  if is_empty questionContent || Nat.ltb (length questionContent) 50
  then (None, [])
  else
    let question := extract_question questionContent in
    if is_empty question || Nat.ltb (length question) 10 then (None, [])
    else
      let optionA := extractOption questionContent (codes "A") (codes "B") in
      let optionB := extractOption questionContent (codes "B") (codes "C") in
      let optionC := extractOption questionContent (codes "C") (codes "D") in
      let optionD := extractOption questionContent (codes "D") (codes "Correct") in
      if is_empty optionA || is_empty optionB || is_empty optionC
         || is_empty optionD
      then (None, [LogSkipMissingOptions questionNum])
      else
        let correctAnswer := extract_correctAnswer questionContent in
        let explanation := extract_explanation questionContent correctAnswer in
        (Some {| id := questionNum; question := question;
                 optionA := optionA; optionB := optionB;
                 optionC := optionC; optionD := optionD;
                 correctAnswer := correctAnswer;
                 explanation := explanation |}, []).

Definition opt_list (A : Type) (o : option A) : list A :=
  match o with Some a => [a] | None => [] end.

(** [for (let i = 1; i < parts.length; i += 2)], on [parts] from index 1. *)
Fixpoint parse_parts (parts : list jsstring) : list MCQ * list log_event :=
  match parts with
  | num :: questionContent :: tl =>
      let (o, lg) := parse_segment num questionContent in
      let (rs, lgs) := parse_parts tl in
      (opt_list o ++ rs, lg ++ lgs)
  | _ => ([], [])
  end.

(** The records returned and the lines logged. *)
Definition parseMCQResponse_log (content : jsstring)
  : list MCQ * list log_event :=
  let parts := js_split true marker_re 1 content in
  let (rs, lg) := parse_parts (tl parts) in
  (rs, LogParsing :: lg).

Definition parseMCQResponse (content : jsstring) : list MCQ :=
  fst (parseMCQResponse_log content).

End MCQParser.

(** ** The HTML block extractor *)

Module WebScraper.

Inductive block_type : Type :=
| heading          (* 'heading' *)
| paragraph        (* 'paragraph' *)
| ordered_list     (* 'ordered-list' *)
| unordered_list   (* 'unordered-list' *)
| quote.           (* 'quote' *)

Record block : Type := {
  type : block_type;
  content : jsstring;
  level : option jsnumber;
  items : option (list jsstring)
}.

Definition DQ : N := 34%N.   (* the double quote *)

(** The pattern [<script\b[^<]*  G*  <\/script>] with flags [gi], where
    the starred group G is: [(?!<\/script>)], then [<], then [[^<]*].
    The same for [style]. *)
Definition block_re (tag : String.string) : regex :=
  seqs [Str (codes "<" ++ codes tag); WordB; Star true (NotChar "<");
        Star true (seqs [Look false (Str (codes "</" ++ codes tag ++ codes ">"));
                         chr "<"; Star true (NotChar "<")]);
        Str (codes "</" ++ codes tag ++ codes ">")].

Definition script_re : regex := block_re "script".
Definition style_re : regex := block_re "style".

(** [/<h([1-6])[^>]*>([\s\S]*?)<\/h\1>/gi] *)
Definition heading_re : regex :=
  seqs [lit "<h"; Group 1 (Cls false [CRange 49 54]); Star true (NotChar ">");
        chr ">"; Group 2 (Star false AnyChar); lit "</h"; Backref 1; chr ">"].

(** [/<[^>]+>/g] *)
Definition tag_re : regex :=
  seqs [chr "<"; Plus true (NotChar ">"); chr ">"].

(** [/<p[^>]*>([\s\S]*?)<\/p>/gi] *)
Definition paragraph_re : regex :=
  seqs [lit "<p"; Star true (NotChar ">"); chr ">";
        Group 1 (Star false AnyChar); lit "</p>"].

(** [/<(ul|ol)[^>]*>([\s\S]*?)<\/\1>/gi] *)
Definition list_re : regex :=
  seqs [chr "<"; Group 1 (Alt (lit "ul") (lit "ol")); Star true (NotChar ">");
        chr ">"; Group 2 (Star false AnyChar); lit "</"; Backref 1; chr ">"].

(** [/<li[^>]*>([\s\S]*?)<\/li>/gi] *)
Definition li_re : regex :=
  seqs [lit "<li"; Star true (NotChar ">"); chr ">";
        Group 1 (Star false AnyChar); lit "</li>"].

(** [/<blockquote[^>]*>([\s\S]*?)<\/blockquote>/gi] *)
Definition blockquote_re : regex :=
  seqs [lit "<blockquote"; Star true (NotChar ">"); chr ">";
        Group 1 (Star false AnyChar); lit "</blockquote>"].

(** [x.replace(/<[^>]+>/g, '').trim()] *)
Definition strip_tags (l : jsstring) : jsstring :=
  trim (js_remove_all false tag_re l).

Definition heading_block (m : rmatch) : list block :=
  let level := parseInt (group_text 1 m) in
  let content := strip_tags (group_text 2 m) in
  if is_empty content then []
  else [{| type := heading; content := content;
           level := Some level; items := None |}].

Definition paragraph_block (m : rmatch) : list block :=
  let content := strip_tags (group_text 1 m) in
  if negb (is_empty content) && Nat.ltb 20 (length content)
  then [{| type := paragraph; content := content;
           level := None; items := None |}]
  else [].

Definition list_block (m : rmatch) : list block :=
  let listType := group_text 1 m in
  let listItems := js_match_all true li_re (group_text 2 m) in
  let items :=
    filter (fun item => negb (is_empty item)) (map strip_tags listItems) in
  if Nat.ltb 0 (length items)
  then [{| type := if list_eq_dec N.eq_dec listType (codes "ol")
                   then ordered_list else unordered_list;
           content := join (codes ", ") items;
           level := None; items := Some items |}]
  else [].

Definition quote_block (m : rmatch) : list block :=
  let content := strip_tags (group_text 1 m) in
  if is_empty content then []
  else [{| type := quote; content := content;
           level := None; items := None |}].

(** One [while ((match = re.exec(cleanHtml)) !== null)] loop over a fresh
    pattern. *)
Definition collect (r : regex) (f : rmatch -> list block) (cleanHtml : jsstring)
  : option (list block) :=
  option_map fst (exec_loop true r f (S (length cleanHtml)) cleanHtml 0).

(** [None] stands for a loop that does not terminate. *)
Definition parseHtmlToBlocks (html : jsstring) : option (list block) :=
  let cleanHtml := js_remove_all true script_re html in
  let cleanHtml := js_remove_all true style_re cleanHtml in
  match collect heading_re heading_block cleanHtml with
  | None => None
  | Some hs =>
      match collect paragraph_re paragraph_block cleanHtml with
      | None => None
      | Some ps =>
          match collect list_re list_block cleanHtml with
          | None => None
          | Some ls =>
              match collect blockquote_re quote_block cleanHtml with
              | None => None
              | Some qs => Some (hs ++ ps ++ ls ++ qs)
              end
          end
      end
  end.

(** [/<nav\b[^>]*>[\s\S]*?<\/nav>/gi], and the same for [header],
    [footer] and [aside]. *)
Definition container_re (tag : String.string) : regex :=
  seqs [Str (codes "<" ++ codes tag); WordB; Star true (NotChar ">"); chr ">";
        Star false AnyChar; Str (codes "</" ++ codes tag ++ codes ">")].

Definition boilerplate_tokens : list String.string :=
  ["sidebar"; "advertisement"; "ads"; "comments"; "related"; "social";
   "share"]%string.

Fixpoint alts (rs : list regex) : regex :=
  match rs with
  | [] => Look false Eps
  | [r] => r
  | r :: tl => Alt r (alts tl)
  end.

(** [/<div[^>]*class="[^"]*(?:sidebar|advertisement|ads|comments|related|social|share)[^"]*"[^>]*>[\s\S]*?<\/div>/gi] *)
Definition div_re : regex :=
  seqs [lit "<div"; Star true (NotChar ">"); Str (codes "class=" ++ [DQ]);
        Star true (Cls true [CChar DQ]); alts (map lit boilerplate_tokens);
        Star true (Cls true [CChar DQ]); Str [DQ]; Star true (NotChar ">");
        chr ">"; Star false AnyChar; lit "</div>"].

(** [/<!--[\s\S]*?-->/g] *)
Definition comment_re : regex :=
  seqs [lit "<!--"; Star false AnyChar; lit "-->"].

(** The patterns with their [i] flag. *)
Definition removePatterns : list (bool * regex) :=
  [(true, container_re "nav"); (true, container_re "header");
   (true, container_re "footer"); (true, container_re "aside");
   (true, div_re); (false, comment_re)].

(** [/<article[^>]*>([\s\S]*?)<\/article>/i], and the same for [main]. *)
Definition element_re (tag : String.string) : regex :=
  seqs [Str (codes "<" ++ codes tag); Star true (NotChar ">"); chr ">";
        Group 1 (Star false AnyChar); Str (codes "</" ++ codes tag ++ codes ">")].

Definition extractMainContent (html : jsstring) : jsstring :=
  let content :=
    fold_left (fun content p => js_remove_all (fst p) (snd p) content)
              removePatterns html in
  match js_match true (element_re "article") content with
  | Some articleMatch => group_text 1 articleMatch
  | None =>
      match js_match true (element_re "main") content with
      | Some mainMatch => group_text 1 mainMatch
      | None => content
      end
  end.

End WebScraper.

(** ** The extractors with what they read and write *)

(** The same functions once more, this time as programs that act on what
    exists outside them: the [RegExp] objects, whose [lastIndex] a call
    of [exec], [replace] or [match] reads and writes, and the console.
    Every regular expression literal and every [new RegExp] allocates an
    object when it is evaluated. *)
Module Runtime.
Import MCQParser WebScraper.

Record RegExp : Type := {
  source : regex;
  ignoreCase : bool;       (* the i flag *)
  global : bool;           (* the g flag *)
  lastIndex : nat
}.

(** The objects allocated so far, an object's address being its
    position, and the lines written to the console. *)
Record world : Type := {
  objects : list RegExp;
  console : list log_event
}.

(** A computation: from a world to a result and the world it leaves.
    [None] stands for a call that does not return. *)
Definition M (A : Type) : Type := world -> option (A * world).

Definition ret {A : Type} (a : A) : M A := fun w => Some (a, w).

Definition bind {A B : Type} (m : M A) (k : A -> M B) : M B :=
  fun w => match m w with
           | Some (a, w') => k a w'
           | None => None
           end.

Definition stuck {A : Type} : M A := fun _ => None.

Notation "'let*' x ':=' m 'in' k" := (bind m (fun x => k))
  (at level 10, x name, m at level 100, k at level 200).

Fixpoint mapM {A B : Type} (f : A -> M B) (l : list A) : M (list B) :=
  match l with
  | [] => ret []
  | x :: tl => let* y := f x in let* ys := mapM f tl in ret (y :: ys)
  end.

(** A regular expression literal, or [new RegExp(...)]: a fresh object
    with [lastIndex] 0. *)
Definition new_RegExp (r : regex) (ci g : bool) : M nat :=
  fun w =>
    Some (length (objects w),
          {| objects := objects w ++ [{| source := r; ignoreCase := ci;
                                         global := g; lastIndex := 0 |}];
             console := console w |}).

Definition read (re : nat) : M RegExp :=
  fun w => match nth_error (objects w) re with
           | Some o => Some (o, w)
           | None => None
           end.

Fixpoint store (l : list RegExp) (re : nat) (o : RegExp) : list RegExp :=
  match l, re with
  | [], _ => []
  | _ :: tl, O => o :: tl
  | x :: tl, S n => x :: store tl n o
  end.

(** [re.lastIndex = i] *)
Definition set_lastIndex (re : nat) (i : nat) : M unit :=
  fun w => match nth_error (objects w) re with
           | Some o =>
               Some (tt, {| objects :=
                              store (objects w) re
                                {| source := source o;
                                   ignoreCase := ignoreCase o;
                                   global := global o; lastIndex := i |};
                            console := console w |})
           | None => None
           end.

(** [console.log(...)] *)
Definition console_log (e : log_event) : M unit :=
  fun w => Some (tt, {| objects := objects w; console := console w ++ [e] |}).

(** [re.exec(str)]: a global pattern scans from its [lastIndex] and
    moves it; another pattern scans from the start and leaves it. *)
Definition RegExp_exec (re : nat) (str : jsstring) : M (option rmatch) :=
  let* o := read re in
  if global o then
    let (m, i) := exec (ignoreCase o) (source o) str (lastIndex o) in
    let* _ := set_lastIndex re i in
    ret m
  else ret (js_match (ignoreCase o) (source o) str).

(** [str.match(re)] for a pattern without the [g] flag, which is
    [re.exec(str)]. *)
Definition String_match (str : jsstring) (re : nat) : M (option rmatch) :=
  let* o := read re in
  if global o then stuck else RegExp_exec re str.

(** [str.match(re) || []] for a pattern with the [g] flag: the scan
    starts with [lastIndex] set to 0 and ends, after the last match, with
    a failed [exec] that leaves it at 0. *)
Definition String_match_all (str : jsstring) (re : nat) : M (list jsstring) :=
  let* o := read re in
  if global o then
    let* _ := set_lastIndex re 0 in
    ret (js_match_all (ignoreCase o) (source o) str)
  else stuck.

(** [str.replace(re, '')]: with the [g] flag as for [match]; without it
    the first match is replaced and [lastIndex] is left alone. *)
Definition String_replace (str : jsstring) (re : nat) : M jsstring :=
  let* o := read re in
  if global o then
    let* _ := set_lastIndex re 0 in
    ret (js_remove_all (ignoreCase o) (source o) str)
  else ret (js_remove_first (ignoreCase o) (source o) str).

(** [str.split(re)], which matches with a copy of the pattern and
    leaves the pattern itself alone. *)
Definition String_split (str : jsstring) (re : nat) (ngroups : nat)
  : M (list jsstring) :=
  let* o := read re in
  ret (js_split (ignoreCase o) (source o) ngroups str).

(** [while ((match = re.exec(str)) !== null) { body }], the body
    contributing to the output. *)
Fixpoint while_exec {A : Type} (fuel : nat) (re : nat) (str : jsstring)
    (body : rmatch -> M (list A)) : M (list A) :=
  match fuel with
  | O => stuck
  | S n =>
      let* m := RegExp_exec re str in
      match m with
      | None => ret []
      | Some m =>
          let* out := body m in
          let* more := while_exec n re str body in
          ret (out ++ more)
      end
  end.

(** *** The HTML block extractor *)

(** [x.replace(/<[^>]+>/g, '').trim()] *)
Definition strip_tags (x : jsstring) : M jsstring :=
  let* re := new_RegExp tag_re false true in
  let* y := String_replace x re in
  ret (trim y).

Definition heading_body (m : rmatch) : M (list block) :=
  let level := parseInt (group_text 1 m) in
  let* content := strip_tags (group_text 2 m) in
  ret (if is_empty content then []
       else [{| type := heading; content := content;
                level := Some level; items := None |}]).

Definition paragraph_body (m : rmatch) : M (list block) :=
  let* content := strip_tags (group_text 1 m) in
  ret (if negb (is_empty content) && Nat.ltb 20 (length content)
       then [{| type := paragraph; content := content;
                level := None; items := None |}]
       else []).

Definition list_body (m : rmatch) : M (list block) :=
  let listType := group_text 1 m in
  let* re := new_RegExp li_re true true in
  let* listItems := String_match_all (group_text 2 m) re in
  let* stripped := mapM strip_tags listItems in
  let items := filter (fun item => negb (is_empty item)) stripped in
  ret (if Nat.ltb 0 (length items)
       then [{| type := if list_eq_dec N.eq_dec listType (codes "ol")
                        then ordered_list else unordered_list;
                content := join (codes ", ") items;
                level := None; items := Some items |}]
       else []).

Definition quote_body (m : rmatch) : M (list block) :=
  let* content := strip_tags (group_text 1 m) in
  ret (if is_empty content then []
       else [{| type := quote; content := content;
                level := None; items := None |}]).

Definition parseHtmlToBlocks (html : jsstring) : M (list block) :=
  let* re := new_RegExp script_re true true in
  let* cleanHtml := String_replace html re in
  let* re := new_RegExp style_re true true in
  let* cleanHtml := String_replace cleanHtml re in
  let* headingRegex := new_RegExp heading_re true true in
  let* hs := while_exec (S (length cleanHtml)) headingRegex cleanHtml
               heading_body in
  let* paragraphRegex := new_RegExp paragraph_re true true in
  let* ps := while_exec (S (length cleanHtml)) paragraphRegex cleanHtml
               paragraph_body in
  let* listRegex := new_RegExp list_re true true in
  let* ls := while_exec (S (length cleanHtml)) listRegex cleanHtml list_body in
  let* blockquoteRegex := new_RegExp blockquote_re true true in
  let* qs := while_exec (S (length cleanHtml)) blockquoteRegex cleanHtml
               quote_body in
  ret (hs ++ ps ++ ls ++ qs).

(** *** The sanitizer and the selection of the main content *)

(** [for (const pattern of removePatterns) content = content.replace(pattern, '')] *)
Fixpoint replace_each (content : jsstring) (patterns : list nat) : M jsstring :=
  match patterns with
  | [] => ret content
  | pattern :: tl =>
      let* content := String_replace content pattern in
      replace_each content tl
  end.

Definition extractMainContent (html : jsstring) : M jsstring :=
  let* patterns :=
    mapM (fun p => new_RegExp (snd p) (fst p) true) removePatterns in
  let* content := replace_each html patterns in
  let* re := new_RegExp (element_re "article") true false in
  let* articleMatch := String_match content re in
  match articleMatch with
  | Some articleMatch => ret (group_text 1 articleMatch)
  | None =>
      let* re := new_RegExp (element_re "main") true false in
      let* mainMatch := String_match content re in
      match mainMatch with
      | Some mainMatch => ret (group_text 1 mainMatch)
      | None => ret content
      end
  end.

(** The HTML pipeline of [smartScrape]:
    [parseHtmlToBlocks(extractMainContent(html))]. *)
Definition extract_blocks (html : jsstring) : M (list block) :=
  let* mainContent := extractMainContent html in
  parseHtmlToBlocks mainContent.

(** *** The MCQ parser *)

Fixpoint try_patterns (content : jsstring) (patterns : list nat)
  : M (option jsstring) :=
  match patterns with
  | [] => ret None
  | pattern :: tl =>
      let* m := String_match content pattern in
      match m with
      | Some m =>
          match group 1 m with
          | Some (c :: t) => ret (Some (trim (c :: t)))
          | _ => try_patterns content tl
          end
      | None => try_patterns content tl
      end
  end.

Fixpoint scan_lines (letter : jsstring) (lines : list jsstring)
  : M (option jsstring) :=
  match lines with
  | [] => ret None
  | line :: tl =>
      let* re := new_RegExp (line_start_re letter) true false in
      let* m := String_match (trim line) re in
      match m with
      | Some _ =>
          let* re := new_RegExp (line_prefix_re letter) true false in
          let* text := String_replace line re in
          ret (Some (trim text))
      | None => scan_lines letter tl
      end
  end.

Definition extractOption (content letter nextLetter : jsstring) : M jsstring :=
  let* p1 := new_RegExp (option_re1 letter nextLetter) true false in
  let* p2 := new_RegExp (option_re2 letter) true false in
  let* found := try_patterns content [p1; p2] in
  match found with
  | Some v => ret v
  | None =>
      let* found := scan_lines letter (split_on LF content) in
      ret (match found with Some v => v | None => [] end)
  end.

(** One iteration of the loop of [parseMCQResponse]. *)
Definition parse_segment (num questionContent : jsstring) : M (option MCQ) :=
  let questionNum := parseInt num in
  if is_empty questionContent || Nat.ltb (length questionContent) 50
  then ret None
  else
    let* re := new_RegExp stem_re true false in
    let* questionMatch := String_match questionContent re in
    let question :=
      match questionMatch with
      | Some questionMatch => trim (group_text 1 questionMatch)
      | None => []
      end in
    if is_empty question || Nat.ltb (length question) 10 then ret None
    else
      let* optionA := extractOption questionContent (codes "A") (codes "B") in
      let* optionB := extractOption questionContent (codes "B") (codes "C") in
      let* optionC := extractOption questionContent (codes "C") (codes "D") in
      let* optionD :=
        extractOption questionContent (codes "D") (codes "Correct") in
      if is_empty optionA || is_empty optionB || is_empty optionC
         || is_empty optionD
      then
        let* _ := console_log (LogSkipMissingOptions questionNum) in
        ret None
      else
        let* re := new_RegExp correct_re true false in
        let* correctMatch := String_match questionContent re in
        let correctAnswer :=
          match correctMatch with
          | Some correctMatch => toUpperCase (group_text 1 correctMatch)
          | None => codes "A"
          end in
        let* re := new_RegExp explanation_re true false in
        let* explanationMatch := String_match questionContent re in
        let explanation :=
          match explanationMatch with
          | Some explanationMatch => trim (group_text 1 explanationMatch)
          | None => codes "The correct answer is " ++ correctAnswer ++ codes "."
          end in
        ret (Some {| id := questionNum; question := question;
                     optionA := optionA; optionB := optionB;
                     optionC := optionC; optionD := optionD;
                     correctAnswer := correctAnswer;
                     explanation := explanation |}).

Fixpoint parse_parts (parts : list jsstring) : M (list MCQ) :=
  match parts with
  | num :: questionContent :: tl =>
      let* o := parse_segment num questionContent in
      let* rs := parse_parts tl in
      ret (opt_list o ++ rs)
  | _ => ret []
  end.

Definition parseMCQResponse (content : jsstring) : M (list MCQ) :=
  let* _ := console_log LogParsing in
  let* re := new_RegExp marker_re true true in
  let* parts := String_split content re 1 in
  parse_parts (tl parts).

End Runtime.

(** * Facts about the matcher *)

Module RegexFacts.

Section Facts.

Variable ci : bool.

(** A match only ever moves forward: what remains is a suffix of what
    remained before. *)
Definition advances (s s' : mstate) : Prop :=
  exists t, rest s = t ++ rest s'.

Lemma advances_refl s : advances s s.
Proof. now exists []. Qed.

Lemma advances_trans s1 s2 s3 :
  advances s1 s2 -> advances s2 s3 -> advances s1 s3.
Proof.
  intros [t1 H1] [t2 H2]. exists (t1 ++ t2).
  now rewrite H1, H2, app_assoc.
Qed.

Lemma advances_length s s' :
  advances s s' -> length (rest s') <= length (rest s).
Proof. intros [t H]. rewrite H, length_app. lia. Qed.

Lemma eat_inv p s s' :
  In s' (eat p s) ->
  exists c, p c = true /\ rest s = c :: rest s'
            /\ prev s' = Some c /\ caps s' = caps s.
Proof.
  unfold eat. destruct (rest s) as [|c tl]; [easy|].
  destruct (p c) eqn:E; [|easy].
  intros [<-|[]]. now exists c.
Qed.

Lemma eat_str_inv t : forall s s',
  In s' (eat_str ci t s) ->
  exists u, rest s = u ++ rest s' /\ length u = length t
            /\ Forall2 (fun a b => chr_eq ci a b = true) t u
            /\ caps s' = caps s.
Proof.
  induction t as [|c t IH]; simpl; intros s s' H.
  - destruct H as [<-|[]]. exists []. repeat split; constructor.
  - apply in_flat_map in H. destruct H as (s1 & H1 & H2).
    apply eat_inv in H1. destruct H1 as (d & Hd & Hr & _ & Hc).
    apply IH in H2. destruct H2 as (u & Hu & Hl & Hf & Hc').
    exists (d :: u). rewrite Hr, Hu. simpl. repeat split; try congruence.
    now constructor.
Qed.

Lemma star_aux_advances g (m : mstate -> list mstate) :
  (forall s s', In s' (m s) -> advances s s') ->
  forall fuel s s', In s' (star_aux g m fuel s) -> advances s s'.
Proof.
  intros Hm. induction fuel as [|f IH]; simpl; intros s s' H.
  - destruct H as [<-|[]]. apply advances_refl.
  - assert (Hmore :
      In s' (flat_map (fun s1 =>
                if Nat.ltb (length (rest s1)) (length (rest s))
                then star_aux g m f s1 else []) (m s)) -> advances s s').
    { intros H'. apply in_flat_map in H'. destruct H' as (s1 & H1 & H2).
      destruct (Nat.ltb _ _); [|easy].
      eapply advances_trans; eauto. }
    destruct g.
    + apply in_app_or in H. destruct H as [H|[<-|[]]]; auto using advances_refl.
    + destruct H as [<-|H]; auto using advances_refl.
Qed.

Lemma matches_advances r : forall s s',
  In s' (matches ci r s) -> advances s s'.
Proof.
  induction r; simpl; intros s s' H.
  - destruct H as [<-|[]]. apply advances_refl.
  - apply eat_str_inv in H. destruct H as (u & Hu & _). now exists u.
  - apply eat_inv in H. destruct H as (c & _ & Hr & _). now exists [c].
  - apply eat_inv in H. destruct H as (c & _ & Hr & _). now exists [c].
  - apply in_flat_map in H. destruct H as (s1 & H1 & H2).
    eapply advances_trans; eauto.
  - apply in_app_or in H. destruct H; auto.
  - exact (star_aux_advances greedy (matches ci r) IHr
             (S (length (rest s))) s s' H).
  - apply in_map_iff in H. destruct H as (s1 & <- & H1).
    apply IHr in H1. exact H1.
  - destruct positive.
    + destruct (matches ci r s); [easy|].
      destruct H as [<-|[]]. now exists [].
    + destruct (matches ci r s); [|easy].
      destruct H as [<-|[]]. apply advances_refl.
  - destruct (get_cap n (caps s)).
    + apply eat_str_inv in H. destruct H as (u & Hu & _). now exists u.
    + destruct H as [<-|[]]. apply advances_refl.
  - destruct (prev s); [easy|]. destruct H as [<-|[]]. apply advances_refl.
  - destruct (rest s); [|easy]. destruct H as [<-|[]]. apply advances_refl.
  - destruct (xorb _ _); [|easy]. destruct H as [<-|[]]. apply advances_refl.
Qed.

Lemma firstn_app_exact (A : Type) (t u : list A) :
  firstn (length (t ++ u) - length u) (t ++ u) = t.
Proof.
  rewrite length_app.
  replace (length t + length u - length u) with (length t) by lia.
  rewrite firstn_app, Nat.sub_diag, firstn_all. simpl. apply app_nil_r.
Qed.

(** What [exec_at] reports is a split of the input. *)
Lemma exec_at_split r pv l m :
  exec_at ci r pv l = Some m ->
  m_pre m = [] /\ l = m_text m ++ m_post m.
Proof.
  unfold exec_at. destruct (matches ci r (MState pv l [])) as [|s tl] eqn:E;
    [easy|].
  intros [= <-]. simpl. split; [easy|].
  assert (H : advances (MState pv l []) s)
    by (apply (matches_advances r); rewrite E; now left).
  destruct H as [t Ht]. simpl in Ht. subst l.
  now rewrite firstn_app_exact.
Qed.

Lemma search_split r : forall l pv m,
  search ci r pv l = Some m -> l = m_pre m ++ m_text m ++ m_post m.
Proof.
  induction l as [|c tl IH]; intros pv m; simpl.
  - destruct (exec_at ci r pv []) eqn:E; [|easy].
    intros [= <-]. apply exec_at_split in E. destruct E as [-> E]. exact E.
  - destruct (exec_at ci r pv (c :: tl)) eqn:E.
    + intros [= <-]. apply exec_at_split in E. destruct E as [-> E]. exact E.
    + destruct (search ci r (Some c) tl) eqn:F; [|easy].
      intros [= <-]. simpl. f_equal. now apply IH with (pv := Some c).
Qed.

(** The match found by [search] is one found by [exec_at] further on. *)
Lemma search_exec_at r : forall l pv m,
  search ci r pv l = Some m ->
  exec_at ci r (last_opt pv (m_pre m)) (m_text m ++ m_post m)
  = Some (RMatch [] (m_text m) (m_caps m) (m_post m)).
Proof.
  induction l as [|c tl IH]; intros pv m; simpl.
  - destruct (exec_at ci r pv []) eqn:E; [|easy].
    intros [= <-]. pose proof (exec_at_split _ _ _ E) as [Hp Hl].
    rewrite Hp, <- Hl. simpl. rewrite E.
    destruct r0; simpl in *; now subst.
  - destruct (exec_at ci r pv (c :: tl)) eqn:E.
    + intros [= <-]. pose proof (exec_at_split _ _ _ E) as [Hp Hl].
      rewrite Hp, <- Hl. simpl. rewrite E.
      destruct r0; simpl in *; now subst.
    + destruct (search ci r (Some c) tl) eqn:F; [|easy].
      intros [= <-]. simpl. apply IH in F. exact F.
Qed.

(** A pattern that opens with a literal character never matches the
    empty string. *)
Lemma exec_at_nonempty c t r pv l m :
  exec_at ci (Seq (Str (c :: t)) r) pv l = Some m -> m_text m <> [].
Proof.
  intros E. pose proof (exec_at_split _ _ _ E) as [_ Hl].
  unfold exec_at in E.
  destruct (matches ci (Seq (Str (c :: t)) r) (MState pv l [])) as [|s tl] eqn:M;
    [easy|].
  assert (Hin : In s (matches ci (Seq (Str (c :: t)) r) (MState pv l [])))
    by (rewrite M; now left).
  simpl in Hin. apply in_flat_map in Hin. destruct Hin as (s1 & H1 & H2).
  apply in_flat_map in H1. destruct H1 as (s0 & H0 & H1).
  apply eat_inv in H0. destruct H0 as (d & _ & Hr & _). simpl in Hr.
  apply eat_str_inv in H1. destruct H1 as (u & Hu & _).
  apply matches_advances in H2. destruct H2 as [v Hv].
  injection E as <-. simpl in *. intros Hnil.
  rewrite Hnil in Hl. simpl in Hl.
  rewrite Hr, Hu, Hv in Hl.
  apply (f_equal (@length N)) in Hl. simpl in Hl.
  rewrite !length_app in Hl. lia.
Qed.

Lemma search_nonempty c t r : forall l pv m,
  search ci (Seq (Str (c :: t)) r) pv l = Some m -> m_text m <> [].
Proof.
  intros l pv m H. apply search_exec_at in H.
  apply exec_at_nonempty in H. exact H.
Qed.

(** ** The [exec] loop terminates for patterns without empty matches *)

Lemma exec_bounds r l i m j :
  exec ci r l i = (Some m, j) ->
  m_text m <> [] -> i < j /\ j <= length l.
Proof.
  unfold exec. destruct (Nat.ltb (length l) i) eqn:Hi; [easy|].
  apply Nat.ltb_ge in Hi.
  destruct (search ci r _ (skipn i l)) as [m'|] eqn:S; [|easy].
  intros [= <- <-] Hne. simpl in Hne.
  apply search_split in S.
  apply (f_equal (@length N)) in S. rewrite length_skipn, !length_app in S.
  destruct (m_text m'); [easy|]. simpl in *. lia.
Qed.

Lemma exec_loop_total (A : Type) r (f : rmatch -> list A) (P : A -> Prop) :
  (forall l pv m, search ci r pv l = Some m -> m_text m <> []) ->
  (forall m, Forall P (f m)) ->
  forall fuel l i, length l - i < fuel ->
    exists out, exec_loop ci r f fuel l i = Some (out, 0) /\ Forall P out.
Proof.
  intros Hne HP. induction fuel as [|n IH]; intros l i Hf; [lia|].
  simpl. destruct (exec ci r l i) as [[m|] j] eqn:E.
  - assert (Hm : m_text m <> []).
    { unfold exec in E. destruct (Nat.ltb (length l) i); [easy|].
      destruct (search ci r _ (skipn i l)) as [m'|] eqn:S; [|easy].
      injection E as <- <-. simpl. eapply Hne; eauto. }
    destruct (exec_bounds _ _ _ E Hm) as [H1 H2].
    destruct (IH l j) as (out & -> & Hout); [lia|].
    eexists; split; [reflexivity|]. apply Forall_app; auto.
  - exists []. split; [|constructor].
    unfold exec in E. destruct (Nat.ltb (length l) i); [now injection E as <-|].
    destruct (search ci r _ (skipn i l)); [easy|]. now injection E as <-.
Qed.

End Facts.

End RegexFacts.

(** * Stars over one-character classes *)

Module Runs.
Import RegexFacts.
Section Runs.

Variable ci : bool.

(** Removal of a literal prefix, compared as the matcher compares. *)
Fixpoint strip_prefix (t l : jsstring) : option jsstring :=
  match t, l with
  | [], _ => Some l
  | c :: t', d :: l' => if chr_eq ci c d then strip_prefix t' l' else None
  | _ :: _, [] => None
  end.

Lemma eat_str_eq t : forall pv l cs,
  eat_str ci t (MState pv l cs)
  = match strip_prefix t l with
    | Some v => [MState (last_opt pv (firstn (length t) l)) v cs]
    | None => []
    end.
Proof.
  induction t as [|c t IH]; intros pv l cs; simpl; [reflexivity|].
  unfold eat. simpl. destruct l as [|d l]; [reflexivity|].
  destruct (chr_eq ci c d); [|reflexivity].
  simpl. rewrite app_nil_r. apply IH.
Qed.

Lemma strip_prefix_split t : forall l v,
  strip_prefix t l = Some v -> l = firstn (length t) l ++ v.
Proof.
  induction t as [|c t IH]; intros l v; simpl.
  - now intros [= ->].
  - destruct l as [|d l]; [easy|]. destruct (chr_eq ci c d); [|easy].
    intros H. simpl. f_equal. now apply IH.
Qed.

(** The states a greedy star over a one-character class leaves, longest
    run first. *)
Fixpoint greedy_run (p : N -> bool) (pv : option N) (l : jsstring)
    (cs : list (nat * jsstring)) : list mstate :=
  match l with
  | c :: tl =>
      if p c then greedy_run p (Some c) tl cs ++ [MState pv l cs]
      else [MState pv l cs]
  | [] => [MState pv l cs]
  end.

(** The same for a lazy star, shortest run first. *)
Fixpoint lazy_run (p : N -> bool) (pv : option N) (l : jsstring)
    (cs : list (nat * jsstring)) : list mstate :=
  match l with
  | c :: tl =>
      MState pv l cs :: (if p c then lazy_run p (Some c) tl cs else [])
  | [] => [MState pv l cs]
  end.

Lemma eat_cons p pv c tl cs :
  eat p (MState pv (c :: tl) cs)
  = if p c then [MState (Some c) tl cs] else [].
Proof. reflexivity. Qed.

Lemma eat_nil p pv cs : eat p (MState pv [] cs) = [].
Proof. reflexivity. Qed.

Lemma star_greedy_eat p : forall fuel pv l cs,
  length l < fuel ->
  star_aux true (eat p) fuel (MState pv l cs) = greedy_run p pv l cs.
Proof.
  induction fuel as [|f IH]; intros pv l cs Hl; [lia|].
  cbn [star_aux]. destruct l as [|c tl].
  - now rewrite eat_nil.
  - rewrite eat_cons. cbn [greedy_run]. destruct (p c); [|reflexivity].
    cbn [flat_map rest length].
    replace (Nat.ltb (length tl) (S (length tl))) with true
      by (symmetry; apply Nat.ltb_lt; lia).
    rewrite app_nil_r, IH by (simpl in Hl; lia). reflexivity.
Qed.

Lemma star_lazy_eat p : forall fuel pv l cs,
  length l < fuel ->
  star_aux false (eat p) fuel (MState pv l cs) = lazy_run p pv l cs.
Proof.
  induction fuel as [|f IH]; intros pv l cs Hl; [lia|].
  cbn [star_aux]. destruct l as [|c tl].
  - now rewrite eat_nil.
  - rewrite eat_cons. cbn [lazy_run]. destruct (p c); [|reflexivity].
    cbn [flat_map rest length].
    replace (Nat.ltb (length tl) (S (length tl))) with true
      by (symmetry; apply Nat.ltb_lt; lia).
    rewrite app_nil_r, IH by (simpl in Hl; lia). reflexivity.
Qed.

Lemma matches_star_cls g neg items pv l cs :
  matches ci (Star g (Cls neg items)) (MState pv l cs)
  = if g then greedy_run (cls_mem ci neg items) pv l cs
    else lazy_run (cls_mem ci neg items) pv l cs.
Proof.
  change (matches ci (Star g (Cls neg items)) (MState pv l cs))
    with (star_aux g (eat (cls_mem ci neg items)) (S (length l)) (MState pv l cs)).
  destruct g; [apply star_greedy_eat | apply star_lazy_eat]; lia.
Qed.

Lemma matches_star_dot g pv l cs :
  matches ci (Star g Dot) (MState pv l cs)
  = if g then greedy_run (fun c => negb (Char.is_line_terminator c)) pv l cs
    else lazy_run (fun c => negb (Char.is_line_terminator c)) pv l cs.
Proof.
  change (matches ci (Star g Dot) (MState pv l cs))
    with (star_aux g (eat (fun c => negb (Char.is_line_terminator c)))
            (S (length l)) (MState pv l cs)).
  destruct g; [apply star_greedy_eat | apply star_lazy_eat]; lia.
Qed.

(** Every state of a greedy run but the first stands before a character
    of the class. *)
Lemma greedy_run_shape p : forall l pv cs,
  exists others,
    greedy_run p pv l cs
    = MState (last_opt pv (take_while p l)) (drop_while p l) cs :: others
    /\ Forall (fun s => exists c tl, rest s = c :: tl /\ p c = true) others.
Proof.
  induction l as [|c tl IH]; intros pv cs; simpl.
  - exists []. split; [reflexivity|constructor].
  - destruct (p c) eqn:E.
    + destruct (IH (Some c) cs) as (others & -> & Ho).
      exists (others ++ [MState pv (c :: tl) cs]). split; [reflexivity|].
      apply Forall_app. split; [exact Ho|].
      constructor; [|constructor]. now exists c, tl.
    + exists []. split; [reflexivity|constructor].
Qed.

Lemma flat_map_nil (A B : Type) (f : A -> list B) l :
  Forall (fun x => f x = []) l -> flat_map f l = [].
Proof.
  induction 1 as [|x l Hx _ IH]; simpl; [reflexivity|]. now rewrite Hx, IH.
Qed.

(** If what follows a greedy run cannot start on a character of the
    class, only the longest run can be continued. *)
Lemma flat_map_greedy_run (f : mstate -> list mstate) p pv l cs :
  (forall s c tl, rest s = c :: tl -> p c = true -> f s = []) ->
  flat_map f (greedy_run p pv l cs)
  = f (MState (last_opt pv (take_while p l)) (drop_while p l) cs).
Proof.
  intros Hf. destruct (greedy_run_shape p l pv cs) as (others & -> & Ho).
  simpl. rewrite flat_map_nil; [apply app_nil_r|].
  eapply Forall_impl; [|exact Ho].
  intros s (c & tl & Hr & Hp). eapply Hf; eauto.
Qed.

Lemma in_greedy_run p : forall l pv cs s,
  In s (greedy_run p pv l cs) <->
  exists u v, l = u ++ v /\ forallb p u = true /\ s = MState (last_opt pv u) v cs.
Proof.
  induction l as [|c tl IH]; intros pv cs s; simpl.
  - split.
    + intros [<-|[]]. now exists [], [].
    + intros (u & v & H & _ & ->). symmetry in H. apply app_eq_nil in H.
      destruct H as [-> ->]. now left.
  - destruct (p c) eqn:E.
    + rewrite in_app_iff, IH. simpl. split.
      * intros [(u & v & -> & Hu & ->)|[<-|[]]].
        -- exists (c :: u), v. simpl. now rewrite E, Hu.
        -- now exists [], (c :: tl).
      * intros (u & v & H & Hu & ->). destruct u as [|d u]; simpl in *.
        -- subst v. right. now left.
        -- injection H as <- ->. apply andb_prop in Hu. destruct Hu as [_ Hu].
           left. now exists u, v.
    + simpl. split.
      * intros [<-|[]]. now exists [], (c :: tl).
      * intros (u & v & H & Hu & ->). destruct u as [|d u]; simpl in *.
        -- subst v. now left.
        -- injection H as <- ->. rewrite E in Hu. discriminate.
Qed.

Lemma in_lazy_run p : forall l pv cs s,
  In s (lazy_run p pv l cs) <->
  exists u v, l = u ++ v /\ forallb p u = true /\ s = MState (last_opt pv u) v cs.
Proof.
  induction l as [|c tl IH]; intros pv cs s; simpl.
  - split.
    + intros [<-|[]]. now exists [], [].
    + intros (u & v & H & _ & ->). symmetry in H. apply app_eq_nil in H.
      destruct H as [-> ->]. now left.
  - split.
    + intros [<-|H]; [now exists [], (c :: tl)|].
      destruct (p c) eqn:E; [|easy]. apply IH in H.
      destruct H as (u & v & -> & Hu & ->).
      exists (c :: u), v. simpl. now rewrite E, Hu.
    + intros (u & v & H & Hu & ->). destruct u as [|d u]; simpl in *.
      * subst v. now left.
      * injection H as <- ->. apply andb_prop in Hu. destruct Hu as [E Hu].
        right. rewrite E. apply IH. now exists u, v.
Qed.

End Runs.
End Runs.

(** * Captures and look-aheads *)

Module Captures.
Import RegexFacts Runs.

Section Captures.

Variable ci : bool.

Fixpoint groupless (r : regex) : bool :=
  match r with
  | Group _ _ => false
  | Seq a b | Alt a b => groupless a && groupless b
  | Star _ a => groupless a
  | Look _ a => groupless a
  | _ => true
  end.

Lemma star_aux_caps g (m : mstate -> list mstate) :
  (forall s s', In s' (m s) -> caps s' = caps s) ->
  forall fuel s s', In s' (star_aux g m fuel s) -> caps s' = caps s.
Proof.
  intros Hm. induction fuel as [|f IH]; simpl; intros s s' H.
  - now destruct H as [<-|[]].
  - assert (Hmore :
      In s' (flat_map (fun s1 =>
                if Nat.ltb (length (rest s1)) (length (rest s))
                then star_aux g m f s1 else []) (m s)) -> caps s' = caps s).
    { intros H'. apply in_flat_map in H'. destruct H' as (s1 & H1 & H2).
      destruct (Nat.ltb _ _); [|easy].
      rewrite (IH _ _ H2). now apply Hm. }
    destruct g.
    + apply in_app_or in H. destruct H as [H|[<-|[]]]; auto.
    + destruct H as [<-|H]; auto.
Qed.

(** A pattern without capturing groups leaves the captures alone. *)
Lemma matches_groupless r : groupless r = true ->
  forall s s', In s' (matches ci r s) -> caps s' = caps s.
Proof.
  induction r; simpl; intros G s s' H; try discriminate.
  - now destruct H as [<-|[]].
  - apply eat_str_inv in H. now destruct H as (u & _ & _ & _ & Hc).
  - apply eat_inv in H. now destruct H as (c & _ & _ & _ & Hc).
  - apply eat_inv in H. now destruct H as (c & _ & _ & _ & Hc).
  - apply andb_prop in G. destruct G as [G1 G2].
    apply in_flat_map in H. destruct H as (s1 & H1 & H2).
    rewrite (IHr2 G2 _ _ H2). now apply IHr1.
  - apply andb_prop in G. destruct G as [G1 G2].
    apply in_app_or in H. destruct H; auto.
  - exact (star_aux_caps greedy (matches ci r) (IHr G)
             (S (length (rest s))) s s' H).
  - destruct positive.
    + destruct (matches ci r s) as [|s1 tl] eqn:E; [easy|].
      destruct H as [<-|[]]. simpl. apply (IHr G s). rewrite E. now left.
    + destruct (matches ci r s); [|easy]. now destruct H as [<-|[]].
  - destruct (get_cap n (caps s)).
    + apply eat_str_inv in H. now destruct H as (u & _ & _ & _ & Hc).
    + now destruct H as [<-|[]].
  - destruct (prev s); [easy|]. now destruct H as [<-|[]].
  - destruct (rest s); [|easy]. now destruct H as [<-|[]].
  - destruct (xorb _ _); [|easy]. now destruct H as [<-|[]].
Qed.

Definition is_nil (A : Type) (l : list A) : bool :=
  match l with [] => true | _ :: _ => false end.

(** A look-ahead without groups is a test on the remaining input. *)
Lemma matches_look r pv l cs :
  groupless r = true ->
  matches ci (Look true r) (MState pv l cs)
  = if is_nil (matches ci r (MState pv l cs)) then [] else [MState pv l cs].
Proof.
  intros G. simpl.
  destruct (matches ci r (MState pv l cs)) as [|s1 tl] eqn:E; [reflexivity|].
  simpl. rewrite (matches_groupless r G (MState pv l cs) s1); [reflexivity|].
  rewrite E. now left.
Qed.

(** The first success of a list of attempts. *)
Fixpoint first_some (A B : Type) (g : A -> option B) (l : list A) : option B :=
  match l with
  | [] => None
  | x :: tl => match g x with Some y => Some y | None => first_some g tl end
  end.

Lemma hd_flat_map (A B : Type) (f : A -> list B) l :
  hd_error (flat_map f l) = first_some (fun x => hd_error (f x)) l.
Proof.
  induction l as [|x tl IH]; simpl; [reflexivity|].
  destruct (f x); simpl; auto.
Qed.

Lemma first_some_app (A B : Type) (g : A -> option B) l1 l2 :
  first_some g (l1 ++ l2)
  = match first_some g l1 with Some y => Some y | None => first_some g l2 end.
Proof.
  induction l1 as [|x tl IH]; simpl; [reflexivity|].
  destruct (g x); auto.
Qed.

Lemma first_some_map (A B C : Type) (h : A -> B) (g : B -> option C) l :
  first_some g (map h l) = first_some (fun x => g (h x)) l.
Proof.
  induction l as [|x tl IH]; simpl; [reflexivity|].
  destruct (g (h x)); auto.
Qed.

Lemma first_some_ext (A B : Type) (g g' : A -> option B) l :
  (forall x, In x l -> g x = g' x) -> first_some g l = first_some g' l.
Proof.
  induction l as [|x tl IH]; simpl; intros H; [reflexivity|].
  rewrite (H x) by now left. destruct (g' x); auto.
Qed.

(** The shortest prefix of [p]-characters that is followed by a
    [b]-boundary: possibly empty for [lazy_capture0], of one character at
    least for [lazy_capture]. *)
Fixpoint lazy_capture0 (p : N -> bool) (b : jsstring -> bool) (l : jsstring)
  : option (jsstring * jsstring) :=
  if b l then Some ([], l)
  else match l with
       | c :: tl =>
           if p c
           then match lazy_capture0 p b tl with
                | Some (u, v) => Some (c :: u, v)
                | None => None
                end
           else None
       | [] => None
       end.

Definition lazy_capture (p : N -> bool) (b : jsstring -> bool) (l : jsstring)
  : option (jsstring * jsstring) :=
  match l with
  | c :: tl =>
      if p c
      then match lazy_capture0 p b tl with
           | Some (u, v) => Some (c :: u, v)
           | None => None
           end
      else None
  | [] => None
  end.

Definition captured (n : nat) (pv : option N) (cs : list (nat * jsstring))
    (uv : jsstring * jsstring) : mstate :=
  MState (last_opt pv (fst uv)) (snd uv) ((n, fst uv) :: cs).

Section Lazy.

Variable n : nat.
Variable p : N -> bool.
Variable b : jsstring -> bool.
Variable look : regex.
Hypothesis look_spec : forall pv l cs,
  matches ci look (MState pv l cs) = if b l then [MState pv l cs] else [].

Let setcap (l0 : jsstring) (s' : mstate) : mstate :=
  MState (prev s') (rest s')
         ((n, firstn (length l0 - length (rest s')) l0) :: caps s').

Lemma lazy_run_capture : forall l done pv0 cs,
  hd_error (flat_map (matches ci look)
              (map (setcap (done ++ l)) (lazy_run p (last_opt pv0 done) l cs)))
  = match lazy_capture0 p b l with
    | Some (u, v) => Some (captured n pv0 cs (done ++ u, v))
    | None => None
    end.
Proof.
  induction l as [|c tl IH]; intros done pv0 cs.
  - cbn [lazy_run map flat_map lazy_capture0].
    unfold setcap at 1. cbn [prev rest caps].
    rewrite look_spec. unfold captured. cbn [fst snd length].
    rewrite !app_nil_r, Nat.sub_0_r, firstn_all.
    destruct (b []); simpl; rewrite ?app_nil_r; reflexivity.
  - cbn [lazy_run map flat_map lazy_capture0].
    unfold setcap at 1. cbn [prev rest caps].
    rewrite look_spec, firstn_app_exact.
    destruct (b (c :: tl)) eqn:Eb.
    + unfold captured. cbn [fst snd app hd_error]. now rewrite app_nil_r.
    + cbn [app]. destruct (p c) eqn:Ep.
      * replace (done ++ c :: tl) with ((done ++ [c]) ++ tl)
          by now rewrite <- app_assoc.
        replace (Some c) with (last_opt pv0 (done ++ [c]))
          by (clear; revert pv0; induction done; simpl; auto).
        rewrite (IH (done ++ [c]) pv0 cs).
        destruct (lazy_capture0 p b tl) as [[u v]|]; [|reflexivity].
        unfold captured. simpl. now rewrite <- app_assoc.
      * reflexivity.
Qed.

Variable one : regex.
Hypothesis one_spec : forall s, matches ci one s = eat p s.

Lemma star_aux_ext g (m m' : mstate -> list mstate) :
  (forall s, m s = m' s) ->
  forall fuel s, star_aux g m fuel s = star_aux g m' fuel s.
Proof.
  intros H. induction fuel as [|f IH]; intros s; simpl; [reflexivity|].
  rewrite H.
  rewrite (flat_map_ext
             (fun s' => if Nat.ltb (length (rest s')) (length (rest s))
                        then star_aux g m f s' else [])
             (fun s' => if Nat.ltb (length (rest s')) (length (rest s))
                        then star_aux g m' f s' else [])); [reflexivity|].
  intros s'. now rewrite IH.
Qed.

Lemma matches_star_one g pv l cs :
  matches ci (Star g one) (MState pv l cs)
  = if g then greedy_run p pv l cs else lazy_run p pv l cs.
Proof.
  change (matches ci (Star g one) (MState pv l cs))
    with (star_aux g (matches ci one) (S (length l)) (MState pv l cs)).
  rewrite (star_aux_ext g (matches ci one) (eat p) one_spec).
  destruct g; [apply star_greedy_eat | apply star_lazy_eat]; lia.
Qed.

(** The pattern [(one+?)(?=...)]: the first match captures the shortest
    non-empty run of [p]-characters that a boundary follows. *)
Lemma hd_capture_lazy pv l cs :
  hd_error (matches ci (Seq (Group n (Plus false one)) look) (MState pv l cs))
  = option_map (captured n pv cs) (lazy_capture p b l).
Proof.
  change (matches ci (Seq (Group n (Plus false one)) look) (MState pv l cs))
    with (flat_map (matches ci look)
            (map (setcap l)
               (flat_map (matches ci (Star false one))
                  (matches ci one (MState pv l cs))))).
  rewrite one_spec. destruct l as [|c tl]; [reflexivity|].
  rewrite eat_cons. unfold lazy_capture. destruct (p c); [|reflexivity].
  cbn [flat_map]. rewrite app_nil_r, matches_star_one.
  pose proof (lazy_run_capture tl [c] pv cs) as H.
  cbn [last_opt app] in H. rewrite H.
  destruct (lazy_capture0 p b tl) as [[u v]|]; reflexivity.
Qed.

End Lazy.

End Captures.
End Captures.

(** * Characters, line boundaries and anchors *)

Module CharFacts.
Local Open Scope N_scope.

Ltac split_orb H :=
  repeat match type of H with
         | (_ || _)%bool = true =>
             apply orb_prop in H; destruct H as [H|H]
         end.

Ltac to_prop H :=
  unfold Char.in_range in H;
  repeat match type of H with
         | (_ && _)%bool = true =>
             let H1 := fresh in
             apply andb_prop in H; destruct H as [H H1];
             try apply N.leb_le in H1; try apply N.eqb_eq in H1
         end;
  try apply N.leb_le in H; try apply N.eqb_eq in H.

Lemma is_space_range d :
  Char.is_space d = true -> d < 48 \/ 122 < d.
Proof.
  unfold Char.is_space, Char.is_white_space, Char.is_line_terminator.
  intros H. split_orb H; to_prop H; lia.
Qed.

Lemma upper_letter d :
  65 <= Char.upper d <= 90 -> 65 <= d <= 90 \/ 97 <= d <= 122.
Proof.
  unfold Char.upper, Char.is_lower, Char.in_range.
  destruct (N.leb_spec 97 d), (N.leb_spec d 122); simpl; lia.
Qed.

Definition is_letter (c : N) : bool := Char.is_upper c || Char.is_lower c.

Lemma letter_upper c : is_letter c = true -> 65 <= Char.upper c <= 90.
Proof.
  unfold is_letter, Char.upper, Char.is_upper, Char.is_lower, Char.in_range.
  destruct (N.leb_spec 97 c), (N.leb_spec c 122), (N.leb_spec 65 c),
    (N.leb_spec c 90); simpl; intros; try discriminate; lia.
Qed.

(** A letter of a pattern never matches a white-space character. *)
Lemma letter_not_space c d :
  is_letter c = true -> Char.is_space d = true -> chr_eq true c d = false.
Proof.
  intros Hc Hd. unfold chr_eq, canon. apply N.eqb_neq. intros E.
  pose proof (letter_upper c Hc) as Hu. rewrite E in Hu.
  apply upper_letter in Hu. apply is_space_range in Hd. lia.
Qed.

(** A pattern character that is not a letter matches only itself. *)
Lemma chr_eq_plain ci c d :
  is_letter c = false -> chr_eq ci c d = N.eqb d c.
Proof.
  unfold chr_eq, canon, is_letter. intros Hc. apply orb_false_elim in Hc.
  destruct Hc as [Hu Hl]. destruct ci; [|apply N.eqb_sym].
  unfold Char.upper at 1. rewrite Hl.
  unfold Char.upper, Char.is_upper, Char.is_lower, Char.in_range in *.
  destruct (N.eqb_spec d c) as [->|Hne].
  - rewrite Hl. apply N.eqb_refl.
  - apply N.eqb_neq.
    destruct (N.leb_spec 97 d), (N.leb_spec d 122), (N.leb_spec 65 c),
      (N.leb_spec c 90), (N.leb_spec 97 c), (N.leb_spec c 122);
      simpl in *; try discriminate; lia.
Qed.

Lemma space_cls ci c : cls_mem ci false [CSpace] c = Char.is_space c.
Proof. unfold cls_mem. simpl. now rewrite orb_false_r. Qed.

Lemma any_cls ci c : cls_mem ci false [CSpace; CNotSpace] c = true.
Proof. unfold cls_mem. simpl. now destruct (Char.is_space c). Qed.

End CharFacts.

Module Boundary.
Import RegexFacts Runs Captures CharFacts.

Lemma eat_ext p q s : (forall c, p c = q c) -> eat p s = eat q s.
Proof.
  intros H. unfold eat. destruct (rest s); [reflexivity|]. now rewrite H.
Qed.

Lemma Space_spec ci s : matches ci Space s = eat Char.is_space s.
Proof. apply eat_ext. apply space_cls. Qed.

Lemma AnyChar_spec ci s : matches ci AnyChar s = eat (fun _ => true) s.
Proof. apply eat_ext. apply any_cls. Qed.

Lemma Dot_spec ci s :
  matches ci Dot s = eat (fun c => negb (Char.is_line_terminator c)) s.
Proof. reflexivity. Qed.

Definition starts_with (ci : bool) (t l : jsstring) : bool :=
  match strip_prefix ci t l with Some _ => true | None => false end.

(** A line feed, then optional white space, then [t]. *)
Definition line_boundary (t l : jsstring) : bool :=
  match l with
  | c :: v => N.eqb c LF && starts_with true t (drop_space v)
  | [] => false
  end.

Lemma strip_prefix_app ci t1 t2 l :
  strip_prefix ci (t1 ++ t2) l
  = match strip_prefix ci t1 l with
    | Some v => strip_prefix ci t2 v
    | None => None
    end.
Proof.
  revert l. induction t1 as [|c t1 IH]; intros l; simpl; [reflexivity|].
  destruct l as [|d l]; [reflexivity|]. destruct (chr_eq ci c d); auto.
Qed.

Lemma flat_map_assoc (A B C : Type) (f : A -> list B) (g : B -> list C) l :
  flat_map g (flat_map f l) = flat_map (fun x => flat_map g (f x)) l.
Proof.
  induction l as [|x l IH]; simpl; [reflexivity|].
  now rewrite flat_map_app, IH.
Qed.

Lemma eat_str_app ci t1 t2 s :
  eat_str ci (t1 ++ t2) s = flat_map (eat_str ci t2) (eat_str ci t1 s).
Proof.
  revert s. induction t1 as [|c t1 IH]; intros s; simpl.
  - now rewrite app_nil_r.
  - rewrite flat_map_assoc. apply flat_map_ext. intros s1. apply IH.
Qed.

(** The look-ahead [(?=\n\s*t)] holds exactly at a line boundary; the
    text [t] may be written as two literals in a row. *)
Lemma boundary_look2 t1 t2 c0 t' pv l cs :
  t1 ++ t2 = c0 :: t' -> is_letter c0 = true ->
  matches true (Look true (seqs [Str [LF]; Star true Space; Str t1; Str t2]))
          (MState pv l cs)
  = if line_boundary (t1 ++ t2) l then [MState pv l cs] else [].
Proof.
  intros Ht Hc0. rewrite matches_look by reflexivity.
  change (matches true (seqs [Str [LF]; Star true Space; Str t1; Str t2])
            (MState pv l cs))
    with (flat_map (fun s1 =>
                      flat_map (fun s2 => flat_map (eat_str true t2) (eat_str true t1 s2))
                               (matches true (Star true Space) s1))
                   (eat_str true [LF] (MState pv l cs))).
  rewrite eat_str_eq. unfold line_boundary. destruct l as [|d v]; [reflexivity|].
  cbn [strip_prefix]. rewrite (chr_eq_plain true LF d eq_refl).
  destruct (N.eqb d LF); [|reflexivity].
  cbn [flat_map andb]. rewrite app_nil_r.
  rewrite (matches_star_one true Char.is_space Space (Space_spec true)).
  rewrite (flat_map_ext _ (eat_str true (t1 ++ t2)))
    by (intros s2; symmetry; apply eat_str_app).
  rewrite flat_map_greedy_run.
  - rewrite eat_str_eq. unfold starts_with, drop_space.
    destruct (strip_prefix true (t1 ++ t2) (drop_while Char.is_space v));
      reflexivity.
  - intros s c tl Hs Hsp. rewrite Ht. simpl. unfold eat. rewrite Hs.
    now rewrite (letter_not_space c0 c Hc0 Hsp).
Qed.

Lemma boundary_look t c0 t' pv l cs :
  t = c0 :: t' -> is_letter c0 = true ->
  matches true (Look true (seqs [Str [LF]; Star true Space; Str t]))
          (MState pv l cs)
  = if line_boundary t l then [MState pv l cs] else [].
Proof.
  intros Ht Hc0. rewrite matches_look by reflexivity.
  change (matches true (seqs [Str [LF]; Star true Space; Str t])
            (MState pv l cs))
    with (flat_map (fun s1 => flat_map (eat_str true t)
                                (matches true (Star true Space) s1))
                   (eat_str true [LF] (MState pv l cs))).
  rewrite eat_str_eq. unfold line_boundary. destruct l as [|d v]; [reflexivity|].
  cbn [strip_prefix]. rewrite (chr_eq_plain true LF d eq_refl).
  destruct (N.eqb d LF); [|reflexivity].
  cbn [flat_map andb]. rewrite app_nil_r.
  rewrite (matches_star_one true Char.is_space Space (Space_spec true)).
  rewrite flat_map_greedy_run.
  - rewrite eat_str_eq. unfold starts_with, drop_space.
    destruct (strip_prefix true t (drop_while Char.is_space v)); reflexivity.
  - intros s c tl Hs Hsp. rewrite Ht. simpl. unfold eat. rewrite Hs.
    now rewrite (letter_not_space c0 c Hc0 Hsp).
Qed.

(** A pattern anchored at the start of the input can only match there. *)
Lemma exec_at_bol ci r c l :
  exec_at ci (Seq Bol r) (Some c) l = None.
Proof. reflexivity. Qed.

Lemma search_bol_some ci r : forall l c,
  search ci (Seq Bol r) (Some c) l = None.
Proof.
  induction l as [|d l IH]; intros c; cbn [search].
  - reflexivity.
  - rewrite exec_at_bol. now rewrite IH.
Qed.

Lemma search_bol ci r l :
  search ci (Seq Bol r) None l = exec_at ci (Seq Bol r) None l.
Proof.
  destruct l as [|c l]; cbn [search].
  - now destruct (exec_at ci (Seq Bol r) None []).
  - destruct (exec_at ci (Seq Bol r) None (c :: l)); [reflexivity|].
    now rewrite search_bol_some.
Qed.

Lemma exec_at_hd ci r pv l :
  exec_at ci r pv l
  = option_map (fun s => RMatch [] (firstn (length l - length (rest s)) l)
                                (caps s) (rest s))
               (hd_error (matches ci r (MState pv l []))).
Proof.
  unfold exec_at. now destruct (matches ci r (MState pv l [])).
Qed.

Lemma matches_bol ci r l cs :
  matches ci (Seq Bol r) (MState None l cs) = matches ci r (MState None l cs).
Proof. simpl. apply app_nil_r. Qed.

End Boundary.

(** * The block extractor groups its output by type *)

Module BlockOrder.
Import RegexFacts WebScraper.

Definition opens_with_literal (r : regex) : Prop :=
  match r with
  | Seq (Str (_ :: _)) _ => True
  | _ => False
  end.

Lemma collect_total r (f : rmatch -> list block) (P : block -> Prop) l :
  opens_with_literal r ->
  (forall m, Forall P (f m)) ->
  exists out, collect r f l = Some out /\ Forall P out.
Proof.
  intros Hr HP. unfold collect.
  destruct (@exec_loop_total true block r f P) with
    (fuel := S (length l)) (l := l) (i := 0) as (out & -> & Hout);
    [|exact HP|lia|now exists out].
  destruct r as [| | | |r1 r2| | | | | | | |]; try contradiction.
  destruct r1 as [|t| | | | | | | | | | |]; try contradiction.
  destruct t as [|c t]; [contradiction|].
  intros l0 pv m. apply search_nonempty.
Qed.

Definition is_list_type (t : block_type) : Prop :=
  t = ordered_list \/ t = unordered_list.

Lemma heading_block_type m : Forall (fun b => type b = heading) (heading_block m).
Proof.
  unfold heading_block. destruct (is_empty _); repeat constructor.
Qed.

Lemma paragraph_block_type m :
  Forall (fun b => type b = paragraph) (paragraph_block m).
Proof.
  unfold paragraph_block. destruct (_ && _); repeat constructor.
Qed.

Lemma list_block_type m : Forall (fun b => is_list_type (type b)) (list_block m).
Proof.
  unfold list_block. destruct (Nat.ltb _ _); [|constructor].
  constructor; [|constructor]. simpl. unfold is_list_type.
  destruct (list_eq_dec _ _ _); auto.
Qed.

Lemma quote_block_type m : Forall (fun b => type b = quote) (quote_block m).
Proof.
  unfold quote_block. destruct (is_empty _); repeat constructor.
Qed.

(** The interleaved document [<h2>One</h2><p>...</p><h2>Two</h2>]. *)
Definition interleaved : jsstring :=
  codes "<h2>One</h2><p>a paragraph of more than twenty</p><h2>Two</h2>".

Definition plain_block (t : block_type) (text : String.string) : block :=
  {| type := t; content := codes text; level := None; items := None |}.

Definition h2_block (text : String.string) : block :=
  {| type := heading; content := codes text;
     level := Some (Num 2); items := None |}.

Lemma parseHtmlToBlocks_grouped html :
  exists hs ps ls qs,
    parseHtmlToBlocks html = Some (hs ++ ps ++ ls ++ qs)
    /\ Forall (fun b => type b = heading) hs
    /\ Forall (fun b => type b = paragraph) ps
    /\ Forall (fun b => is_list_type (type b)) ls
    /\ Forall (fun b => type b = quote) qs.
Proof.
  unfold parseHtmlToBlocks.
  set (cleanHtml := js_remove_all true style_re _).
  destruct (collect_total heading_re heading_block cleanHtml I heading_block_type)
    as (hs & -> & Hh).
  destruct (collect_total paragraph_re paragraph_block cleanHtml I
              paragraph_block_type) as (ps & -> & Hp).
  destruct (collect_total list_re list_block cleanHtml I list_block_type)
    as (ls & -> & Hl).
  destruct (collect_total blockquote_re quote_block cleanHtml I quote_block_type)
    as (qs & -> & Hq).
  now exists hs, ps, ls, qs.
Qed.

(** C1.  For every HTML input the extractor returns, and what it returns is
    a run of heading blocks, then a run of paragraph blocks, then a run of
    list blocks, then a run of quote blocks, whatever the order of the
    elements in the document; on the interleaved document
    [<h2>One</h2><p>...</p><h2>Two</h2>] both headings come before the
    paragraph. *)
Theorem C1_blocks_grouped_by_type :
  (forall html,
     exists hs ps ls qs,
       parseHtmlToBlocks html = Some (hs ++ ps ++ ls ++ qs)
       /\ Forall (fun b => type b = heading) hs
       /\ Forall (fun b => type b = paragraph) ps
       /\ Forall (fun b => is_list_type (type b)) ls
       /\ Forall (fun b => type b = quote) qs)
  /\ parseHtmlToBlocks interleaved
     = Some [h2_block "One"; h2_block "Two";
             plain_block paragraph "a paragraph of more than twenty"].
Proof.
  split; [exact parseHtmlToBlocks_grouped|now vm_compute].
Qed.

End BlockOrder.

(** * The MCQ parser: segments and records *)

Module MCQFacts.
Import RegexFacts MCQParser.

(** [parts[i], parts[i + 1]] for i = 1, 3, 5, ... on [parts] from index 1. *)
Fixpoint pair_up (parts : list jsstring) : list (jsstring * jsstring) :=
  match parts with
  | num :: questionContent :: tl => (num, questionContent) :: pair_up tl
  | _ => []
  end.

(** The segments the loop of [parseMCQResponse] visits: the label text and
    the body that follows each marker. *)
Definition segments (content : jsstring) : list (jsstring * jsstring) :=
  pair_up (tl (js_split true marker_re 1 content)).

(** The record a segment yields, if any. *)
Definition segment_record (seg : jsstring * jsstring) : option MCQ :=
  fst (parse_segment (fst seg) (snd seg)).

Lemma parse_parts_records : forall n parts,
  length parts <= n ->
  fst (parse_parts parts) = flat_map (fun seg => opt_list (segment_record seg))
                                     (pair_up parts).
Proof.
  induction n as [|n IH]; intros parts Hn.
  - destruct parts; [reflexivity|simpl in Hn; lia].
  - destruct parts as [|num [|body tl]]; try reflexivity.
    simpl. unfold segment_record at 1. simpl.
    destruct (parse_segment num body) as [o lg].
    specialize (IH tl). destruct (parse_parts tl) as [rs lgs].
    simpl in *. rewrite IH by lia. reflexivity.
Qed.

Lemma parseMCQResponse_records content :
  parseMCQResponse content
  = flat_map (fun seg => opt_list (segment_record seg)) (segments content).
Proof.
  unfold parseMCQResponse, parseMCQResponse_log, segments.
  rewrite <- (parse_parts_records (n := length (tl (js_split true marker_re 1 content))))
    by lia.
  destruct (parse_parts _). reflexivity.
Qed.

Lemma records_le_segments (segs : list (jsstring * jsstring)) :
  length (flat_map (fun seg => opt_list (segment_record seg)) segs)
  <= length segs.
Proof.
  induction segs as [|seg tl IH]; simpl; [lia|].
  rewrite length_app. destruct (segment_record seg); simpl; lia.
Qed.

Lemma records_lt_segments (segs : list (jsstring * jsstring)) seg :
  In seg segs -> segment_record seg = None ->
  length (flat_map (fun seg => opt_list (segment_record seg)) segs)
  < length segs.
Proof.
  induction segs as [|seg' tl IH]; simpl; [easy|].
  intros [->|Hin] Hnone; rewrite length_app.
  - rewrite Hnone. simpl. pose proof (records_le_segments tl). lia.
  - specialize (IH Hin Hnone). destruct (segment_record seg'); simpl; lia.
Qed.

(** Some option of the segment body extracts as the empty string. *)
Definition some_option_empty (body : jsstring) : Prop :=
  extractOption body (codes "A") (codes "B") = []
  \/ extractOption body (codes "B") (codes "C") = []
  \/ extractOption body (codes "C") (codes "D") = []
  \/ extractOption body (codes "D") (codes "Correct") = [].

Lemma missing_option_drops num body :
  some_option_empty body -> fst (parse_segment num body) = None.
Proof.
  intros H. unfold parse_segment.
  destruct (is_empty body || _); [reflexivity|].
  destruct (is_empty _ || _); [reflexivity|].
  destruct H as [-> | [-> | [-> | ->]]]; simpl;
    rewrite ?orb_true_r; reflexivity.
Qed.

(** Two segments, the second jumping from [B.] to [D.]. *)
Definition two_questions : jsstring :=
  lines_of ["Question 1: What is the capital city of France?";
            "A. Paris"; "B. London"; "C. Rome"; "D. Berlin";
            "Correct Answer: b";
            "Explanation: Paris is the capital.";
            "";
            "Question 2: Which planet is known as the red planet?";
            "A. Venus"; "B. Mars"; "D. Saturn";
            "Correct Answer: B";
            "Explanation: Mars."]%string.

Definition second_body : jsstring :=
  codes " " ++
  lines_of ["Which planet is known as the red planet?";
            "A. Venus"; "B. Mars"; "D. Saturn";
            "Correct Answer: B";
            "Explanation: Mars."]%string.

(** C2.  A segment one of whose four options extracts as empty yields no
    record at all, and the number of records returned for an input holding
    such a segment is strictly below its number of segments. *)
Theorem C2_missing_option_drops_segment content num body :
  In (num, body) (segments content) ->
  some_option_empty body ->
  segment_record (num, body) = None
  /\ length (parseMCQResponse content) < length (segments content).
Proof.
  intros Hin Hempty.
  assert (Hnone : segment_record (num, body) = None)
    by (apply missing_option_drops; exact Hempty).
  split; [exact Hnone|].
  rewrite parseMCQResponse_records.
  eapply records_lt_segments; eauto.
Qed.

(** The segment of [two_questions] that jumps from [B.] to [D.] is
    dropped, and one record is returned for two segments. *)
Lemma C2_missing_option_witness :
  segment_record (codes "2", second_body) = None
  /\ length (parseMCQResponse two_questions) < length (segments two_questions).
Proof.
  apply (@C2_missing_option_drops_segment two_questions (codes "2") second_body).
  - vm_compute. right. left. reflexivity.
  - unfold some_option_empty. right. right. left. vm_compute. reflexivity.
Defined.

End MCQFacts.

(** * The stem *)

Module Stem.
Import RegexFacts Runs Captures CharFacts Boundary MCQParser MCQFacts.

Lemma lazy_capture0_split p b : forall l u v,
  lazy_capture0 p b l = Some (u, v) -> l = u ++ v.
Proof.
  induction l as [|c tl IH]; intros u v; simpl.
  - destruct (b []); [|easy]. now intros [= <- <-].
  - destruct (b (c :: tl)); [now intros [= <- <-]|].
    destruct (p c); [|easy].
    destruct (lazy_capture0 p b tl) as [[u' v']|] eqn:E; [|easy].
    intros [= <- <-]. simpl. f_equal. now apply IH.
Qed.

Lemma lazy_capture_split p b l u v :
  lazy_capture p b l = Some (u, v) -> l = u ++ v /\ u <> [].
Proof.
  unfold lazy_capture. destruct l as [|c tl]; [easy|].
  destruct (p c); [|easy].
  destruct (lazy_capture0 p b tl) as [[u' v']|] eqn:E; [|easy].
  intros [= <- <-]. apply lazy_capture0_split in E. subst tl.
  split; [reflexivity|discriminate].
Qed.

(** The shortest non-empty prefix of the body that is followed by a line
    feed, optional white space and [A.], with what follows it. *)
Definition first_boundary (body : jsstring) : option (jsstring * jsstring) :=
  lazy_capture (fun _ => true) (line_boundary (codes "A.")) body.

Lemma stem_match body :
  js_match true stem_re body
  = option_map (fun uv => RMatch [] (fst uv) [(1, fst uv)] (snd uv))
               (first_boundary body).
Proof.
  unfold js_match, stem_re. cbn [seqs].
  rewrite search_bol, exec_at_hd, matches_bol.
  rewrite (hd_capture_lazy true 1 (fun _ => true) (line_boundary (codes "A."))
             (Look true (seqs [Str [LF]; Star true Space; lit "A."])));
    [| intros pv l cs; now apply (@boundary_look (codes "A.") 65%N (codes "."))
     | apply AnyChar_spec ].
  unfold first_boundary.
  destruct (lazy_capture _ _ body) as [[u v]|] eqn:E; [|reflexivity].
  apply lazy_capture_split in E. destruct E as [-> _].
  simpl. now rewrite firstn_app_exact.
Qed.

Lemma extract_question_spec body :
  extract_question body
  = match first_boundary body with
    | Some (u, _) => trim u
    | None => []
    end.
Proof.
  unfold extract_question. rewrite stem_match.
  now destruct (first_boundary body) as [[u v]|].
Qed.

Lemma short_stem_drops num body :
  length (extract_question body) < 10 -> segment_record (num, body) = None.
Proof.
  intros H. unfold segment_record, parse_segment. simpl.
  destruct (is_empty body || _); [reflexivity|].
  apply Nat.ltb_lt in H. rewrite H, orb_true_r. reflexivity.
Qed.

(** [first_boundary] is the leftmost boundary that has text before it. *)
Lemma lazy_capture0_none b : forall l,
  lazy_capture0 (fun _ => true) b l = None ->
  forall u v, l = u ++ v -> b v = false.
Proof.
  induction l as [|c tl IH]; simpl; intros H u v E.
  - destruct (b []) eqn:Eb; [easy|].
    symmetry in E. apply app_eq_nil in E. destruct E as [_ ->]. exact Eb.
  - destruct (b (c :: tl)) eqn:Eb; [easy|].
    destruct (lazy_capture0 _ b tl) as [[u' v']|] eqn:E'; [easy|].
    destruct u as [|d u]; simpl in E.
    + now subst v.
    + injection E as <- ->. eapply IH; eauto.
Qed.

Lemma lazy_capture0_least b : forall l u v,
  lazy_capture0 (fun _ => true) b l = Some (u, v) ->
  b v = true /\
  forall u' v', l = u' ++ v' -> b v' = true -> length u <= length u'.
Proof.
  induction l as [|c tl IH]; simpl; intros u v H.
  - destruct (b []) eqn:Eb; [|easy]. injection H as <- <-.
    split; [exact Eb|]. intros; simpl; lia.
  - destruct (b (c :: tl)) eqn:Eb.
    + injection H as <- <-. split; [exact Eb|]. intros; simpl; lia.
    + destruct (lazy_capture0 _ b tl) as [[u1 v1]|] eqn:E; [|easy].
      injection H as <- <-. destruct (IH _ _ eq_refl) as [Hb Hmin].
      split; [exact Hb|]. intros u' v' E' Hb'.
      destruct u' as [|d u']; simpl in E'.
      * subst v'. congruence.
      * injection E' as <- ->. simpl. specialize (Hmin _ _ eq_refl Hb'). lia.
Qed.

Lemma first_boundary_least body u v :
  first_boundary body = Some (u, v) ->
  body = u ++ v /\ u <> [] /\ line_boundary (codes "A.") v = true
  /\ forall u' v', body = u' ++ v' -> u' <> [] ->
                   line_boundary (codes "A.") v' = true ->
                   length u <= length u'.
Proof.
  intros H. pose proof (lazy_capture_split _ _ _ H) as [E Hne].
  split; [exact E|]. split; [exact Hne|].
  unfold first_boundary, lazy_capture in H. destruct body as [|c tl]; [easy|].
  destruct (lazy_capture0 _ _ tl) as [[u1 v1]|] eqn:E1; [|easy].
  injection H as <- <-. apply lazy_capture0_least in E1.
  destruct E1 as [Hb Hmin]. split; [exact Hb|].
  intros u' v' E' Hne' Hb'. destruct u' as [|d u']; [easy|].
  simpl in E'. injection E' as <- ->. simpl.
  specialize (Hmin _ _ eq_refl Hb'). lia.
Qed.

Lemma first_boundary_none body :
  first_boundary body = None ->
  forall u v, body = u ++ v -> u <> [] ->
              line_boundary (codes "A.") v = false.
Proof.
  unfold first_boundary, lazy_capture. destruct body as [|c tl].
  - intros _ u v E Hne. symmetry in E. apply app_eq_nil in E. now destruct E.
  - destruct (lazy_capture0 _ _ tl) as [[u1 v1]|] eqn:E1; [easy|].
    intros _ u v E Hne. destruct u as [|d u]; [easy|].
    simpl in E. injection E as <- ->.
    eapply lazy_capture0_none; eauto.
Qed.

(** C6 (amended).  The extracted stem is the trimmed text before the first
    line feed that has at least one character of the body before it and is
    followed by optional white space and [A.] in either case; when there
    is no such line feed, or the stem has fewer than 10 characters, the
    segment yields no record. *)
Theorem C6_stem_before_first_option_line num body :
  extract_question body
  = match first_boundary body with
    | Some (u, _) => trim u
    | None => []
    end
  /\ (first_boundary body = None \/ length (extract_question body) < 10 ->
      segment_record (num, body) = None).
Proof.
  split; [apply extract_question_spec|].
  intros [H|H]; apply short_stem_drops; [|exact H].
  rewrite extract_question_spec, H. simpl. lia.
Qed.

Definition short_stem_body : jsstring :=
  lines_of [" Capital?"; "A. Paris is the capital city of France";
            "B. London"; "C. Rome"; "D. Berlin"; "Correct Answer: A"]%string.

Lemma C6_stem_witness :
  segment_record (codes "1", short_stem_body) = None.
Proof.
  apply (proj2 (C6_stem_before_first_option_line (codes "1") short_stem_body)).
  right. vm_compute. lia.
Defined.

(** The claim as first written: the stem is the text before the first
    line that starts, after optional white space, with [A.]. *)
Fixpoint lines_before_option (ls : list jsstring) : option (list jsstring) :=
  match ls with
  | [] => None
  | ln :: tl =>
      if starts_with true (codes "A.") (drop_space ln) then Some []
      else match lines_before_option tl with
           | Some pre => Some (ln :: pre)
           | None => None
           end
  end.

Definition text_before_option_line (body : jsstring) : option jsstring :=
  match lines_before_option (split_on LF body) with
  | Some pre => Some (join [LF] pre)
  | None => None
  end.

Definition stem_as_claimed (num body : jsstring) : Prop :=
  extract_question body
  = match text_before_option_line body with
    | Some t => trim t
    | None => []
    end
  /\ (text_before_option_line body = None
      \/ length (extract_question body) < 10 ->
      segment_record (num, body) = None).

(** A body whose first option line comes right after the marker line. *)
Definition early_option_body : jsstring :=
  lines_of [""; "A. Paris is the capital"; "A. Paris"; "B. London";
            "C. Rome"; "D. Berlin"; "Correct Answer: A";
            "Explanation: It is."]%string.

Lemma C6_stem_counterexample :
  ~ stem_as_claimed (codes "1") early_option_body.
Proof.
  intros [H _]. vm_compute in H. discriminate H.
Qed.

End Stem.

(** * The segmenter *)

Module Segmenter.
Import RegexFacts Runs Captures CharFacts Boundary MCQParser MCQFacts.
Local Open Scope N_scope.

(** The marker at the head of [l], read directly: the word, white space,
    digits, optional white space, a colon.  Returns the digits and the
    text after the colon. *)
Definition marker_at (l : jsstring) : option (jsstring * jsstring) :=
  match strip_prefix true (codes "Question") l with
  | Some (c :: l1) =>
      if Char.is_space c then
        let l2 := drop_space l1 in
        match take_while Char.is_digit l2 with
        | [] => None
        | d :: ds =>
            match drop_space (drop_while Char.is_digit l2) with
            | c' :: post => if N.eqb c' 58 then Some (d :: ds, post) else None
            | [] => None
            end
        end
      else None
  | _ => None
  end.

Lemma matches_seq ci a b s :
  matches ci (Seq a b) s = flat_map (matches ci b) (matches ci a s).
Proof. reflexivity. Qed.

Lemma matches_str ci t s : matches ci (Str t) s = eat_str ci t s.
Proof. reflexivity. Qed.

Lemma matches_group ci n r s :
  matches ci (Group n r) s
  = map (fun s' => MState (prev s') (rest s')
                     ((n, firstn (length (rest s) - length (rest s')) (rest s))
                        :: caps s'))
        (matches ci r s).
Proof. reflexivity. Qed.

Lemma flat_map_map (A B C : Type) (g : A -> B) (f : B -> list C) l :
  flat_map f (map g l) = flat_map (fun x => f (g x)) l.
Proof.
  induction l as [|x l IH]; simpl; [reflexivity|]. now rewrite IH.
Qed.

Lemma Digit_spec ci s : matches ci Digit s = eat Char.is_digit s.
Proof.
  apply eat_ext. intros c. unfold cls_mem. simpl. now rewrite orb_false_r.
Qed.

Lemma digit_not_space c : Char.is_digit c = true -> Char.is_space c = false.
Proof.
  intros H. destruct (Char.is_space c) eqn:E; [|reflexivity].
  apply is_space_range in E. unfold Char.is_digit in H. to_prop H. lia.
Qed.

Lemma space_not_digit c : Char.is_space c = true -> Char.is_digit c = false.
Proof.
  intros H. destruct (Char.is_digit c) eqn:E; [|reflexivity].
  apply digit_not_space in E. congruence.
Qed.

Lemma take_drop_while p l : take_while p l ++ drop_while p l = l.
Proof.
  induction l as [|c l IH]; simpl; [reflexivity|].
  destruct (p c); simpl; [now rewrite IH|reflexivity].
Qed.

Lemma firstn_take_while p l :
  firstn (length l - length (drop_while p l)) l = take_while p l.
Proof.
  rewrite <- (take_drop_while p l) at 1 3. apply firstn_app_exact.
Qed.

(** [\s*:] after the digits. *)
Lemma colon_matches pv l cs :
  matches true (Seq (Star true Space) (chr ":")) (MState pv l cs)
  = match drop_space l with
    | c :: post => if N.eqb c 58 then [MState (Some 58) post cs] else []
    | [] => []
    end.
Proof.
  rewrite matches_seq.
  rewrite (matches_star_one true Char.is_space Space (Space_spec true)).
  rewrite flat_map_greedy_run.
  - unfold chr. rewrite matches_str, eat_str_eq. unfold drop_space.
    change (codes ":") with [58].
    destruct (drop_while Char.is_space l) as [|c post]; [reflexivity|].
    cbn [strip_prefix firstn length last_opt].
    rewrite (chr_eq_plain true 58 c eq_refl).
    destruct (N.eqb_spec c 58) as [->|]; reflexivity.
  - intros s c tl Hs Hsp. unfold chr. rewrite matches_str.
    change (codes ":") with [58]. cbn [eat_str].
    unfold eat. rewrite Hs. rewrite (chr_eq_plain true 58 c eq_refl).
    replace (N.eqb c 58) with false; [reflexivity|].
    symmetry. apply N.eqb_neq. apply is_space_range in Hsp. lia.
Qed.

(** [(\d+)\s*:] *)
Lemma digits_matches pv l cs :
  matches true (Seq (Group 1 (Plus true Digit))
                    (Seq (Star true Space) (chr ":"))) (MState pv l cs)
  = match take_while Char.is_digit l with
    | [] => []
    | d :: ds =>
        match drop_space (drop_while Char.is_digit l) with
        | c :: post =>
            if N.eqb c 58 then [MState (Some 58) post ((1%nat, d :: ds) :: cs)]
            else []
        | [] => []
        end
    end.
Proof.
  rewrite matches_seq, matches_group. unfold Plus. rewrite matches_seq.
  rewrite Digit_spec. destruct l as [|d l]; [reflexivity|].
  rewrite eat_cons. cbn [take_while drop_while].
  destruct (Char.is_digit d) eqn:Ed; [|reflexivity].
  cbn [flat_map]. rewrite app_nil_r.
  rewrite (matches_star_one true Char.is_digit Digit (Digit_spec true)).
  rewrite flat_map_map. rewrite flat_map_greedy_run.
  - cbn [prev rest caps]. rewrite colon_matches.
    replace (firstn (length (d :: l) - length (drop_while Char.is_digit l)) (d :: l))
      with (d :: take_while Char.is_digit l); [reflexivity|].
    pose proof (firstn_take_while Char.is_digit (d :: l)) as H.
    cbn [take_while drop_while] in H. rewrite Ed in H. now rewrite H.
  - intros s c tl Hs Hd. destruct s as [pv' l' cs']. simpl in Hs. subst l'.
    cbn [prev rest caps]. rewrite colon_matches. unfold drop_space.
    cbn [drop_while]. rewrite (digit_not_space c Hd).
    replace (N.eqb c 58) with false; [reflexivity|].
    symmetry. apply N.eqb_neq. unfold Char.is_digit in Hd. to_prop Hd. lia.
Qed.

(** The pattern matches at the head of [l] exactly when [marker_at]
    finds a marker there, in exactly one way. *)
Lemma marker_matches pv l cs :
  matches true marker_re (MState pv l cs)
  = match marker_at l with
    | Some (ds, post) => [MState (Some 58) post ((1%nat, ds) :: cs)]
    | None => []
    end.
Proof.
  unfold marker_re. cbn [seqs]. unfold lit.
  rewrite matches_seq, matches_str, eat_str_eq. unfold marker_at.
  destruct (strip_prefix true (codes "Question") l) as [l1|]; [|reflexivity].
  cbn [flat_map]. rewrite app_nil_r.
  rewrite matches_seq.
  change (Plus true Space) with (Seq Space (Star true Space)).
  rewrite (matches_seq true Space), Space_spec.
  destruct l1 as [|c l1]; [reflexivity|].
  rewrite eat_cons. destruct (Char.is_space c); [|reflexivity].
  cbn [flat_map]. rewrite app_nil_r.
  rewrite (matches_star_one true Char.is_space Space (Space_spec true)).
  rewrite flat_map_greedy_run.
  - rewrite digits_matches. unfold drop_space.
    destruct (take_while Char.is_digit (drop_while Char.is_space l1));
      [reflexivity|].
    destruct (drop_while Char.is_space
                (drop_while Char.is_digit (drop_while Char.is_space l1)))
      as [|c' post]; [reflexivity|].
    destruct (N.eqb c' 58); reflexivity.
  - intros s c' tl Hs Hsp. destruct s as [pv' l' cs']. simpl in Hs. subst l'.
    rewrite digits_matches. cbn [take_while].
    now rewrite (space_not_digit c' Hsp).
Qed.

Lemma exec_at_marker pv l :
  exec_at true marker_re pv l
  = match marker_at l with
    | Some (ds, post) =>
        Some (RMatch [] (firstn (length l - length post) l) [(1%nat, ds)] post)
    | None => None
    end.
Proof.
  unfold exec_at. rewrite marker_matches.
  now destruct (marker_at l) as [[ds post]|].
Qed.

Lemma marker_at_shorter l ds post :
  marker_at l = Some (ds, post) -> (length post < length l)%nat.
Proof.
  intros H. pose proof (exec_at_marker None l) as E. rewrite H in E.
  pose proof (exec_at_split _ _ _ _ E) as [_ Hl]. simpl in Hl.
  assert (Hne : firstn (length l - length post) l <> []).
  { change marker_re
      with (Seq (Str (81 :: codes "uestion"))
              (seqs [Plus true Space; Group 1 (Plus true Digit);
                     Star true Space; chr ":"])) in E.
    apply exec_at_nonempty in E. exact E. }
  apply (f_equal (@length N)) in Hl. rewrite length_app in Hl.
  destruct (firstn (length l - length post) l); [easy|simpl in Hl; lia].
Qed.

(** The text up to the next marker (or the end of the input), and the
    rest of the input from that marker on. *)
Fixpoint body_until_marker (l : jsstring) : jsstring * jsstring :=
  match l with
  | [] => ([], [])
  | c :: tl =>
      match marker_at l with
      | Some _ => ([], l)
      | None => let (b, r) := body_until_marker tl in (c :: b, r)
      end
  end.

(** The segments of an input that starts with a marker: the digits of
    each marker with the text between it and the next marker.  ([fuel]
    bounds the number of markers; the length of the input is enough.) *)
Fixpoint marked_segments (fuel : nat) (l : jsstring)
  : list (jsstring * jsstring) :=
  match fuel with
  | O => []
  | S f =>
      match marker_at l with
      | Some (ds, post) =>
          let (b, r) := body_until_marker post in
          (ds, b) :: marked_segments f r
      | None => []
      end
  end.

(** The segmenter as the specification words it. *)
Definition spec_segments (content : jsstring) : list (jsstring * jsstring) :=
  marked_segments (length content) (snd (body_until_marker content)).

Fixpoint flat_pairs (segs : list (jsstring * jsstring)) : list jsstring :=
  match segs with
  | [] => []
  | (a, b) :: tl => a :: b :: flat_pairs tl
  end.

Lemma pair_up_flat_pairs segs : pair_up (flat_pairs segs) = segs.
Proof.
  induction segs as [|[a b] tl IH]; simpl; [reflexivity|]. now rewrite IH.
Qed.

Lemma body_until_marker_length l :
  (length (snd (body_until_marker l)) <= length l)%nat.
Proof.
  induction l as [|c tl IH]; simpl; [lia|].
  destruct (marker_at (c :: tl)); simpl; [lia|].
  destruct (body_until_marker tl); simpl in *. lia.
Qed.

Lemma marked_segments_fuel : forall f1 f2 l,
  (length l <= f1)%nat -> (length l <= f2)%nat ->
  marked_segments f1 l = marked_segments f2 l.
Proof.
  induction f1 as [|f1 IH]; intros f2 l H1 H2.
  - destruct l; [|simpl in H1; lia]. destruct f2; reflexivity.
  - destruct f2 as [|f2].
    + destruct l; [reflexivity|simpl in H2; lia].
    + simpl. destruct (marker_at l) as [[ds post]|] eqn:E; [|reflexivity].
      pose proof (marker_at_shorter _ E) as Hs.
      pose proof (body_until_marker_length post) as Hb.
      destruct (body_until_marker post) as [b r]. simpl in Hb.
      f_equal. apply IH; lia.
Qed.

(** [split] cuts the input at the markers [marker_at] finds. *)
Lemma split_aux_marker : forall n l fuel pv cur,
  (length l <= n)%nat -> (length l < fuel)%nat ->
  split_aux true marker_re 1 fuel pv cur l
  = (rev cur ++ fst (body_until_marker l))
      :: flat_pairs (marked_segments n (snd (body_until_marker l))).
Proof.
  induction n as [|n IH]; intros l fuel pv cur Hn Hf.
  - destruct l; [|simpl in Hn; lia]. destruct fuel; [simpl in Hf; lia|].
    simpl. now rewrite app_nil_r.
  - destruct fuel as [|f]; [lia|]. destruct l as [|c tl].
    + simpl. now rewrite app_nil_r.
    + cbn [split_aux body_until_marker]. rewrite exec_at_marker.
      destruct (marker_at (c :: tl)) as [[ds post]|] eqn:E.
      * pose proof (marker_at_shorter _ E) as Hs.
        cbn [m_text m_post fst snd].
        assert (Hne : firstn (length (c :: tl) - length post) (c :: tl) <> []).
        { replace (length (c :: tl) - length post)%nat
            with (S (length tl - length post)).
          - discriminate.
          - cbn [length] in *. lia. }
        destruct (firstn (length (c :: tl) - length post) (c :: tl))
          as [|x xs] eqn:Ef; [easy|].
        rewrite app_nil_r. f_equal.
        cbn [seq map group_text group m_caps get_cap Nat.eqb app].
        cbn [marked_segments]. rewrite E.
        rewrite (IH post f _ []) by (cbn [length] in *; lia).
        destruct (body_until_marker post) as [b r] eqn:Eb.
        cbn [rev app fst snd flat_pairs]. reflexivity.
      * rewrite (IH tl f (Some c) (c :: cur)) by (cbn [length] in *; lia).
        destruct (body_until_marker tl) as [b r] eqn:Eb.
        cbn [fst snd rev]. rewrite <- app_assoc. cbn [app].
        f_equal. f_equal.
        pose proof (body_until_marker_length tl) as Hb. rewrite Eb in Hb.
        simpl in Hb. apply marked_segments_fuel; cbn [length] in *; lia.
Qed.

Lemma segments_spec content : segments content = spec_segments content.
Proof.
  unfold segments, spec_segments, js_split. destruct content as [|c l].
  - reflexivity.
  - rewrite (@split_aux_marker (length (c :: l))) by (simpl; lia).
    cbn [List.tl]. apply pair_up_flat_pairs.
Qed.

(** ** The shape of a marker *)

(** Equal up to the case of ASCII letters. *)
Definition same_word (t q : jsstring) : Prop :=
  Forall2 (fun a b => chr_eq true a b = true) t q.

(** [mk] is: the word, white space, the digits [ds], optional white
    space, a colon. *)
Definition is_marker (mk ds : jsstring) : Prop :=
  exists q ws1 ws2,
    mk = q ++ ws1 ++ ds ++ ws2 ++ [58]
    /\ same_word (codes "Question") q
    /\ ws1 <> [] /\ forallb Char.is_space ws1 = true
    /\ ds <> [] /\ forallb Char.is_digit ds = true
    /\ forallb Char.is_space ws2 = true.

Lemma strip_prefix_same ci t : forall l v,
  strip_prefix ci t l = Some v ->
  Forall2 (fun a b => chr_eq ci a b = true) t (firstn (length t) l).
Proof.
  induction t as [|c t IH]; intros l v; simpl; [constructor|].
  destruct l as [|d l]; [easy|]. destruct (chr_eq ci c d) eqn:E; [|easy].
  intros H. constructor; [exact E|]. eapply IH; eauto.
Qed.

Lemma strip_prefix_exact ci t : forall q v,
  Forall2 (fun a b => chr_eq ci a b = true) t q ->
  strip_prefix ci t (q ++ v) = Some v.
Proof.
  induction t as [|c t IH]; intros q v H; inversion H; subst; simpl.
  - reflexivity.
  - rewrite H2. now apply IH.
Qed.

Lemma forallb_take_while p l : forallb p (take_while p l) = true.
Proof.
  induction l as [|c l IH]; simpl; [reflexivity|].
  destruct (p c) eqn:E; simpl; [now rewrite E|reflexivity].
Qed.

Definition stops (p : N -> bool) (v : jsstring) : Prop :=
  match v with c :: _ => p c = false | [] => True end.

Lemma drop_while_stops p l : stops p (drop_while p l).
Proof.
  induction l as [|c l IH]; simpl; [exact I|].
  destruct (p c) eqn:E; [exact IH|exact E].
Qed.

Lemma while_app_stop p u v :
  forallb p u = true -> stops p v ->
  take_while p (u ++ v) = u /\ drop_while p (u ++ v) = v.
Proof.
  intros Hu Hv. induction u as [|c u IH]; simpl in *.
  - destruct v as [|d v]; simpl in *; [easy|]. now rewrite Hv.
  - apply andb_prop in Hu. destruct Hu as [-> Hu].
    destruct (IH Hu) as [-> ->]. easy.
Qed.

Lemma marker_at_shape l ds post :
  marker_at l = Some (ds, post) <->
  exists mk, l = mk ++ post /\ is_marker mk ds.
Proof.
  split.
  - unfold marker_at.
    destruct (strip_prefix true (codes "Question") l) as [[|c l1]|] eqn:E;
      try easy.
    destruct (Char.is_space c) eqn:Ec; [|easy].
    destruct (take_while Char.is_digit (drop_space l1)) as [|d ds'] eqn:Ed;
      [easy|].
    destruct (drop_space (drop_while Char.is_digit (drop_space l1)))
      as [|c' post'] eqn:Ep; [easy|].
    destruct (N.eqb_spec c' 58) as [->|]; [|easy].
    intros [= <- <-].
    pose proof (strip_prefix_split _ _ _ E) as Hl.
    pose proof (strip_prefix_same _ _ _ E) as Hq.
    pose proof (take_drop_while Char.is_space l1) as H1.
    pose proof (take_drop_while Char.is_digit (drop_space l1)) as H2.
    pose proof (take_drop_while Char.is_space
                  (drop_while Char.is_digit (drop_space l1))) as H3.
    fold (drop_space l1) in H1.
    fold (drop_space (drop_while Char.is_digit (drop_space l1))) in H3.
    rewrite Ep in H3. rewrite Ed in H2.
    exists (firstn (length (codes "Question")) l
            ++ (c :: take_while Char.is_space l1) ++ (d :: ds')
            ++ take_while Char.is_space
                 (drop_while Char.is_digit (drop_space l1)) ++ [58]).
    split.
    + rewrite Hl at 1. rewrite <- !app_assoc. f_equal.
      cbn [app]. f_equal. rewrite <- H1 at 1. f_equal.
      rewrite <- H2 at 1. cbn [app]. f_equal. f_equal.
      rewrite <- H3 at 1. reflexivity.
    + exists (firstn (length (codes "Question")) l),
             (c :: take_while Char.is_space l1),
             (take_while Char.is_space
                (drop_while Char.is_digit (drop_space l1))).
      repeat split; try easy.
      * simpl. now rewrite Ec, forallb_take_while.
      * rewrite <- Ed. apply forallb_take_while.
      * apply forallb_take_while.
  - intros (mk & -> & q & ws1 & ws2 & -> & Hq & Hne1 & Hw1 & Hne & Hd & Hw2).
    unfold marker_at. rewrite <- !app_assoc.
    rewrite (@strip_prefix_exact true _ q _ Hq).
    destruct ws1 as [|c ws1]; [easy|]. cbn [app].
    simpl in Hw1. apply andb_prop in Hw1. destruct Hw1 as [-> Hw1].
    destruct ds as [|d ds]; [easy|].
    pose proof Hd as Hd0. simpl in Hd0. apply andb_prop in Hd0.
    destruct Hd0 as [Hdd _].
    unfold drop_space. cbn [app].
    destruct (while_app_stop Char.is_space ws1
                (d :: ds ++ ws2 ++ 58 :: post) Hw1) as [_ ->].
    { simpl. now apply digit_not_space. }
    assert (Hstop : stops Char.is_digit (ws2 ++ 58 :: post)).
    { destruct ws2 as [|w ws2]; simpl; [reflexivity|].
      simpl in Hw2. apply andb_prop in Hw2. destruct Hw2 as [Hw _].
      now apply space_not_digit. }
    destruct (while_app_stop Char.is_digit (d :: ds)
                (ws2 ++ 58 :: post) Hd Hstop) as [H1 H2].
    cbn [app] in H1, H2. rewrite H1, H2.
    destruct (while_app_stop Char.is_space ws2 (58 :: post) Hw2)
      as [_ ->]; [reflexivity|].
    reflexivity.
Qed.

Lemma short_body_drops num body :
  (length body < 50)%nat -> segment_record (num, body) = None.
Proof.
  intros H. unfold segment_record, parse_segment. simpl.
  apply Nat.ltb_lt in H. rewrite H, orb_true_r. reflexivity.
Qed.

(** The test that lets a segment through to field extraction:
    [questionContent] is not empty and has at least 50 characters. *)
Definition long_enough (seg : jsstring * jsstring) : bool :=
  negb (is_empty (snd seg) || Nat.ltb (length (snd seg)) 50).

(** The records and the console lines of the segments in [segs], in
    order. *)
Definition records_of (segs : list (jsstring * jsstring)) : list MCQ :=
  flat_map (fun seg => opt_list (fst (parse_segment (fst seg) (snd seg)))) segs.

Definition lines_of_segments (segs : list (jsstring * jsstring))
  : list log_event :=
  flat_map (fun seg => snd (parse_segment (fst seg) (snd seg))) segs.

Lemma short_segment_silent num body :
  long_enough (num, body) = false -> parse_segment num body = (None, []).
Proof.
  unfold long_enough, parse_segment. cbn [snd]. intros H.
  apply negb_false_iff in H. now rewrite H.
Qed.

Lemma parse_parts_pairs : forall n parts,
  (length parts <= n)%nat ->
  parse_parts parts
  = (records_of (filter long_enough (pair_up parts)),
     lines_of_segments (filter long_enough (pair_up parts))).
Proof.
  induction n as [|n IH]; intros parts Hn.
  - destruct parts; [reflexivity|simpl in Hn; lia].
  - destruct parts as [|num [|body tl]]; try reflexivity.
    cbn [parse_parts pair_up filter].
    rewrite (IH tl) by (simpl in Hn; lia).
    destruct (long_enough (num, body)) eqn:E.
    + unfold records_of, lines_of_segments. cbn [flat_map fst snd].
      now destruct (parse_segment num body) as [o lg].
    + now rewrite (short_segment_silent num body E).
Qed.

Lemma parseMCQResponse_log_segments content :
  parseMCQResponse_log content
  = (records_of (filter long_enough (spec_segments content)),
     LogParsing :: lines_of_segments (filter long_enough (spec_segments content))).
Proof.
  unfold parseMCQResponse_log.
  rewrite (@parse_parts_pairs (length (tl (js_split true marker_re 1 content))))
    by lia.
  fold (segments content). now rewrite segments_spec.
Qed.

(** C5.  The pattern of the segmenter matches exactly the texts made of
    the word "Question" in any case, white space, one or more digits,
    optional white space and a colon.  The records [parseMCQResponse]
    returns, and the lines it logs, are those of the segments made of the
    digits of each marker with the text between that marker and the next
    one, or the end of the input, taken in order and leaving out every
    segment whose body has fewer than 50 characters: such a segment
    yields no record and no line, whatever its fields. *)
Theorem C5_segmenter :
  (forall pv l m,
      exec_at true marker_re pv l = Some m <->
      exists mk ds post,
        l = mk ++ post /\ is_marker mk ds
        /\ m = RMatch [] mk [(1%nat, ds)] post)
  /\ (forall l ds post,
        marker_at l = Some (ds, post) <->
        exists mk, l = mk ++ post /\ is_marker mk ds)
  /\ (forall content,
        parseMCQResponse_log content
        = (records_of (filter long_enough (spec_segments content)),
           LogParsing
             :: lines_of_segments (filter long_enough (spec_segments content))))
  /\ (forall content,
        parseMCQResponse content
        = records_of (filter long_enough (spec_segments content)))
  /\ (forall num body,
        long_enough (num, body) = negb (Nat.ltb (length body) 50)).
Proof.
  split; [|split; [|split; [|split]]].
  - intros pv l m. rewrite exec_at_marker. split.
    + destruct (marker_at l) as [[ds post]|] eqn:E; [|easy].
      intros [= <-]. apply marker_at_shape in E.
      destruct E as (mk & -> & Hmk). exists mk, ds, post.
      repeat split; auto. now rewrite firstn_app_exact.
    + intros (mk & ds & post & -> & Hmk & ->).
      assert (E : marker_at (mk ++ post) = Some (ds, post))
        by (apply marker_at_shape; now exists mk).
      rewrite E. now rewrite firstn_app_exact.
  - apply marker_at_shape.
  - apply parseMCQResponse_log_segments.
  - intros content. unfold parseMCQResponse.
    now rewrite parseMCQResponse_log_segments.
  - intros num body. unfold long_enough. cbn [snd].
    destruct body; reflexivity.
Qed.

(** A preamble, a marker with a body of 11 characters, and a marker
    with a full question. *)
Definition noisy_input : jsstring :=
  lines_of ["Here are your questions.";
            "question 7 : too short";
            "QUESTION  12: What is the capital city of France?";
            "A. Paris"; "B. London"; "C. Rome"; "D. Berlin";
            "Correct Answer: A";
            "Explanation: Paris is the capital."]%string.

Lemma C5_segmenter_witness :
  map fst (spec_segments noisy_input) = [codes "7"; codes "12"]
  /\ map (fun seg => length (snd seg)) (spec_segments noisy_input)
     = [11; 126]%nat
  /\ map id (parseMCQResponse noisy_input) = [Num 12]
  /\ snd (parseMCQResponse_log noisy_input) = [LogParsing].
Proof.
  destruct C5_segmenter as (_ & _ & Hlog & Hrec & _).
  rewrite (Hlog noisy_input), (Hrec noisy_input).
  now vm_compute.
Defined.

End Segmenter.

(** * The correct answer and the explanation *)

Module Answer.
Import RegexFacts Runs Captures CharFacts Boundary MCQParser MCQFacts Segmenter.
Local Open Scope N_scope.

(** A pattern that ends in a one-character group captures one character
    of its class. *)
Lemma group_cls_inv ci n neg items s s' :
  In s' (matches ci (Group n (Cls neg items)) s) ->
  exists c cs, caps s' = (n, [c]) :: cs /\ cls_mem ci neg items c = true.
Proof.
  rewrite matches_group. intros H. apply in_map_iff in H.
  destruct H as (x & <- & Hx). apply eat_inv in Hx.
  destruct Hx as (c & Hc & Hr & _ & Hcs). exists c, (caps x).
  split; [|exact Hc]. cbn [caps]. rewrite Hr. cbn [length].
  replace (S (length (rest x)) - length (rest x))%nat with 1%nat by lia.
  reflexivity.
Qed.

Lemma search_in_matches ci r : forall l pv m,
  search ci r pv l = Some m ->
  exists s s', In s' (matches ci r s) /\ caps s = [] /\ m_caps m = caps s'.
Proof.
  induction l as [|c tl IH]; intros pv m; cbn [search]; unfold exec_at.
  - destruct (matches ci r (MState pv [] [])) as [|s' tl'] eqn:E; [easy|].
    intros [= <-]. exists (MState pv [] []), s'. rewrite E. simpl. auto.
  - destruct (matches ci r (MState pv (c :: tl) [])) as [|s' tl'] eqn:E.
    + destruct (search ci r (Some c) tl) as [m'|] eqn:F; [|easy].
      intros [= <-]. apply IH in F. exact F.
    + intros [= <-]. exists (MState pv (c :: tl) []), s'.
      rewrite E. simpl. auto.
Qed.

Definition is_answer_letter (l : jsstring) : Prop :=
  l = codes "A" \/ l = codes "B" \/ l = codes "C" \/ l = codes "D".

Lemma upper_A_to_D c :
  cls_mem true false [CRange 65 68] c = true ->
  Char.upper c = 65 \/ Char.upper c = 66 \/ Char.upper c = 67
  \/ Char.upper c = 68.
Proof.
  unfold cls_mem, cset_mem, Char.upper, Char.lower, Char.is_lower,
    Char.is_upper, Char.in_range. simpl.
  destruct (N.leb_spec 65 c), (N.leb_spec c 68), (N.leb_spec 97 c),
    (N.leb_spec c 122), (N.leb_spec c 90); simpl;
    repeat match goal with
           | |- context [N.leb ?a ?b] => destruct (N.leb_spec a b)
           end; simpl; intros; try discriminate; lia.
Qed.

Lemma correct_answer_letter body : is_answer_letter (extract_correctAnswer body).
Proof.
  unfold extract_correctAnswer, js_match.
  destruct (search true correct_re None body) as [m|] eqn:E;
    [|now left].
  apply search_in_matches in E. destruct E as (s & s' & Hin & _ & Hc).
  unfold correct_re in Hin. cbn [seqs] in Hin.
  do 5 (rewrite matches_seq in Hin; apply in_flat_map in Hin;
        destruct Hin as (? & _ & Hin)).
  apply group_cls_inv in Hin. destruct Hin as (c & cs & Hcs & Hmem).
  unfold group_text, group. rewrite Hc, Hcs. cbn [get_cap Nat.eqb].
  unfold toUpperCase. cbn [map]. unfold is_answer_letter.
  change (codes "A") with [65]. change (codes "B") with [66].
  change (codes "C") with [67]. change (codes "D") with [68].
  destruct (upper_A_to_D c Hmem) as [-> | [-> | [-> | ->]]]; auto.
Qed.

Lemma segment_record_fields num body r :
  segment_record (num, body) = Some r ->
  id r = parseInt num
  /\ question r = extract_question body
  /\ optionA r = extractOption body (codes "A") (codes "B")
  /\ optionB r = extractOption body (codes "B") (codes "C")
  /\ optionC r = extractOption body (codes "C") (codes "D")
  /\ optionD r = extractOption body (codes "D") (codes "Correct")
  /\ correctAnswer r = extract_correctAnswer body
  /\ explanation r = extract_explanation body (extract_correctAnswer body).
Proof.
  unfold segment_record, parse_segment. cbn [fst snd].
  destruct (is_empty body || _)%bool; [easy|].
  destruct (is_empty (extract_question body) || _)%bool; [easy|].
  destruct (is_empty _ || _ || _ || _)%bool; [easy|].
  cbn [fst]. intros [= <-]. cbn. repeat split.
Qed.

(** A segment whose correct answer is written in lower case. *)
Definition lower_case_answer : jsstring :=
  lines_of ["Question 4: What is the capital city of France?";
            "A. Paris"; "B. London"; "C. Rome"; "D. Berlin";
            "Correct Answer: b";
            "Explanation: Paris is the capital."]%string.

(** C10.  The [correctAnswer] of every record returned is one of the
    upper-case letters A, B, C, D, also when the text writes the letter in
    lower case. *)
Theorem C10_correct_answer_is_upper_case_letter :
  (forall content r,
      In r (parseMCQResponse content) -> is_answer_letter (correctAnswer r))
  /\ map correctAnswer (parseMCQResponse lower_case_answer) = [codes "B"].
Proof.
  split; [|now vm_compute].
  intros content r H. rewrite parseMCQResponse_records in H.
  apply in_flat_map in H. destruct H as ([num body] & _ & H).
  destruct (segment_record (num, body)) as [r'|] eqn:E; [|easy].
  destruct H as [<-|[]].
  apply segment_record_fields in E.
  destruct E as (_ & _ & _ & _ & _ & _ & -> & _).
  apply correct_answer_letter.
Qed.

Definition lower_case_record : MCQ :=
  {| id := Num 4;
     question := codes "What is the capital city of France?";
     optionA := codes "Paris"; optionB := codes "London";
     optionC := codes "Rome"; optionD := codes "Berlin";
     correctAnswer := codes "B";
     explanation := codes "Paris is the capital." |}.

Lemma C10_correct_answer_witness :
  is_answer_letter (correctAnswer lower_case_record).
Proof.
  apply (proj1 C10_correct_answer_is_upper_case_letter lower_case_answer).
  vm_compute. left. reflexivity.
Defined.

(** ** Defaults for a missing answer or explanation *)

Fixpoint exists_tail (P : jsstring -> bool) (l : jsstring) : bool :=
  P l || match l with [] => false | _ :: tl => exists_tail P tl end.

(** The word "Explanation", in any case, occurs in [body]. *)
Definition has_explanation_marker (body : jsstring) : bool :=
  exists_tail (starts_with true (codes "Explanation")) body.

Definition is_separator (c : N) : bool := Char.is_space c || N.eqb c 58.

Definition is_A_to_D (c : N) : bool :=
  Char.in_range 65 68 c || Char.in_range 97 100 c.

(** "Correct", optional white space, "Answer", any run of white space and
    colons, then a letter A-D, in any case, at the head of [l]. *)
Definition correct_marker_at (l : jsstring) : bool :=
  match strip_prefix true (codes "Correct") l with
  | Some l1 =>
      match strip_prefix true (codes "Answer") (drop_space l1) with
      | Some l2 =>
          match drop_while is_separator l2 with
          | c :: _ => is_A_to_D c
          | [] => false
          end
      | None => false
      end
  | None => false
  end.

Definition has_correct_marker (body : jsstring) : bool :=
  exists_tail correct_marker_at body.

Lemma search_none ci r (P : jsstring -> bool) :
  (forall pv l, P l = false -> exec_at ci r pv l = None) ->
  forall l pv, exists_tail P l = false -> search ci r pv l = None.
Proof.
  intros HP. induction l as [|c tl IH]; intros pv H; cbn [search exists_tail] in *;
    apply orb_false_elim in H; destruct H as [H1 H2]; rewrite (HP _ _ H1).
  - reflexivity.
  - now rewrite IH.
Qed.

Lemma exec_at_str_none ci t r pv l :
  starts_with ci t l = false -> exec_at ci (Seq (Str t) r) pv l = None.
Proof.
  unfold starts_with, exec_at. rewrite matches_seq, matches_str, eat_str_eq.
  now destruct (strip_prefix ci t l).
Qed.

Lemma no_explanation_marker body :
  has_explanation_marker body = false ->
  js_match true explanation_re body = None.
Proof.
  apply search_none. intros pv l. apply exec_at_str_none.
Qed.

Lemma forallb_impl (p q : N -> bool) l :
  (forall c, p c = true -> q c = true) ->
  forallb p l = true -> forallb q l = true.
Proof.
  intros H. induction l as [|c l IH]; simpl; [easy|].
  intros E. apply andb_prop in E. destruct E as [E1 E2].
  now rewrite (H _ E1), IH.
Qed.

Lemma A_to_D_cls c :
  cls_mem true false [CRange 65 68] c = true -> is_A_to_D c = true.
Proof.
  intros H. apply upper_A_to_D in H. unfold is_A_to_D, Char.in_range.
  unfold Char.upper, Char.is_lower, Char.in_range in H.
  destruct (N.leb_spec 97 c), (N.leb_spec c 122); simpl in H;
    repeat match goal with
           | |- context [N.leb ?a ?b] => destruct (N.leb_spec a b)
           end; simpl; try reflexivity; lia.
Qed.

Lemma A_to_D_not_separator c : is_A_to_D c = true -> is_separator c = false.
Proof.
  intros H. unfold is_separator.
  destruct (Char.is_space c) eqn:E.
  - apply is_space_range in E. unfold is_A_to_D in H.
    apply orb_prop in H. destruct H as [H|H]; to_prop H; lia.
  - simpl. apply N.eqb_neq. unfold is_A_to_D in H.
    apply orb_prop in H. destruct H as [H|H]; to_prop H; lia.
Qed.

Lemma starts_with_not_space t c0 t0 l :
  t = c0 :: t0 -> is_letter c0 = true ->
  starts_with true t l = true -> stops Char.is_space l.
Proof.
  intros -> Hc. unfold starts_with. destruct l as [|d l]; simpl; [easy|].
  destruct (chr_eq true c0 d) eqn:E; [|easy]. intros _.
  destruct (Char.is_space d) eqn:Ed; [|reflexivity].
  rewrite (letter_not_space c0 d Hc Ed) in E. discriminate.
Qed.

Lemma no_correct_marker_at pv l :
  correct_marker_at l = false -> exec_at true correct_re pv l = None.
Proof.
  intros H. unfold exec_at.
  destruct (matches true correct_re (MState pv l [])) as [|s1 others] eqn:E;
    [reflexivity|].
  exfalso.
  assert (Hin : In s1 (matches true correct_re (MState pv l [])))
    by (rewrite E; now left).
  clear E. unfold correct_re in Hin. cbn [seqs] in Hin. unfold lit in Hin.
  rewrite matches_seq, matches_str, eat_str_eq in Hin.
  unfold correct_marker_at in H.
  destruct (strip_prefix true (codes "Correct") l) as [l1|]; [|easy].
  cbn [flat_map] in Hin. rewrite app_nil_r in Hin.
  rewrite matches_seq in Hin. apply in_flat_map in Hin.
  destruct Hin as (s2 & H2 & Hin).
  rewrite (matches_star_one true Char.is_space Space (Space_spec true)) in H2.
  apply in_greedy_run in H2. destruct H2 as (u & v & -> & Hu & ->).
  rewrite matches_seq, matches_str, eat_str_eq in Hin.
  destruct (strip_prefix true (codes "Answer") v) as [l2|] eqn:Ev; [|easy].
  assert (Hv : stops Char.is_space v).
  { apply (@starts_with_not_space (codes "Answer") 65 (codes "nswer"));
      try reflexivity. unfold starts_with. now rewrite Ev. }
  unfold drop_space in H.
  destruct (while_app_stop Char.is_space u v Hu Hv) as [_ Hd].
  rewrite Hd, Ev in H.
  cbn [flat_map] in Hin. rewrite app_nil_r in Hin.
  rewrite matches_seq in Hin. apply in_flat_map in Hin.
  destruct Hin as (s4 & H4 & Hin).
  rewrite (matches_star_one true Char.is_space Space (Space_spec true)) in H4.
  apply in_greedy_run in H4. destruct H4 as (u1 & v1 & -> & Hu1 & ->).
  rewrite matches_seq in Hin. apply in_flat_map in Hin.
  destruct Hin as (s5 & H5 & Hin).
  rewrite (matches_star_one true (cls_mem true false [CChar 58; CSpace])
             (Cls false [CChar 58; CSpace]) (fun s => eq_refl)) in H5.
  apply in_greedy_run in H5. destruct H5 as (u2 & v2 & -> & Hu2 & ->).
  rewrite matches_group in Hin. apply in_map_iff in Hin.
  destruct Hin as (x & _ & Hx). apply eat_inv in Hx.
  destruct Hx as (c & Hc & Hr & _). cbn [rest] in Hr. subst v2.
  apply A_to_D_cls in Hc.
  assert (Hsep : forallb is_separator (u1 ++ u2) = true).
  { rewrite forallb_app. apply andb_true_intro. split.
    - eapply forallb_impl; [|exact Hu1]. intros d Hd'. unfold is_separator.
      now rewrite Hd'.
    - eapply forallb_impl; [|exact Hu2]. intros d. unfold cls_mem, is_separator.
      simpl. rewrite (chr_eq_plain true 58 d eq_refl), orb_false_r.
      now rewrite orb_comm. }
  destruct (while_app_stop is_separator (u1 ++ u2) (c :: rest x) Hsep)
    as [_ Hd2].
  { simpl. now apply A_to_D_not_separator. }
  rewrite <- app_assoc in Hd2. rewrite Hd2 in H. congruence.
Qed.

Lemma no_correct_marker body :
  has_correct_marker body = false -> js_match true correct_re body = None.
Proof.
  apply search_none. intros pv l. apply no_correct_marker_at.
Qed.

Lemma is_empty_true l : is_empty l = true <-> l = [].
Proof. destruct l; simpl; split; congruence. Qed.

Lemma segment_record_none num body :
  segment_record (num, body) = None <->
  (length body < 50)%nat \/ (length (extract_question body) < 10)%nat
  \/ some_option_empty body.
Proof.
  split.
  - unfold segment_record, parse_segment. cbn [fst snd].
    destruct (Nat.ltb_spec (length body) 50) as [H|H]; [now left|].
    rewrite orb_false_r.
    destruct (is_empty body) eqn:Eb;
      [apply is_empty_true in Eb; subst body; simpl in H; lia|].
    destruct (Nat.ltb_spec (length (extract_question body)) 10) as [Hq|Hq];
      [right; now left|].
    rewrite orb_false_r.
    destruct (is_empty (extract_question body)) eqn:Eq;
      [apply is_empty_true in Eq; rewrite Eq in Hq; simpl in Hq; lia|].
    destruct (is_empty (extractOption body (codes "A") (codes "B"))) eqn:EA;
      [intros _; right; right; left; now apply is_empty_true|].
    destruct (is_empty (extractOption body (codes "B") (codes "C"))) eqn:EB;
      [intros _; right; right; right; left; now apply is_empty_true|].
    destruct (is_empty (extractOption body (codes "C") (codes "D"))) eqn:EC;
      [intros _; right; right; right; right; left; now apply is_empty_true|].
    destruct (is_empty (extractOption body (codes "D") (codes "Correct")))
      eqn:ED;
      [intros _; right; right; right; right; right; now apply is_empty_true|].
    simpl. discriminate.
  - intros [H | [H | H]].
    + now apply short_body_drops.
    + now apply Stem.short_stem_drops.
    + now apply missing_option_drops.
Qed.

Definition default_explanation (letter : jsstring) : jsstring :=
  codes "The correct answer is " ++ letter ++ codes ".".

(** C4.  Let a segment yield a record.  If its body holds no "Correct
    Answer" marker followed by a letter A-D, the record's correct answer
    is "A"; if it does not hold the word "Explanation", the record's
    explanation is "The correct answer is X." for the record's
    correct-answer letter X.  A segment is dropped only for a body under
    50 characters, a stem under 10 characters or an empty option, never
    for a missing answer or explanation. *)
Theorem C4_defaults_for_missing_fields num body :
  (segment_record (num, body) = None <->
   (length body < 50)%nat \/ (length (extract_question body) < 10)%nat
   \/ some_option_empty body)
  /\ forall r,
      segment_record (num, body) = Some r ->
      (has_correct_marker body = false -> correctAnswer r = codes "A")
      /\ (has_explanation_marker body = false ->
          explanation r = default_explanation (correctAnswer r)).
Proof.
  split; [apply segment_record_none|].
  intros r H. apply segment_record_fields in H.
  destruct H as (_ & _ & _ & _ & _ & _ & -> & ->). split.
  - intros Hc. unfold extract_correctAnswer.
    now rewrite (no_correct_marker body Hc).
  - intros He. unfold extract_explanation.
    now rewrite (no_explanation_marker body He).
Qed.

(** A segment with neither a "Correct Answer" line nor an "Explanation"
    line. *)
Definition bare_body : jsstring :=
  lines_of [" What is the capital city of France?";
            "A. Paris"; "B. London"; "C. Rome"; "D. Berlin"]%string.

Definition bare_record : MCQ :=
  {| id := Num 9;
     question := codes "What is the capital city of France?";
     optionA := codes "Paris"; optionB := codes "London";
     optionC := codes "Rome"; optionD := codes "Berlin";
     correctAnswer := codes "A";
     explanation := codes "The correct answer is A." |}.

Lemma C4_defaults_witness :
  correctAnswer bare_record = codes "A"
  /\ explanation bare_record = default_explanation (correctAnswer bare_record).
Proof.
  pose proof (proj2 (C4_defaults_for_missing_fields (codes "9") bare_body)
                bare_record) as H.
  destruct H as [H1 H2]; [now vm_compute|].
  split; [apply H1 | apply H2]; now vm_compute.
Defined.

End Answer.

(** * The options *)

Module Options.
Import RegexFacts Runs Captures CharFacts Boundary MCQParser MCQFacts Segmenter.
Local Open Scope N_scope.

(** ** The two option patterns, read directly *)

(** The first success of [g] over the states of a greedy run of
    [p]-characters: after the longest run first, then after shorter
    ones. *)
Fixpoint greedy_capture (X : Type) (p : N -> bool) (g : jsstring -> option X)
    (l : jsstring) : option X :=
  match l with
  | c :: tl =>
      if p c
      then match greedy_capture p g tl with
           | Some x => Some x
           | None => g l
           end
      else g l
  | [] => g l
  end.

(** The first success of [g] over the tails of [l], leftmost first. *)
Fixpoint first_tail (X : Type) (g : jsstring -> option X) (l : jsstring)
  : option X :=
  match g l with
  | Some x => Some x
  | None =>
      match l with
      | [] => None
      | _ :: tl => first_tail g tl
      end
  end.

(** What [\s*(one+?)(?=look)] captures at [after]: white space is skipped
    as far as a capture remains possible, and the capture is the shortest
    non-empty run of [p]-characters that a [b]-boundary follows. *)
Definition skip_then_capture (p : N -> bool) (b : jsstring -> bool)
    (after : jsstring) : option jsstring :=
  greedy_capture Char.is_space
    (fun w => option_map fst (lazy_capture p b w)) after.

(** The capture of an option pattern matched at the head of [l]. *)
Definition option_capture_at (p : N -> bool) (b : jsstring -> bool)
    (letter l : jsstring) : option jsstring :=
  match strip_prefix true (letter ++ codes ".") l with
  | Some after => skip_then_capture p b after
  | None => None
  end.

(** The capture of the leftmost match of an option pattern in [content]. *)
Definition option_capture (p : N -> bool) (b : jsstring -> bool)
    (letter content : jsstring) : option jsstring :=
  first_tail (option_capture_at p b letter) content.

Definition at_line_feed (l : jsstring) : bool :=
  match l with c :: _ => N.eqb c LF | [] => false end.

Definition not_line_terminator (c : N) : bool :=
  negb (Char.is_line_terminator c).

Lemma matches_str_str ci a b r s :
  matches ci (Seq (Str a) (Seq (Str b) r)) s
  = matches ci (Seq (Str (a ++ b)) r) s.
Proof.
  rewrite !matches_seq, !matches_str, eat_str_app, flat_map_assoc.
  apply flat_map_ext. intros x. now rewrite matches_seq, matches_str.
Qed.

Section Pattern.

Variable p : N -> bool.
Variable b : jsstring -> bool.
Variable look : regex.
Hypothesis look_spec : forall pv l cs,
  matches true look (MState pv l cs) = if b l then [MState pv l cs] else [].
Variable one : regex.
Hypothesis one_spec : forall s, matches true one s = eat p s.
Variable letter : jsstring.

Definition option_re : regex :=
  seqs [Str letter; chr "."; Star true Space; Group 1 (Plus false one); look].

Definition cap1 (s : mstate) : option jsstring := get_cap 1 (caps s).

Lemma run_capture : forall l pv cs,
  option_map cap1
    (first_some
       (fun s => hd_error (matches true (Seq (Group 1 (Plus false one)) look) s))
       (greedy_run Char.is_space pv l cs))
  = option_map Some
      (greedy_capture Char.is_space
         (fun w => option_map fst (lazy_capture p b w)) l).
Proof.
  assert (Hone : forall pv l cs,
    option_map cap1
      (hd_error (matches true (Seq (Group 1 (Plus false one)) look)
                   (MState pv l cs)))
    = option_map Some (option_map fst (lazy_capture p b l))).
  { intros pv l cs.
    rewrite (hd_capture_lazy true 1%nat p b look look_spec one one_spec).
    destruct (lazy_capture p b l) as [[u v]|]; reflexivity. }
  induction l as [|c tl IH]; intros pv cs.
  - cbn [greedy_run first_some greedy_capture].
    specialize (Hone pv [] cs).
    destruct (hd_error _); simpl in *; exact Hone.
  - cbn [greedy_run greedy_capture]. destruct (Char.is_space c).
    + rewrite first_some_app. specialize (IH (Some c) cs).
      destruct (first_some _ (greedy_run Char.is_space (Some c) tl cs)).
      * simpl in IH. destruct (greedy_capture _ _ tl); simpl in *; congruence.
      * simpl in IH. destruct (greedy_capture _ _ tl); [discriminate|].
        cbn [first_some]. specialize (Hone pv (c :: tl) cs).
        destruct (hd_error _); simpl in *; exact Hone.
    + cbn [first_some]. specialize (Hone pv (c :: tl) cs).
      destruct (hd_error _); simpl in *; exact Hone.
Qed.

Lemma exec_at_option pv l :
  option_map (group 1) (exec_at true option_re pv l)
  = option_map Some (option_capture_at p b letter l).
Proof.
  rewrite exec_at_hd. unfold option_re, option_capture_at. cbn [seqs].
  unfold chr.
  rewrite matches_str_str, matches_seq, matches_str, eat_str_eq.
  destruct (strip_prefix true (letter ++ codes ".") l) as [after|];
    [|reflexivity].
  cbn [flat_map]. rewrite app_nil_r.
  rewrite matches_seq.
  rewrite (matches_star_one true Char.is_space Space (Space_spec true)).
  rewrite hd_flat_map.
  pose proof (run_capture after
                (last_opt pv (firstn (length (letter ++ codes ".")) l)) [])
    as H.
  unfold skip_then_capture.
  destruct (first_some _ _) as [s|]; simpl in *.
  - destruct (greedy_capture _ _ after); simpl in *; [|discriminate].
    unfold group, cap1 in *. simpl. congruence.
  - destruct (greedy_capture _ _ after); simpl in *; [discriminate|reflexivity].
Qed.

End Pattern.

Lemma group_shift n c m : group n (shift c m) = group n m.
Proof. reflexivity. Qed.

Lemma search_first_tail ci r (G : jsstring -> option jsstring) :
  (forall pv l,
      option_map (group 1) (exec_at ci r pv l) = option_map Some (G l)) ->
  forall l pv,
    option_map (group 1) (search ci r pv l) = option_map Some (first_tail G l).
Proof.
  intros HG. induction l as [|c tl IH]; intros pv; cbn [search first_tail];
    specialize (HG pv).
  - specialize (HG []). destruct (exec_at ci r pv []), (G []);
      simpl in *; congruence.
  - specialize (HG (c :: tl)).
    destruct (exec_at ci r pv (c :: tl)), (G (c :: tl));
      simpl in *; try congruence.
    specialize (IH (Some c)).
    destruct (search ci r (Some c) tl); simpl in *; exact IH.
Qed.

Lemma greedy_capture_some (X : Type) p (g : jsstring -> option X) : forall l x,
  greedy_capture p g l = Some x -> exists w, g w = Some x.
Proof.
  induction l as [|c tl IH]; simpl; intros x H; [eauto|].
  destruct (p c); [|eauto].
  destruct (greedy_capture p g tl) eqn:E; [|eauto].
  injection H as <-. eauto.
Qed.

Lemma first_tail_some (X : Type) (g : jsstring -> option X) : forall l x,
  first_tail g l = Some x -> exists w, g w = Some x.
Proof.
  induction l as [|c tl IH]; simpl; intros x H.
  - destruct (g []) eqn:E; [|easy]. injection H as <-. eauto.
  - destruct (g (c :: tl)) eqn:E; [injection H as <-; eauto|eauto].
Qed.

Lemma option_capture_nonempty p b letter content u :
  option_capture p b letter content = Some u -> u <> [].
Proof.
  intros H. apply first_tail_some in H. destruct H as (w & H).
  unfold option_capture_at in H.
  destruct (strip_prefix true (letter ++ codes ".") w) as [after|]; [|easy].
  apply greedy_capture_some in H. destruct H as (w' & H).
  destruct (lazy_capture p b w') as [[u' v']|] eqn:E; [|easy].
  injection H as <-. now apply Stem.lazy_capture_split in E.
Qed.

(** One round of the loop over [patterns]. *)
Lemma try_patterns_step p b letter r content tl :
  (forall pv l,
      option_map (group 1) (exec_at true r pv l)
      = option_map Some (option_capture_at p b letter l)) ->
  try_patterns content (r :: tl)
  = match option_capture p b letter content with
    | Some u => Some (trim u)
    | None => try_patterns content tl
    end.
Proof.
  intros Hr. cbn [try_patterns]. unfold js_match.
  pose proof (search_first_tail true r (option_capture_at p b letter) Hr
                content None) as H.
  fold (option_capture p b letter content) in H.
  destruct (search true r None content) as [m|]; simpl in H.
  - destruct (option_capture p b letter content) as [u|] eqn:E; [|easy].
    injection H as ->. apply option_capture_nonempty in E.
    destruct u; [easy|reflexivity].
  - destruct (option_capture p b letter content); [easy|reflexivity].
Qed.

Lemma line_feed_look pv l cs :
  matches true (Look true (Str [LF])) (MState pv l cs)
  = if at_line_feed l then [MState pv l cs] else [].
Proof.
  rewrite matches_look by reflexivity. rewrite matches_str, eat_str_eq.
  unfold at_line_feed. destruct l as [|c l]; [reflexivity|].
  cbn [strip_prefix]. rewrite (chr_eq_plain true LF c eq_refl).
  destruct (N.eqb c LF); reflexivity.
Qed.

Definition starts_with_letter (t : jsstring) : Prop :=
  match t with c :: _ => is_letter c = true | [] => False end.

Lemma try_patterns_spec content letter nextLetter :
  starts_with_letter nextLetter ->
  try_patterns content [option_re1 letter nextLetter; option_re2 letter]
  = match option_capture (fun _ => true)
            (line_boundary (nextLetter ++ codes ".")) letter content with
    | Some u => Some (trim u)
    | None =>
        match option_capture not_line_terminator at_line_feed letter content with
        | Some u => Some (trim u)
        | None => None
        end
    end.
Proof.
  intros HN. destruct nextLetter as [|c0 t0]; [easy|]. simpl in HN.
  rewrite (@try_patterns_step (fun _ => true)
             (line_boundary ((c0 :: t0) ++ codes ".")) letter).
  - destruct (option_capture _ _ letter content); [reflexivity|].
    rewrite (@try_patterns_step not_line_terminator at_line_feed letter).
    + now destruct (option_capture _ _ letter content).
    + intros pv l.
      apply (exec_at_option not_line_terminator at_line_feed
               (Look true (Str [LF])) line_feed_look Dot (Dot_spec true)).
  - intros pv l.
    apply (exec_at_option (fun _ => true)
             (line_boundary ((c0 :: t0) ++ codes "."))
             (Look true (seqs [Str [LF]; Star true Space; Str (c0 :: t0);
                               chr "."]))).
    + intros pv' l' cs'.
      apply (@boundary_look2 (c0 :: t0) (codes ".") c0 (t0 ++ codes "."));
        [reflexivity|exact HN].
    + apply AnyChar_spec.
Qed.

(** ** The line scan *)

(** The first line whose trimmed form starts with the letter and a dot. *)
Fixpoint first_option_line (letter : jsstring) (lines : list jsstring)
  : option jsstring :=
  match lines with
  | [] => None
  | line :: tl =>
      if starts_with true (letter ++ codes ".") (trim line) then Some line
      else first_option_line letter tl
  end.

Lemma matches_str2 ci a b s :
  matches ci (Seq (Str a) (Str b)) s = eat_str ci (a ++ b) s.
Proof. rewrite eat_str_app. reflexivity. Qed.

Lemma line_start_match letter l :
  js_match true (line_start_re letter) l = None
  <-> starts_with true (letter ++ codes ".") l = false.
Proof.
  unfold js_match, line_start_re. cbn [seqs]. unfold chr.
  rewrite search_bol. unfold exec_at. rewrite matches_bol.
  rewrite matches_str2, eat_str_eq.
  unfold starts_with.
  destruct (strip_prefix true (letter ++ codes ".") l); simpl; split; congruence.
Qed.

Lemma drop_while_idem p l : drop_while p (drop_while p l) = drop_while p l.
Proof.
  induction l as [|c l IH]; simpl; [reflexivity|].
  destruct (p c) eqn:E; [exact IH|]. simpl. now rewrite E.
Qed.

Lemma trim_drop_space l : trim (drop_space l) = trim l.
Proof. unfold trim, drop_space. now rewrite drop_while_idem. Qed.

Lemma line_prefix_removed letter line after :
  strip_prefix true (letter ++ codes ".") line = Some after ->
  trim (js_remove_first true (line_prefix_re letter) line) = trim after.
Proof.
  intros H. unfold js_remove_first, line_prefix_re. cbn [seqs]. unfold chr.
  rewrite search_bol, exec_at_hd, matches_bol.
  rewrite matches_str_str, matches_seq, matches_str, eat_str_eq, H.
  cbn [flat_map]. rewrite app_nil_r.
  rewrite (matches_star_one true Char.is_space Space (Space_spec true)).
  destruct (greedy_run_shape Char.is_space after
              (last_opt None (firstn (length (letter ++ codes ".")) line)) [])
    as (others & -> & _).
  cbn. apply trim_drop_space.
Qed.

Lemma scan_lines_spec letter : forall lines,
  match first_option_line letter lines with
  | Some line =>
      exists v, scan_lines letter lines = Some v
                /\ forall after,
                     strip_prefix true (letter ++ codes ".") line = Some after ->
                     v = trim after
  | None => scan_lines letter lines = None
  end.
Proof.
  induction lines as [|line tl IH]; cbn [first_option_line scan_lines];
    [reflexivity|].
  destruct (starts_with true (letter ++ codes ".") (trim line)) eqn:E.
  - destruct (js_match true (line_start_re letter) (trim line)) eqn:M.
    + eexists. split; [reflexivity|]. intros after Ha.
      now apply line_prefix_removed.
    + apply line_start_match in M. congruence.
  - apply line_start_match in E. rewrite E. exact IH.
Qed.

(** ** The three attempts *)

(** [v] is the value the three attempts determine, first success first:
    the capture of the pattern that runs to the next line starting with
    the following letter; else the capture of the one-line pattern; else
    what is left of the first line that, trimmed, starts with the letter
    and a dot (stated for a line that itself starts with them); else the
    empty string. *)
Definition option_value (content letter nextLetter v : jsstring) : Prop :=
  match option_capture (fun _ => true)
          (line_boundary (nextLetter ++ codes ".")) letter content with
  | Some u => v = trim u
  | None =>
      match option_capture not_line_terminator at_line_feed letter content with
      | Some u => v = trim u
      | None =>
          match first_option_line letter (split_on LF content) with
          | Some line =>
              forall after,
                strip_prefix true (letter ++ codes ".") line = Some after ->
                v = trim after
          | None => v = []
          end
      end
  end.

Lemma extractOption_spec content letter nextLetter :
  starts_with_letter nextLetter ->
  option_value content letter nextLetter
    (extractOption content letter nextLetter).
Proof.
  intros HN. unfold option_value, extractOption.
  rewrite (@try_patterns_spec content letter nextLetter HN).
  destruct (option_capture _ _ letter content); [reflexivity|].
  destruct (option_capture _ _ letter content); [reflexivity|].
  pose proof (scan_lines_spec letter (split_on LF content)) as H.
  destruct (first_option_line letter (split_on LF content)).
  - destruct H as (v & -> & Hv). exact Hv.
  - now rewrite H.
Qed.

(** C7 (amended).  The option value is what three attempts determine,
    the first success winning.  (1) At the leftmost "L." in either case
    where it succeeds: white space after "L." is skipped, as much of it as
    still leaves a text to capture, and the shortest non-empty text that
    is followed by a line feed, optional white space and "N." is taken.
    (2) The same with a text that stays on one line and is followed by a
    line feed.  (3) The first line whose trimmed form starts with "L.":
    for a line that itself starts with "L.", the rest of the line.  The
    text taken is trimmed; when no attempt succeeds the value is empty. *)
Theorem C7_option_by_three_attempts content letter nextLetter :
  starts_with_letter nextLetter ->
  option_value content letter nextLetter
    (extractOption content letter nextLetter).
Proof. apply extractOption_spec. Qed.

Definition vitamin_options : jsstring :=
  lines_of ["A. Vitamin B. complex"; "B. other"; ""]%string.

Lemma C7_option_witness :
  option_value vitamin_options (codes "A") (codes "B")
    (extractOption vitamin_options (codes "A") (codes "B")).
Proof.
  apply (@C7_option_by_three_attempts vitamin_options (codes "A") (codes "B")).
  reflexivity.
Defined.

(** The claim as first written: (1) the text after "L." up to the next
    "N.", wherever it stands; (2) the text after "L." up to the end of
    the line; (3) the first line that, trimmed, starts with "L.", without
    that prefix. *)
Fixpoint text_before (t l : jsstring) : option jsstring :=
  if starts_with true t l then Some []
  else match l with
       | [] => None
       | c :: tl =>
           match text_before t tl with
           | Some u => Some (c :: u)
           | None => None
           end
       end.

Definition text_after (t l : jsstring) : option jsstring :=
  first_tail (strip_prefix true t) l.

Definition claimed_attempt1 (content letter nextLetter : jsstring)
  : option jsstring :=
  match text_after (letter ++ codes ".") content with
  | Some after => text_before (nextLetter ++ codes ".") after
  | None => None
  end.

Definition claimed_attempt2 (content letter : jsstring) : option jsstring :=
  match text_after (letter ++ codes ".") content with
  | Some after => Some (take_while (fun c => negb (N.eqb c LF)) after)
  | None => None
  end.

Definition claimed_attempt3 (content letter : jsstring) : option jsstring :=
  match first_option_line letter (split_on LF content) with
  | Some line => strip_prefix true (letter ++ codes ".") (trim line)
  | None => None
  end.

Definition claimed_option (content letter nextLetter : jsstring) : jsstring :=
  match claimed_attempt1 content letter nextLetter with
  | Some v => trim v
  | None =>
      match claimed_attempt2 content letter with
      | Some v => trim v
      | None =>
          match claimed_attempt3 content letter with
          | Some v => trim v
          | None => []
          end
      end
  end.

(** On [A. Vitamin B. complex] the code runs on to the next line that
    starts with [B.]; the claim stops at the first [B.]. *)
Lemma C7_option_counterexample :
  extractOption vitamin_options (codes "A") (codes "B")
  = codes "Vitamin B. complex"
  /\ claimed_option vitamin_options (codes "A") (codes "B") = codes "Vitamin"
  /\ extractOption vitamin_options (codes "A") (codes "B")
     <> claimed_option vitamin_options (codes "A") (codes "B").
Proof.
  split; [now vm_compute|]. split; [now vm_compute|].
  vm_compute. discriminate.
Qed.

(** On a last line that is indented, the line scan tests the trimmed line
    but removes the prefix from the line as it stands, so the prefix
    stays. *)
Definition indented_last_option : jsstring :=
  lines_of [" Which city is the capital of France?"; "A. Paris";
            "B. London"; "C. Rome"; "  D. Berlin"]%string.

Lemma indented_last_line_keeps_prefix :
  extractOption indented_last_option (codes "D") (codes "Correct")
  = codes "D. Berlin".
Proof. now vm_compute. Qed.

End Options.

(** * One instance of the documented template *)

Module Template.
Import RegexFacts Runs Captures CharFacts Boundary MCQParser MCQFacts
       Segmenter Stem Answer Options.
Local Open Scope N_scope.
Unset Implicit Arguments.

(** ** Finding an option that is there *)

Lemma greedy_first (X : Type) p (g : jsstring -> option X) : forall l x,
  g (drop_while p l) = Some x -> greedy_capture p g l = Some x.
Proof.
  induction l as [|c tl IH]; simpl; intros x H; [exact H|].
  destruct (p c); [|exact H]. now rewrite (IH _ H).
Qed.

Lemma drop_while_app_keep p a c rest :
  p c = false -> exists a', drop_while p (a ++ c :: rest) = a' ++ c :: rest.
Proof.
  intros Hc. induction a as [|d a IH]; simpl.
  - rewrite Hc. now exists [].
  - destruct (p d); [exact IH|]. now exists (d :: a).
Qed.

Lemma drop_while_app_nonnil p v w :
  drop_while p v <> [] -> drop_while p (v ++ w) = drop_while p v ++ w.
Proof.
  induction v as [|c v IH]; simpl; [easy|].
  destruct (p c); [exact IH|reflexivity].
Qed.

Lemma drop_while_head p l c tl :
  drop_while p l = c :: tl -> p c = false.
Proof.
  intros H. pose proof (drop_while_stops p l) as S. now rewrite H in S.
Qed.

Lemma lazy_capture0_any_some b w : b w = true ->
  forall t, exists u v, lazy_capture0 (fun _ => true) b (t ++ w) = Some (u, v).
Proof.
  intros Hw. induction t as [|c t IH]; simpl.
  - destruct w; simpl; rewrite Hw; eauto.
  - destruct (b (c :: t ++ w)); [eauto|].
    destruct IH as (u & v & ->). eauto.
Qed.

Lemma lazy_capture_any_some b w c t : b w = true ->
  exists u v, lazy_capture (fun _ => true) b ((c :: t) ++ w) = Some (c :: u, v).
Proof.
  intros Hw. simpl. destruct (lazy_capture0_any_some b w Hw t) as (u & v & ->).
  eauto.
Qed.

Lemma drop_while_last p l c : p c = false -> drop_while p (l ++ [c]) <> [].
Proof.
  intros Hc. induction l as [|d l IH]; simpl.
  - now rewrite Hc.
  - now destruct (p d).
Qed.

Lemma trim_nonblank c u : Char.is_space c = false -> trim (c :: u) <> [].
Proof.
  intros Hc. unfold trim, drop_space. cbn [drop_while]. rewrite Hc.
  cbn [rev]. intros H. apply (f_equal (@rev N)) in H.
  rewrite rev_involutive in H. cbn [rev] in H.
  exact (drop_while_last Char.is_space (rev u) c Hc H).
Qed.

Lemma first_tail_good (X : Type) (Good : X -> Prop) (G : jsstring -> option X) y :
  (exists u, G y = Some u) ->
  forall x,
    (forall x1 x2 u, x = x1 ++ x2 -> G (x2 ++ y) = Some u -> Good u) ->
    exists u, first_tail G (x ++ y) = Some u /\ Good u.
Proof.
  intros (u0 & Hy). induction x as [|c x IH]; intros Hgood.
  - simpl. exists u0. split.
    + destruct y; simpl; now rewrite Hy.
    + apply (Hgood [] [] u0); [reflexivity|exact Hy].
  - cbn [app first_tail]. destruct (G (c :: x ++ y)) as [u|] eqn:E.
    + exists u. split; [reflexivity|].
      apply (Hgood [] (c :: x) u); [reflexivity|exact E].
    + apply IH. intros x1 x2 u Hx HG.
      apply (Hgood (c :: x1) x2 u); [now rewrite Hx|exact HG].
Qed.

Lemma letter_not_dot L : is_letter L = true -> chr_eq true L 46 = false.
Proof.
  intros H. unfold chr_eq, canon. apply N.eqb_neq.
  pose proof (letter_upper L H). change (Char.upper 46) with 46. lia.
Qed.

Lemma letter_match_not_space L l0 :
  is_letter L = true -> chr_eq true L l0 = true -> Char.is_space l0 = false.
Proof.
  intros HL H. destruct (Char.is_space l0) eqn:E; [|reflexivity].
  now rewrite (letter_not_space L l0 HL E) in H.
Qed.

(** What is left after the letter and the dot at a tail [x2 ++ y] of the
    body, [y] being the option line itself. *)
Lemma after_letter L l0 x2 rest after :
  is_letter L = true -> chr_eq true L l0 = true ->
  strip_prefix true ([L] ++ codes ".") (x2 ++ l0 :: 46 :: rest) = Some after ->
  after = rest \/ exists a, after = a ++ l0 :: 46 :: rest.
Proof.
  intros HL Hl. change ([L] ++ codes ".") with [L; 46].
  destruct x2 as [|c1 [|c2 a]]; cbn [app strip_prefix].
  - rewrite Hl. rewrite (chr_eq_plain true 46 46 eq_refl). simpl.
    intros [= <-]. now left.
  - destruct (chr_eq true L c1); [|easy].
    rewrite (chr_eq_plain true 46 l0 eq_refl).
    destruct (N.eqb_spec l0 46) as [->|]; [|easy].
    now rewrite (letter_not_dot L HL) in Hl.
  - destruct (chr_eq true L c1); [|easy].
    destruct (chr_eq true 46 c2); [|easy].
    intros [= <-]. right. now exists a.
Qed.

Definition non_blank (v : jsstring) : Prop := drop_space v <> [].

(** If, wherever the letter and the dot are read at or before the option
    line, the text after the white space that follows them can be
    captured, then the pattern captures a text that is not blank. *)
Lemma option_capture_found p b L l0 x rest :
  is_letter L = true -> chr_eq true L l0 = true ->
  (forall x1 after,
      x ++ l0 :: 46 :: rest = x1 ++ after ->
      after = rest \/ (exists a, after = a ++ l0 :: 46 :: rest) ->
      exists c u v,
        lazy_capture p b (drop_space after) = Some (c :: u, v)
        /\ Char.is_space c = false) ->
  exists u, option_capture p b [L] (x ++ l0 :: 46 :: rest) = Some u
            /\ trim u <> [].
Proof.
  intros HL Hl Hcap.
  assert (Hat : forall x1 x2,
             x = x1 ++ x2 ->
             match strip_prefix true ([L] ++ codes ".")
                     (x2 ++ l0 :: 46 :: rest) with
             | Some after =>
                 exists u, skip_then_capture p b after = Some u
                           /\ trim u <> []
             | None => True
             end).
  { intros x1 x2 Hx.
    destruct (strip_prefix true ([L] ++ codes ".") (x2 ++ l0 :: 46 :: rest))
      as [after|] eqn:E; [|exact I].
    pose proof (strip_prefix_split _ _ _ E) as Hsplit.
    destruct (Hcap (x1 ++ firstn (length ([L] ++ codes "."))
                            (x2 ++ l0 :: 46 :: rest)) after)
      as (c & u & v & Hc & Hsp).
    - rewrite Hx, <- !app_assoc. f_equal. exact Hsplit.
    - exact (after_letter L l0 x2 rest after HL Hl E).
    - exists (c :: u). split; [|now apply trim_nonblank].
      unfold skip_then_capture.
      apply (@greedy_first jsstring Char.is_space
               (fun w0 => option_map fst (lazy_capture p b w0))).
      fold (drop_space after). now rewrite Hc. }
  apply (@first_tail_good jsstring (fun u => trim u <> [])
           (option_capture_at p b [L]) (l0 :: 46 :: rest)).
  - specialize (Hat x [] (eq_sym (app_nil_r x))).
    change ([] ++ l0 :: 46 :: rest) with (l0 :: 46 :: rest) in Hat.
    unfold option_capture_at.
    destruct (strip_prefix true ([L] ++ codes ".") (l0 :: 46 :: rest)) eqn:E.
    + destruct Hat as (u & -> & _). eauto.
    + exfalso. change ([L] ++ codes ".") with [L; 46] in E.
      cbn [strip_prefix] in E. rewrite Hl in E.
      now rewrite (chr_eq_plain true 46 46 eq_refl) in E.
  - intros x1 x2 u Hx HG. specialize (Hat x1 x2 Hx).
    unfold option_capture_at in HG.
    destruct (strip_prefix true ([L] ++ codes ".") (x2 ++ l0 :: 46 :: rest));
      [|easy].
    destruct Hat as (u' & Hu' & Hgood). congruence.
Qed.

(** The white space after the letter and the dot ends before the text
    of the option or, further left, before the letter itself. *)
Lemma drop_space_after L l0 a v w after :
  is_letter L = true -> chr_eq true L l0 = true -> non_blank v ->
  after = v ++ w \/ after = a ++ l0 :: 46 :: v ++ w ->
  exists c t, drop_space after = (c :: t) ++ w /\ Char.is_space c = false.
Proof.
  intros HL Hl Hv [->| ->].
  - unfold drop_space. rewrite (drop_while_app_nonnil _ v w Hv).
    destruct (drop_while Char.is_space v) as [|c t] eqn:Ev; [easy|].
    exists c, t. split; [reflexivity|].
    now apply (drop_while_head Char.is_space v c t Ev).
  - destruct (drop_while_app_keep Char.is_space a l0 (46 :: v ++ w)
                (letter_match_not_space L l0 HL Hl)) as (a' & Ha).
    unfold drop_space. rewrite Ha. destruct a' as [|c a2].
    + exists l0, (46 :: v). split; [reflexivity|].
      now apply (letter_match_not_space L l0 HL Hl).
    + exists c, (a2 ++ l0 :: 46 :: v). split.
      * cbn [app]. now rewrite <- !app_assoc.
      * apply (@drop_while_head Char.is_space (a ++ l0 :: 46 :: v ++ w)
                 c (a2 ++ l0 :: 46 :: v ++ w)).
        exact Ha.
Qed.

(** An option whose line is there, with text on it, and is followed by
    the line of the next letter is found by the first pattern, and its
    value is not empty. *)
Lemma option_found_multiline L nxt x l0 v w :
  is_letter L = true -> chr_eq true L l0 = true ->
  non_blank v -> starts_with_letter nxt ->
  line_boundary (nxt ++ codes ".") w = true ->
  extractOption (x ++ l0 :: 46 :: v ++ w) [L] nxt <> [].
Proof.
  intros HL Hl Hv HN Hw.
  pose proof (@extractOption_spec (x ++ l0 :: 46 :: v ++ w) [L] nxt HN) as Hspec.
  unfold option_value in Hspec.
  destruct (option_capture_found (fun _ => true)
              (line_boundary (nxt ++ codes ".")) L l0 x (v ++ w) HL Hl)
    as (u & Hu & Hgood).
  - intros x1 after _ Hafter.
    assert (Hd : exists c t, drop_space after = (c :: t) ++ w
                             /\ Char.is_space c = false).
    { destruct Hafter as [->|(a & ->)].
      - apply (drop_space_after L l0 [] v w _ HL Hl Hv). now left.
      - apply (drop_space_after L l0 a v w _ HL Hl Hv). now right. }
    destruct Hd as (c & t & -> & Hc).
    destruct (lazy_capture_any_some (line_boundary (nxt ++ codes ".")) w c t Hw)
      as (u' & v' & ->).
    now exists c, u', v'.
  - rewrite Hu in Hspec. now rewrite Hspec.
Qed.

(** ** An option found on its own line *)

Definition line_feeds_only (l : jsstring) : bool :=
  forallb (fun c => not_line_terminator c || N.eqb c LF) l.

Lemma lazy_capture0_line : forall t,
  line_feeds_only t = true -> existsb (fun c => N.eqb c LF) t = true ->
  exists u v, lazy_capture0 not_line_terminator at_line_feed t = Some (u, v).
Proof.
  induction t as [|c t IH]; simpl; [easy|].
  intros Hq He. destruct (N.eqb c LF) eqn:E; [eauto|].
  apply andb_prop in Hq. destruct Hq as [Hc Hq]. simpl in He.
  rewrite orb_false_r in Hc. rewrite Hc.
  destruct (IH Hq He) as (u & v & ->). eauto.
Qed.

Lemma line_terminator_is_space c :
  Char.is_line_terminator c = true -> Char.is_space c = true.
Proof. intros H. unfold Char.is_space. now rewrite H, orb_true_r. Qed.

Lemma lazy_capture_line c t :
  Char.is_space c = false ->
  line_feeds_only (c :: t) = true ->
  existsb (fun d => N.eqb d LF) (c :: t) = true ->
  exists u v,
    lazy_capture not_line_terminator at_line_feed (c :: t) = Some (c :: u, v).
Proof.
  intros Hc Hq He. cbn [lazy_capture].
  assert (Hlt : not_line_terminator c = true).
  { unfold not_line_terminator.
    destruct (Char.is_line_terminator c) eqn:E; [|reflexivity].
    apply line_terminator_is_space in E. congruence. }
  rewrite Hlt. simpl in Hq, He. apply andb_prop in Hq. destruct Hq as [_ Hq].
  assert (Hne : N.eqb c LF = false).
  { destruct (N.eqb_spec c LF) as [->|]; [|reflexivity].
    now vm_compute in Hc. }
  rewrite Hne in He. simpl in He.
  destruct (lazy_capture0_line t Hq He) as (u & v & ->). eauto.
Qed.

Lemma forallb_drop_while (q p : N -> bool) l :
  forallb q l = true -> forallb q (drop_while p l) = true.
Proof.
  induction l as [|c l IH]; simpl; [easy|]. intros H.
  apply andb_prop in H. destruct H as [H1 H2].
  destruct (p c); [auto|]. simpl. now rewrite H1, H2.
Qed.

Lemma forallb_tail (q : N -> bool) x l :
  forallb q (x ++ l) = true -> forallb q l = true.
Proof. rewrite forallb_app. intros H. apply andb_prop in H. tauto. Qed.

(** ** No boundary, no capture *)

Lemma exists_tail_false P : forall l,
  exists_tail P l = false <-> forall x z, l = x ++ z -> P z = false.
Proof.
  induction l as [|c l IH]; simpl.
  - rewrite orb_false_r. split.
    + intros H x z E. symmetry in E. apply app_eq_nil in E.
      destruct E as [_ ->]. exact H.
    + intros H. now apply (H [] []).
  - split.
    + intros H x z E. apply orb_false_elim in H. destruct H as [H1 H2].
      destruct x as [|d x]; simpl in E.
      * now subst z.
      * injection E as <- ->. now apply (proj1 IH H2 x z).
    + intros H. rewrite (H [] (c :: l) eq_refl). simpl.
      apply IH. intros x z ->. now apply (H (c :: x) z).
Qed.

Lemma lazy_capture0_no_boundary p b : forall l,
  (forall x z, l = x ++ z -> b z = false) -> lazy_capture0 p b l = None.
Proof.
  induction l as [|c l IH]; intros H; simpl.
  - now rewrite (H [] [] eq_refl).
  - rewrite (H [] (c :: l) eq_refl). destruct (p c); [|reflexivity].
    rewrite IH; [reflexivity|]. intros x z ->. now apply (H (c :: x) z).
Qed.

Lemma lazy_capture_no_boundary p b l :
  (forall x z, l = x ++ z -> b z = false) -> lazy_capture p b l = None.
Proof.
  intros H. destruct l as [|c l]; [reflexivity|]. simpl.
  destruct (p c); [|reflexivity].
  rewrite lazy_capture0_no_boundary; [reflexivity|].
  intros x z ->. now apply (H (c :: x) z).
Qed.

Lemma greedy_capture_none (X : Type) p (g : jsstring -> option X) : forall l,
  (forall x z, l = x ++ z -> g z = None) -> greedy_capture p g l = None.
Proof.
  induction l as [|c l IH]; intros H; simpl.
  - now apply (H [] []).
  - rewrite (H [] (c :: l) eq_refl). rewrite IH.
    + now destruct (p c).
    + intros x z ->. now apply (H (c :: x) z).
Qed.

Lemma first_tail_none (X : Type) (g : jsstring -> option X) : forall l,
  (forall x z, l = x ++ z -> g z = None) -> first_tail g l = None.
Proof.
  induction l as [|c l IH]; intros H; simpl.
  - now rewrite (H [] [] eq_refl).
  - rewrite (H [] (c :: l) eq_refl). apply IH.
    intros x z ->. now apply (H (c :: x) z).
Qed.

Lemma option_capture_no_boundary p b letter content :
  exists_tail b content = false -> option_capture p b letter content = None.
Proof.
  intros H. pose proof (proj1 (exists_tail_false b content) H) as Hb.
  apply first_tail_none. intros x z ->. unfold option_capture_at.
  destruct (strip_prefix true (letter ++ codes ".") z) as [after|] eqn:E;
    [|reflexivity].
  apply strip_prefix_split in E.
  apply greedy_capture_none. intros x' z' Ez.
  rewrite lazy_capture_no_boundary; [reflexivity|].
  intros x2 z2 E2. apply (Hb (x ++ firstn (length (letter ++ codes ".")) z
                                ++ x' ++ x2) z2).
  rewrite E at 1. rewrite Ez, E2. now rewrite <- !app_assoc.
Qed.

(** An option whose line is there, with text on it and a line feed after
    it, is found by the second pattern when no line of the body starts
    with the next letter; its value is not empty. *)
Lemma option_found_oneline L nxt x l0 v w :
  is_letter L = true -> chr_eq true L l0 = true ->
  non_blank v -> starts_with_letter nxt ->
  exists_tail (line_boundary (nxt ++ codes "."))
              (x ++ l0 :: 46 :: v ++ LF :: w) = false ->
  line_feeds_only (x ++ l0 :: 46 :: v ++ LF :: w) = true ->
  extractOption (x ++ l0 :: 46 :: v ++ LF :: w) [L] nxt <> [].
Proof.
  intros HL Hl Hv HN Hnb Hq.
  pose proof (@extractOption_spec (x ++ l0 :: 46 :: v ++ LF :: w) [L] nxt HN)
    as Hspec.
  unfold option_value in Hspec.
  rewrite (option_capture_no_boundary (fun _ => true) _ [L] _ Hnb) in Hspec.
  destruct (option_capture_found not_line_terminator at_line_feed L l0 x
              (v ++ LF :: w) HL Hl) as (u & Hu & Hgood).
  - intros x1 after Hbody Hafter.
    assert (Hd : exists c t, drop_space after = (c :: t) ++ LF :: w
                             /\ Char.is_space c = false).
    { destruct Hafter as [->|(a & ->)].
      - apply (drop_space_after L l0 [] v (LF :: w) _ HL Hl Hv). now left.
      - apply (drop_space_after L l0 a v (LF :: w) _ HL Hl Hv). now right. }
    destruct Hd as (c & t & Hd & Hc).
    assert (Hq' : line_feeds_only (drop_space after) = true).
    { unfold line_feeds_only, drop_space. apply forallb_drop_while.
      unfold line_feeds_only in Hq. rewrite Hbody in Hq.
      exact (forallb_tail _ x1 after Hq). }
    rewrite Hd in Hq' |- *. cbn [app] in Hq' |- *.
    destruct (lazy_capture_line c (t ++ LF :: w) Hc Hq') as (u' & v' & ->);
      [|now exists c, u', v'].
    cbn [existsb]. rewrite existsb_app. cbn [existsb].
    rewrite N.eqb_refl. now rewrite !orb_true_r.
  - rewrite Hu in Hspec. now rewrite Hspec.
Qed.

(** ** The documented template *)

(** One instance of the format the prompt asks for:
    [Question N: text], the four option lines, [Correct Answer: X],
    [Explanation: text]. *)
Record question_template : Type := {
  q_number : jsstring;
  q_text : jsstring;
  q_a : jsstring;
  q_b : jsstring;
  q_c : jsstring;
  q_d : jsstring;
  q_answer : N;
  q_explanation : jsstring
}.

Definition template_body (T : question_template) : jsstring :=
  codes " " ++ q_text T
  ++ LF :: codes "A. " ++ q_a T
  ++ LF :: codes "B. " ++ q_b T
  ++ LF :: codes "C. " ++ q_c T
  ++ LF :: codes "D. " ++ q_d T
  ++ LF :: codes "Correct Answer: " ++ q_answer T
  :: LF :: codes "Explanation: " ++ q_explanation T.

Definition template_text (T : question_template) : jsstring :=
  codes "Question " ++ q_number T ++ codes ":" ++ template_body T.

Definition single_line (l : jsstring) : bool := forallb not_line_terminator l.

Definition has_text (l : jsstring) : bool :=
  existsb (fun c => negb (Char.is_space c)) l.

(** The label is a run of digits, every field stays on its line, the
    options are not blank and the answer is a letter A-D. *)
Definition well_formed (T : question_template) : bool :=
  negb (is_empty (q_number T)) && forallb Char.is_digit (q_number T)
  && single_line (q_text T) && single_line (q_a T) && single_line (q_b T)
  && single_line (q_c T) && single_line (q_d T)
  && single_line (q_explanation T)
  && has_text (q_a T) && has_text (q_b T) && has_text (q_c T)
  && has_text (q_d T) && is_A_to_D (q_answer T).

Definition has_marker (l : jsstring) : bool :=
  exists_tail (fun z => match marker_at z with Some _ => true | None => false end) l.

(** What the claim promises for a template. *)
Definition one_record (T : question_template) : Prop :=
  exists r,
    parseMCQResponse (template_text T) = [r]
    /\ id r = Num (digits_value 0 (q_number T))
    /\ optionA r <> [] /\ optionB r <> [] /\ optionC r <> []
    /\ optionD r <> [].

Lemma template_body_nf T :
  template_body T
  = 32 :: q_text T
    ++ LF :: 65 :: 46 :: 32 :: q_a T
    ++ LF :: 66 :: 46 :: 32 :: q_b T
    ++ LF :: 67 :: 46 :: 32 :: q_c T
    ++ LF :: 68 :: 46 :: 32 :: q_d T
    ++ LF :: codes "Correct Answer: " ++ q_answer T
    :: LF :: codes "Explanation: " ++ q_explanation T.
Proof. reflexivity. Qed.

(** *** The segmenter finds the one segment *)

Lemma body_until_marker_none : forall l,
  has_marker l = false -> body_until_marker l = (l, []).
Proof.
  unfold has_marker. induction l as [|c l IH]; simpl; [reflexivity|].
  intros H. apply orb_false_elim in H. destruct H as [H1 H2].
  fold (marker_at (c :: l)) in H1.
  destruct (marker_at (c :: l)); [discriminate|].
  now rewrite (IH H2).
Qed.

Lemma same_word_refl t : same_word t t.
Proof.
  induction t as [|c t IH]; constructor; [|exact IH].
  unfold chr_eq. apply N.eqb_refl.
Qed.

Lemma drop_space_digits num :
  num <> [] -> forallb Char.is_digit num = true -> drop_space num = num.
Proof.
  destruct num as [|d num]; [easy|]. intros _ H. cbn [forallb] in H.
  apply andb_prop in H. destruct H as [H _].
  unfold drop_space. cbn [drop_while]. now rewrite (digit_not_space d H).
Qed.

Lemma template_marker T :
  q_number T <> [] -> forallb Char.is_digit (q_number T) = true ->
  marker_at (template_text T) = Some (q_number T, template_body T).
Proof.
  intros Hne Hd. apply marker_at_shape.
  exists (codes "Question" ++ [32] ++ q_number T ++ [] ++ [58]). split.
  - unfold template_text. rewrite <- !app_assoc. reflexivity.
  - exists (codes "Question"), [32], []. repeat split; try easy.
    apply same_word_refl.
Qed.

Lemma template_segments T :
  q_number T <> [] -> forallb Char.is_digit (q_number T) = true ->
  has_marker (template_body T) = false ->
  segments (template_text T) = [(q_number T, template_body T)].
Proof.
  intros Hne Hd Hm. rewrite segments_spec. unfold spec_segments.
  pose proof (template_marker T Hne Hd) as Hmk.
  assert (Hb : body_until_marker (template_text T) = ([], template_text T)).
  { unfold template_text in *. cbn [codes map String.list_ascii_of_string app
                                     body_until_marker].
    cbn [codes map String.list_ascii_of_string app] in Hmk.
    now rewrite Hmk. }
  rewrite Hb. cbn [snd].
  destruct (length (template_text T)) as [|n] eqn:El.
  - unfold template_text in El. simpl in El. discriminate.
  - cbn [marked_segments]. rewrite Hmk.
    rewrite (body_until_marker_none _ Hm).
    destruct n; reflexivity.
Qed.

(** *** The stem *)

Lemma single_line_no_feed l :
  single_line l = true -> forallb (fun c => negb (N.eqb c LF)) l = true.
Proof.
  apply forallb_impl. intros c. unfold not_line_terminator.
  destruct (N.eqb_spec c LF) as [->|]; [now vm_compute|reflexivity].
Qed.

Lemma line_boundary_plain t c l :
  N.eqb c LF = false -> line_boundary t (c :: l) = false.
Proof. intros H. unfold line_boundary. now rewrite H. Qed.

Lemma lazy_capture0_to_boundary t w :
  line_boundary t w = true ->
  forall u,
    forallb (fun c => negb (N.eqb c LF)) u = true ->
    lazy_capture0 (fun _ => true) (line_boundary t) (u ++ w) = Some (u, w).
Proof.
  intros Hw. induction u as [|c u IH]; intros Hu.
  - cbn [app]. destruct w; cbn [lazy_capture0]; now rewrite Hw.
  - simpl in Hu. apply andb_prop in Hu. destruct Hu as [Hc Hu].
    apply negb_true_iff in Hc.
    cbn [app lazy_capture0]. rewrite (line_boundary_plain t c _ Hc).
    now rewrite (IH Hu).
Qed.

Lemma template_stem T :
  single_line (q_text T) = true ->
  extract_question (template_body T) = trim (q_text T).
Proof.
  intros Hq. rewrite extract_question_spec, template_body_nf.
  unfold first_boundary. cbn [lazy_capture].
  match goal with
  | |- context [lazy_capture0 _ _ (q_text T ++ ?w)] =>
      rewrite (lazy_capture0_to_boundary (codes "A.") w eq_refl (q_text T)
                 (single_line_no_feed _ Hq))
  end.
  reflexivity.
Qed.

(** *** The options *)

Lemma has_text_non_blank l : has_text l = true -> non_blank (32 :: l).
Proof.
  unfold non_blank, drop_space, has_text. cbn [drop_while].
  change (Char.is_space 32) with true. cbv iota.
  induction l as [|c l IH]; simpl; [easy|].
  destruct (Char.is_space c); simpl; [exact IH|easy].
Qed.

Lemma letter_refl L : chr_eq true L L = true.
Proof. unfold chr_eq. apply N.eqb_refl. Qed.

Ltac reassoc :=
  repeat (progress (rewrite <- ?app_assoc; cbn [app])).

Lemma template_option_A T :
  has_text (q_a T) = true ->
  extractOption (template_body T) (codes "A") (codes "B") <> [].
Proof.
  intros H.
  replace (template_body T)
    with ((32 :: q_text T ++ [LF]) ++ 65 :: 46 :: (32 :: q_a T)
          ++ LF :: 66 :: 46 :: 32 :: q_b T
          ++ LF :: 67 :: 46 :: 32 :: q_c T
          ++ LF :: 68 :: 46 :: 32 :: q_d T
          ++ LF :: codes "Correct Answer: " ++ q_answer T
          :: LF :: codes "Explanation: " ++ q_explanation T)
    by (rewrite template_body_nf; reassoc; reflexivity).
  apply option_found_multiline; try reflexivity.
  now apply has_text_non_blank.
Qed.

Lemma template_option_B T :
  has_text (q_b T) = true ->
  extractOption (template_body T) (codes "B") (codes "C") <> [].
Proof.
  intros H.
  replace (template_body T)
    with ((32 :: q_text T ++ LF :: 65 :: 46 :: 32 :: q_a T ++ [LF])
          ++ 66 :: 46 :: (32 :: q_b T)
          ++ LF :: 67 :: 46 :: 32 :: q_c T
          ++ LF :: 68 :: 46 :: 32 :: q_d T
          ++ LF :: codes "Correct Answer: " ++ q_answer T
          :: LF :: codes "Explanation: " ++ q_explanation T)
    by (rewrite template_body_nf; reassoc; reflexivity).
  apply option_found_multiline; try reflexivity.
  now apply has_text_non_blank.
Qed.

Lemma template_option_C T :
  has_text (q_c T) = true ->
  extractOption (template_body T) (codes "C") (codes "D") <> [].
Proof.
  intros H.
  replace (template_body T)
    with ((32 :: q_text T ++ LF :: 65 :: 46 :: 32 :: q_a T
           ++ LF :: 66 :: 46 :: 32 :: q_b T ++ [LF])
          ++ 67 :: 46 :: (32 :: q_c T)
          ++ LF :: 68 :: 46 :: 32 :: q_d T
          ++ LF :: codes "Correct Answer: " ++ q_answer T
          :: LF :: codes "Explanation: " ++ q_explanation T)
    by (rewrite template_body_nf; reassoc; reflexivity).
  apply option_found_multiline; try reflexivity.
  now apply has_text_non_blank.
Qed.

(** No line of a template starts with "Correct." *)

Lemma no_boundary_char t c l :
  N.eqb c LF = false ->
  exists_tail (line_boundary t) (c :: l) = exists_tail (line_boundary t) l.
Proof.
  intros H. cbn [exists_tail]. now rewrite (line_boundary_plain t c l H).
Qed.

Lemma no_boundary_field t u l :
  forallb (fun c => negb (N.eqb c LF)) u = true ->
  exists_tail (line_boundary t) (u ++ l) = exists_tail (line_boundary t) l.
Proof.
  induction u as [|c u IH]; intros H; [reflexivity|].
  simpl in H. apply andb_prop in H. destruct H as [Hc Hu].
  apply negb_true_iff in Hc. cbn [app].
  rewrite (no_boundary_char t c _ Hc). now apply IH.
Qed.

Lemma no_boundary_feed t l :
  line_boundary t (LF :: l) = false ->
  exists_tail (line_boundary t) (LF :: l) = exists_tail (line_boundary t) l.
Proof. intros H. cbn [exists_tail]. now rewrite H. Qed.

Lemma A_to_D_no_feed c : is_A_to_D c = true -> N.eqb c LF = false.
Proof.
  intros H. apply N.eqb_neq. intros ->. now vm_compute in H.
Qed.

Lemma A_to_D_not_terminator c :
  is_A_to_D c = true -> not_line_terminator c = true.
Proof.
  intros H. unfold not_line_terminator.
  destruct (Char.is_line_terminator c) eqn:E; [|reflexivity].
  apply line_terminator_is_space in E. apply is_space_range in E.
  unfold is_A_to_D in H. apply orb_prop in H.
  destruct H as [H|H]; to_prop H; lia.
Qed.

Ltac step_char :=
  match goal with
  | |- context [exists_tail (line_boundary ?t) (?c :: ?l)] =>
      rewrite (no_boundary_char t c l eq_refl)
  end.

Ltac step_feed :=
  match goal with
  | |- context [exists_tail (line_boundary ?t) (LF :: ?l)] =>
      rewrite (no_boundary_feed t l eq_refl)
  end.

Ltac step_text :=
  match goal with
  | |- context [exists_tail (line_boundary ?t) (codes ?s ++ ?l)] =>
      rewrite (no_boundary_field t (codes s) l eq_refl)
  end.

Record fields_ok (T : question_template) : Prop := {
  ok_text : single_line (q_text T) = true;
  ok_a : single_line (q_a T) = true;
  ok_b : single_line (q_b T) = true;
  ok_c : single_line (q_c T) = true;
  ok_d : single_line (q_d T) = true;
  ok_e : single_line (q_explanation T) = true;
  ok_answer : is_A_to_D (q_answer T) = true
}.

Lemma template_no_correct_line T :
  fields_ok T ->
  exists_tail (line_boundary (codes "Correct" ++ codes "."))
              (template_body T) = false.
Proof.
  intros [Ht Ha Hb Hc Hd He Hans]. rewrite template_body_nf.
  repeat first
    [ step_char
    | step_feed
    | rewrite (no_boundary_field _ _ _ (single_line_no_feed _ Ht))
    | rewrite (no_boundary_field _ _ _ (single_line_no_feed _ Ha))
    | rewrite (no_boundary_field _ _ _ (single_line_no_feed _ Hb))
    | rewrite (no_boundary_field _ _ _ (single_line_no_feed _ Hc))
    | rewrite (no_boundary_field _ _ _ (single_line_no_feed _ Hd))
    | step_text
    | rewrite (no_boundary_char _ _ _ (A_to_D_no_feed _ Hans)) ].
  rewrite <- (app_nil_r (q_explanation T)).
  rewrite (no_boundary_field _ _ _ (single_line_no_feed _ He)).
  reflexivity.
Qed.

Lemma single_line_feeds l : single_line l = true -> line_feeds_only l = true.
Proof.
  apply forallb_impl. intros c H. now rewrite H.
Qed.

Lemma template_line_feeds_only T :
  fields_ok T -> line_feeds_only (template_body T) = true.
Proof.
  intros [Ht Ha Hb Hc Hd He Hans]. rewrite template_body_nf.
  unfold line_feeds_only.
  repeat (first [rewrite forallb_app | progress cbn [forallb]]).
  fold (line_feeds_only (q_text T)). fold (line_feeds_only (q_a T)).
  fold (line_feeds_only (q_b T)). fold (line_feeds_only (q_c T)).
  fold (line_feeds_only (q_d T)). fold (line_feeds_only (q_explanation T)).
  rewrite (single_line_feeds _ Ht), (single_line_feeds _ Ha),
    (single_line_feeds _ Hb), (single_line_feeds _ Hc),
    (single_line_feeds _ Hd), (single_line_feeds _ He).
  rewrite (A_to_D_not_terminator _ Hans).
  reflexivity.
Qed.

Lemma template_option_D T :
  fields_ok T -> has_text (q_d T) = true ->
  extractOption (template_body T) (codes "D") (codes "Correct") <> [].
Proof.
  intros Hok H.
  pose proof (template_no_correct_line T Hok) as Hnb.
  pose proof (template_line_feeds_only T Hok) as Hlf.
  revert Hnb Hlf.
  replace (template_body T)
    with ((32 :: q_text T ++ LF :: 65 :: 46 :: 32 :: q_a T
           ++ LF :: 66 :: 46 :: 32 :: q_b T
           ++ LF :: 67 :: 46 :: 32 :: q_c T ++ [LF])
          ++ 68 :: 46 :: (32 :: q_d T)
          ++ LF :: codes "Correct Answer: " ++ q_answer T
          :: LF :: codes "Explanation: " ++ q_explanation T)
    by (rewrite template_body_nf; reassoc; reflexivity).
  intros Hnb Hlf.
  apply option_found_oneline; try reflexivity; try assumption.
  now apply has_text_non_blank.
Qed.

Lemma parseInt_digits num :
  num <> [] -> forallb Char.is_digit num = true ->
  parseInt num = Num (digits_value 0 num).
Proof.
  intros Hne Hd. unfold parseInt. rewrite (drop_space_digits num Hne Hd).
  destruct num as [|d num]; [easy|]. cbn [forallb] in Hd.
  apply andb_prop in Hd. destruct Hd as [Hd _]. now rewrite Hd.
Qed.

Lemma trim_leading_space l : trim (32 :: l) = trim l.
Proof. reflexivity. Qed.

Lemma template_one_record T :
  well_formed T = true ->
  has_marker (template_body T) = false ->
  (50 <= length (template_body T))%nat ->
  (10 <= length (trim (q_text T)))%nat ->
  one_record T.
Proof.
  intros Hwf Hm Hlen Hstem. unfold well_formed in Hwf.
  repeat match type of Hwf with
         | (_ && _)%bool = true =>
             let H := fresh "W" in
             apply andb_prop in Hwf; destruct Hwf as [Hwf H]
         end.
  apply negb_true_iff in Hwf.
  assert (Hne : q_number T <> []) by (destruct (q_number T); easy).
  assert (Hok : fields_ok T) by (constructor; assumption).
  unfold one_record.
  rewrite parseMCQResponse_records, (template_segments T Hne W10 Hm).
  cbn [flat_map]. rewrite app_nil_r.
  destruct (segment_record (q_number T, template_body T)) as [r|] eqn:E.
  - exists r. split; [reflexivity|].
    apply segment_record_fields in E.
    destruct E as (-> & _ & -> & -> & -> & -> & _).
    split; [now apply parseInt_digits|].
    split; [now apply template_option_A|].
    split; [now apply template_option_B|].
    split; [now apply template_option_C|now apply template_option_D].
  - exfalso. apply segment_record_none in E.
    destruct E as [E | [E | [E | [E | [E | E]]]]].
    + lia.
    + rewrite (template_stem T W9) in E. lia.
    + now apply (template_option_A T W3).
    + now apply (template_option_B T W2).
    + now apply (template_option_C T W1).
    + now apply (template_option_D T Hok W0).
Qed.

(** C3 (amended).  Take one instance of the documented template: the
    label a run of digits (read exactly, so below 2^53), every field on
    one line, the four option texts not blank, the answer a letter A-D.
    If the text after the marker holds no further "Question N:" marker
    and has at least 50 characters, and the trimmed question text has at
    least 10, then [parseMCQResponse] returns exactly one record, its four
    options are not empty and its id is the label N. *)
Theorem C3_template_yields_one_record T :
  well_formed T = true ->
  (digits_value 0 (q_number T) < 2 ^ 53)%Z ->
  has_marker (template_body T) = false ->
  (50 <= length (template_body T))%nat ->
  (10 <= length (trim (q_text T)))%nat ->
  one_record T.
Proof. intros Hwf _. now apply template_one_record. Qed.

Definition capital_template : question_template :=
  {| q_number := codes "12";
     q_text := codes "What is the capital city of France?";
     q_a := codes "Paris"; q_b := codes "London";
     q_c := codes "Rome"; q_d := codes "Berlin";
     q_answer := 66;
     q_explanation := codes "Paris is the capital." |}.

Lemma C3_template_witness : one_record capital_template.
Proof.
  apply (C3_template_yields_one_record capital_template).
  - reflexivity.
  - reflexivity.
  - now vm_compute.
  - apply Nat.leb_le. now vm_compute.
  - apply Nat.leb_le. now vm_compute.
Defined.

(** A template instance too short to pass the length guards. *)
Definition short_template : question_template :=
  {| q_number := codes "1";
     q_text := codes "Q?";
     q_a := codes "w"; q_b := codes "x";
     q_c := codes "y"; q_d := codes "z";
     q_answer := 65;
     q_explanation := codes "e" |}.

Lemma C3_template_counterexample :
  well_formed short_template = true /\ ~ one_record short_template.
Proof.
  split; [reflexivity|].
  intros (r & H & _). vm_compute in H. discriminate H.
Qed.

End Template.

(** * The sanitizer *)

Module Sanitizer.
Import RegexFacts Runs Captures CharFacts Boundary Segmenter Answer WebScraper.
Local Open Scope N_scope.
Unset Implicit Arguments.

(** ** Occurrences of a character *)

Definition free_of (c : N) (l : jsstring) : bool :=
  forallb (fun d => negb (N.eqb d c)) l.

Definition count (c : N) (l : jsstring) : nat := count_occ N.eq_dec l c.

Lemma free_count c l : free_of c l = true -> count c l = 0%nat.
Proof.
  unfold free_of, count. induction l as [|d l IH]; simpl; [easy|].
  intros H. apply andb_prop in H. destruct H as [Hd Hl].
  apply negb_true_iff, N.eqb_neq in Hd.
  destruct (N.eq_dec d c); [contradiction|auto].
Qed.

Lemma count_free c l : count c l = 0%nat -> free_of c l = true.
Proof.
  unfold free_of, count. induction l as [|d l IH]; simpl; [easy|].
  destruct (N.eq_dec d c) as [->|Hne]; [discriminate|].
  intros H. apply N.eqb_neq in Hne. rewrite Hne. simpl. auto.
Qed.

Lemma count_app c l1 l2 : count c (l1 ++ l2) = (count c l1 + count c l2)%nat.
Proof. apply count_occ_app. Qed.

Lemma count_here c l : count c (c :: l) = S (count c l).
Proof. unfold count. now rewrite count_occ_cons_eq. Qed.

(** A list splits at the first occurrence of a character in one way. *)
Lemma split_unique c : forall a b a' b',
  a ++ c :: b = a' ++ c :: b' ->
  free_of c a = true -> free_of c a' = true -> a = a' /\ b = b'.
Proof.
  unfold free_of. induction a as [|d a IH]; intros b a' b' E Ha Ha'.
  - destruct a' as [|d' a']; simpl in *.
    + now injection E as ->.
    + injection E as <- _. now rewrite N.eqb_refl in Ha'.
  - destruct a' as [|d' a']; simpl in *.
    + injection E as -> _. now rewrite N.eqb_refl in Ha.
    + injection E as <- E. apply andb_prop in Ha, Ha'.
      destruct Ha as [_ Ha], Ha' as [_ Ha'].
      destruct (IH _ _ _ E Ha Ha') as [-> ->]. easy.
Qed.

Lemma one_occurrence c A B X Z :
  free_of c A = true -> free_of c B = true ->
  A ++ c :: B = X ++ c :: Z -> X = A /\ Z = B.
Proof.
  intros HA HB E.
  assert (HX : free_of c X = true).
  { apply count_free. apply (f_equal (count c)) in E.
    rewrite !count_app, !count_here, (free_count c A HA), (free_count c B HB)
      in E. lia. }
  destruct (split_unique c A B X Z E HA HX) as [-> ->]. easy.
Qed.

(** ** Tails and occurrences of a literal *)



Lemma skip_char P c l :
  P (c :: l) = false -> exists_tail P (c :: l) = exists_tail P l.
Proof. intros H. cbn [exists_tail]. now rewrite H. Qed.

Lemma starts_with_other ci c0 t c l :
  is_letter c0 = false -> N.eqb c c0 = false ->
  starts_with ci (c0 :: t) (c :: l) = false.
Proof.
  intros H0 Hc. unfold starts_with. cbn [strip_prefix].
  now rewrite (chr_eq_plain ci c0 c H0), Hc.
Qed.

Lemma skip_field ci c0 t u l :
  is_letter c0 = false -> free_of c0 u = true ->
  exists_tail (starts_with ci (c0 :: t)) (u ++ l)
  = exists_tail (starts_with ci (c0 :: t)) l.
Proof.
  intros H0. unfold free_of. induction u as [|c u IH]; intros H; [reflexivity|].
  simpl in H. apply andb_prop in H. destruct H as [Hc Hu].
  apply negb_true_iff in Hc. cbn [app].
  rewrite skip_char by now apply starts_with_other.
  now apply IH.
Qed.

(** ** Deleting what does not occur, and what is everything *)

Lemma search_absent ci t r : forall l pv,
  exists_tail (starts_with ci t) l = false ->
  search ci (Seq (Str t) r) pv l = None.
Proof.
  intros l pv. apply search_none. intros pv' l'. apply exec_at_str_none.
Qed.

Lemma remove_absent ci t r l :
  exists_tail (starts_with ci t) l = false ->
  js_remove_all ci (Seq (Str t) r) l = l.
Proof.
  intros H. unfold js_remove_all. cbn [remove_all].
  now rewrite (search_absent ci t r l None H).
Qed.

Lemma remove_nil ci t c r :
  js_remove_all ci (Seq (Str (c :: t)) r) [] = [].
Proof. reflexivity. Qed.

Lemma exec_at_whole ci r pv l :
  matches ci r (MState pv l []) <> [] ->
  (forall s, In s (matches ci r (MState pv l [])) -> rest s = []) ->
  exists cs, exec_at ci r pv l = Some (RMatch [] l cs []).
Proof.
  intros Hne Hall. unfold exec_at.
  destruct (matches ci r (MState pv l [])) as [|s tl] eqn:E; [easy|].
  rewrite (Hall s (or_introl eq_refl)). exists (caps s).
  now rewrite Nat.sub_0_r, firstn_all.
Qed.

Lemma remove_whole ci t c r l cs :
  exec_at ci (Seq (Str (c :: t)) r) None l = Some (RMatch [] l cs []) ->
  js_remove_all ci (Seq (Str (c :: t)) r) l = [].
Proof.
  intros H. unfold js_remove_all. cbn [remove_all search].
  destruct l as [|d l].
  - reflexivity.
  - cbn [search]. rewrite H. cbn [m_pre m_text m_post app].
    destruct (length l); reflexivity.
Qed.

(** ** The end of an opening tag, the content and the closing tag *)



Lemma chr_eq_plain_l ci c b :
  is_letter c = false -> chr_eq ci c b = true -> b = c.
Proof.
  intros Hc H. rewrite (chr_eq_plain ci c b Hc) in H. now apply N.eqb_eq in H.
Qed.


Lemma same_word_length ci t m :
  Forall2 (fun a b => chr_eq ci a b = true) t m -> length m = length t.
Proof. intros H. symmetry. exact (Forall2_length H). Qed.

Lemma not_char_spec ci c s :
  is_letter c = false ->
  matches ci (Cls true [CChar c]) s = eat (fun d => negb (N.eqb d c)) s.
Proof.
  intros Hc. apply eat_ext. intros d. unfold cls_mem. simpl.
  now rewrite (chr_eq_plain ci c d Hc), orb_false_r.
Qed.

Lemma matches_not_char_star ci c pv l cs :
  is_letter c = false ->
  matches ci (Star true (Cls true [CChar c])) (MState pv l cs)
  = greedy_run (fun d => negb (N.eqb d c)) pv l cs.
Proof.
  intros Hc.
  apply (matches_star_one ci (fun d => negb (N.eqb d c)) (Cls true [CChar c])
           (fun s => not_char_spec ci c s Hc) true).
Qed.

Lemma in_eat_str ci t s s' :
  In s' (eat_str ci t s) <->
  exists m, rest s = m ++ rest s'
            /\ Forall2 (fun a b => chr_eq ci a b = true) t m
            /\ caps s' = caps s /\ prev s' = last_opt (prev s) m.
Proof.
  destruct s as [pv l cs]. rewrite eat_str_eq. cbn [rest caps prev]. split.
  - destruct (strip_prefix ci t l) as [v|] eqn:E; [|easy].
    intros [<-|[]]. exists (firstn (length t) l). cbn [rest caps prev].
    repeat split.
    + exact (@strip_prefix_split ci t l v E).
    + exact (@strip_prefix_same ci t l v E).
  - intros (m & -> & H & Hc & Hp).
    rewrite (@strip_prefix_exact ci t m (rest s') H).
    left. destruct s' as [pv' l' cs']. cbn [rest caps prev] in *. subst.
    f_equal. f_equal. rewrite <- (same_word_length ci t m H).
    now rewrite firstn_app, Nat.sub_diag, firstn_all, app_nil_r.
Qed.

Lemma forallb_true (l : jsstring) : forallb (fun _ => true) l = true.
Proof. induction l; simpl; auto. Qed.

Lemma same_word_same ci t : Forall2 (fun a b => chr_eq ci a b = true) t t.
Proof.
  induction t as [|c t IH]; constructor; [|exact IH].
  unfold chr_eq. apply N.eqb_refl.
Qed.

Lemma same_word_plain ci t : forall m,
  Forall2 (fun a b => chr_eq ci a b = true) t m ->
  forallb (fun c => negb (is_letter c)) t = true -> m = t.
Proof.
  induction t as [|a t IH]; intros m H Ht;
    inversion H as [|a' b t' m' Hab Hrest Ea Eb]; [reflexivity|].
  simpl in Ht. apply andb_prop in Ht. destruct Ht as [Ha Ht].
  apply negb_true_iff in Ha.
  rewrite (chr_eq_plain_l ci a b Ha Hab). f_equal. now apply IH.
Qed.

Lemma same_word_cons ci c t m :
  Forall2 (fun a b => chr_eq ci a b = true) (c :: t) m ->
  is_letter c = false ->
  exists m', m = c :: m' /\ Forall2 (fun a b => chr_eq ci a b = true) t m'.
Proof.
  intros H Hc. inversion H as [|a' b t' m' Hab Hrest Ea Eb].
  exists m'. now rewrite (chr_eq_plain_l ci c b Hc Hab).
Qed.

Lemma app_same_length (A : Type) : forall (a c b d : list A),
  a ++ b = c ++ d -> length a = length c -> a = c /\ b = d.
Proof.
  induction a as [|x a IH]; intros [|y c] b d E L; simpl in *;
    try discriminate.
  - auto.
  - injection E as -> E. destruct (IH c b d E) as [-> ->]; [lia|auto].
Qed.

Lemma free_app c l1 l2 :
  free_of c (l1 ++ l2) = free_of c l1 && free_of c l2.
Proof. unfold free_of. apply forallb_app. Qed.

(** ** Membership in the matches of the pieces of a tag pattern *)

Lemma in_str ci t pv l cs s' :
  In s' (matches ci (Str t) (MState pv l cs)) <->
  exists m v, l = m ++ v
              /\ Forall2 (fun a b => chr_eq ci a b = true) t m
              /\ s' = MState (last_opt pv m) v cs.
Proof.
  rewrite matches_str, in_eat_str. cbn [rest caps prev]. split.
  - intros (m & E & H & Hc & Hp). exists m, (rest s'). repeat split; trivial.
    destruct s' as [pv' l' cs']. cbn [rest caps prev] in *. now subst.
  - intros (m & v & E & H & ->). exists m. cbn [rest caps prev]. now repeat split.
Qed.

(** A literal read where the input is known to start with it. *)
Lemma in_str_here ci t pv l cs s' :
  In s' (matches ci (Str t) (MState pv (t ++ l) cs)) <->
  s' = MState (last_opt pv t) l cs.
Proof.
  rewrite in_str. split.
  - intros (m & v & E & H & ->).
    destruct (app_same_length N t m l v E) as [<- <-]; [|reflexivity].
    symmetry. apply (same_word_length ci t m H).
  - intros ->. exists t, l. repeat split. apply same_word_same.
Qed.

Lemma in_not_char_star ci c pv l cs s' :
  is_letter c = false ->
  In s' (matches ci (Star true (Cls true [CChar c])) (MState pv l cs)) <->
  exists u v, l = u ++ v /\ free_of c u = true
              /\ s' = MState (last_opt pv u) v cs.
Proof.
  intros Hc. rewrite (matches_not_char_star ci c pv l cs Hc).
  apply in_greedy_run.
Qed.

Lemma in_any_star ci pv l cs s' :
  In s' (matches ci (Star false AnyChar) (MState pv l cs)) <->
  exists u v, l = u ++ v /\ s' = MState (last_opt pv u) v cs.
Proof.
  rewrite (matches_star_one ci (fun _ => true) AnyChar (AnyChar_spec ci)).
  rewrite in_lazy_run. split.
  - intros (u & v & E & _ & H). now exists u, v.
  - intros (u & v & E & H). exists u, v. now rewrite forallb_true.
Qed.


(** ** One element in plain text *)

(** [<name attrs>inner</name>] *)
Definition element (name attrs inner : jsstring) : jsstring :=
  60 :: name ++ attrs ++ 62 :: inner ++ 60 :: 47 :: name ++ [62].

Lemma element_app name attrs inner post :
  element name attrs inner ++ post
  = (60 :: name) ++ attrs ++ 62 :: inner ++ 60 :: (47 :: name ++ [62]) ++ post.
Proof.
  unfold element.
  repeat (rewrite <- app_assoc || rewrite <- app_comm_cons). reflexivity.
Qed.

(** No tag that starts with [<t] opens in a text without [<]. *)
Lemma free_tails ci t l :
  free_of 60 l = true -> exists_tail (starts_with ci (60 :: t)) l = false.
Proof.
  intros H. rewrite <- (app_nil_r l).
  now rewrite (skip_field ci 60 t l [] eq_refl H).
Qed.

(** The tails of an element after its first character. *)
Lemma element_tail_tails ci t name attrs inner post :
  (forall l, starts_with ci (60 :: t) (60 :: 47 :: l) = false) ->
  free_of 60 name = true -> free_of 60 attrs = true ->
  free_of 60 inner = true -> free_of 60 post = true ->
  exists_tail (starts_with ci (60 :: t))
    (name ++ attrs ++ 62 :: inner ++ 60 :: (47 :: name ++ [62]) ++ post)
  = false.
Proof.
  intros H2 Hn Ha Hi Hp.
  rewrite (skip_field ci 60 t name _ eq_refl Hn).
  rewrite (skip_field ci 60 t attrs _ eq_refl Ha).
  rewrite skip_char by now apply starts_with_other.
  rewrite (skip_field ci 60 t inner _ eq_refl Hi).
  rewrite skip_char by apply H2.
  apply free_tails. cbn [app]. rewrite <- app_assoc. cbn [app].
  change (47 :: name ++ 62 :: post) with ([47] ++ name ++ [62] ++ post).
  rewrite !free_app, Hn, Hp. reflexivity.
Qed.

(** No tag with another name opens in a text that holds one element. *)
Lemma element_tails ci t name attrs inner pre post :
  (forall l, starts_with ci (60 :: t) (60 :: name ++ l) = false) ->
  (forall l, starts_with ci (60 :: t) (60 :: 47 :: l) = false) ->
  free_of 60 pre = true -> free_of 60 name = true ->
  free_of 60 attrs = true -> free_of 60 inner = true ->
  free_of 60 post = true ->
  exists_tail (starts_with ci (60 :: t)) (pre ++ element name attrs inner ++ post)
  = false.
Proof.
  intros H1 H2 Hpre Hn Ha Hi Hp. rewrite element_app.
  rewrite (skip_field ci 60 t pre _ eq_refl Hpre). cbn [app].
  rewrite skip_char by apply H1.
  now apply element_tail_tails.
Qed.

(** ** Removing one element *)

Lemma exec_at_rest ci r pv t post :
  matches ci r (MState pv (t ++ post) []) <> [] ->
  (forall s, In s (matches ci r (MState pv (t ++ post) [])) -> rest s = post) ->
  exists cs, exec_at ci r pv (t ++ post) = Some (RMatch [] t cs post).
Proof.
  intros Hne Hall. unfold exec_at.
  destruct (matches ci r (MState pv (t ++ post) [])) as [|s tl] eqn:E; [easy|].
  rewrite (Hall s (or_introl eq_refl)). exists (caps s).
  now rewrite firstn_app_exact.
Qed.

Lemma exec_at_nil ci r pv l :
  matches ci r (MState pv l []) = [] -> exec_at ci r pv l = None.
Proof. unfold exec_at. now intros ->. Qed.

Lemma search_here ci r pv l m :
  exec_at ci r pv l = Some m -> search ci r pv l = Some m.
Proof. intros H. destruct l; cbn [search]; now rewrite H. Qed.

(** The search runs over text that cannot open the pattern. *)
Lemma search_skip ci t r : forall u l pv,
  free_of 60 u = true ->
  search ci (Seq (Str (60 :: t)) r) pv (u ++ l)
  = option_map (fun m => RMatch (u ++ m_pre m) (m_text m) (m_caps m) (m_post m))
      (search ci (Seq (Str (60 :: t)) r) (last_opt pv u) l).
Proof.
  unfold free_of. induction u as [|c u IH]; intros l pv H.
  - cbn [app last_opt]. destruct (search _ _ _ l) as [[]|]; reflexivity.
  - simpl in H. apply andb_prop in H. destruct H as [Hc Hu].
    apply negb_true_iff in Hc. cbn [app search last_opt].
    rewrite exec_at_str_none by now apply starts_with_other.
    rewrite (IH l (Some c) Hu).
    destruct (search _ _ _ l) as [[]|]; reflexivity.
Qed.

(** A pattern that matches exactly the element deletes it. *)
Lemma remove_one ci t r pre elem post cs :
  free_of 60 pre = true -> free_of 60 post = true -> elem <> [] ->
  exec_at ci (Seq (Str (60 :: t)) r) (last_opt None pre) (elem ++ post)
  = Some (RMatch [] elem cs post) ->
  js_remove_all ci (Seq (Str (60 :: t)) r) (pre ++ elem ++ post) = pre ++ post.
Proof.
  intros Hpre Hpost Hne H. unfold js_remove_all. cbn [remove_all].
  rewrite (search_skip ci t r pre _ None Hpre), (search_here _ _ _ _ _ H).
  cbn [option_map m_pre m_text m_post]. rewrite app_nil_r. f_equal.
  destruct elem as [|c elem]; [easy|].
  destruct (length (pre ++ (c :: elem) ++ post)); [reflexivity|].
  cbn [remove_all].
  now rewrite (search_absent ci (60 :: t) r post _ (free_tails ci t post Hpost)).
Qed.

(** ** The four container rules *)


Definition no_angle (l : jsstring) : bool := free_of 60 l && free_of 62 l.


Lemma container_absent tag l :
  exists_tail (starts_with true (60 :: codes tag)) l = false ->
  js_remove_all true (container_re tag) l = l.
Proof. exact (remove_absent true (60 :: codes tag) _ l). Qed.

(** ** The div rule *)



Lemma div_absent l :
  exists_tail (starts_with true (60 :: codes "div")) l = false ->
  js_remove_all true div_re l = l.
Proof. exact (remove_absent true (60 :: codes "div") _ l). Qed.

Lemma comment_absent l :
  exists_tail (starts_with false (60 :: codes "!--")) l = false ->
  js_remove_all false comment_re l = l.
Proof. exact (remove_absent false (60 :: codes "!--") _ l). Qed.

Lemma element_absent tag l :
  exists_tail (starts_with true (60 :: codes tag)) l = false ->
  js_match true (element_re tag) l = None.
Proof. exact (search_absent true (60 :: codes tag) _ l None). Qed.

(** Text without [<] passes the rules and the selection unchanged. *)
Lemma plain_rest l :
  free_of 60 l = true ->
  js_remove_all false comment_re l = l
  /\ js_remove_all true div_re l = l
  /\ (forall tag, js_remove_all true (container_re tag) l = l)
  /\ (forall tag, js_match true (element_re tag) l = None).
Proof.
  intros H. split; [|split; [|split]].
  - apply comment_absent. now apply free_tails.
  - apply div_absent. now apply free_tails.
  - intros tag. apply container_absent. now apply free_tails.
  - intros tag. apply element_absent. now apply free_tails.
Qed.

Ltac other_tag :=
  apply element_tails;
  [intros; reflexivity | intros; reflexivity | try assumption; try reflexivity ..].


(** ** Occurrences of a word *)
















(** ** Searching and deleting *)





(** ** The content and the closing tag *)




(** ** The four container rules, on any content *)






(** ** The div rule, on a tag with any attributes *)





















(** ** Text the rules leave alone *)





















(** ** One element in settled text *)



























End Sanitizer.

(** * No state between invocations *)

Module Stateless.
Import RegexFacts MCQParser MCQFacts WebScraper BlockOrder.
Import Runtime (RegExp, world, M, ret, bind, objects, console, source,
                ignoreCase, global, lastIndex).

(** The world [w] with more objects allocated and more lines logged:
    every object of [w] is where it was and as it was. *)
Definition extend (w : world) (objs : list RegExp) (lg : list log_event)
  : world :=
  {| objects := objects w ++ objs; console := console w ++ lg |}.

(** In every world [m] returns [a], logs [lg], and leaves the objects
    it found untouched. *)
Definition returns (A : Type) (m : M A) (a : A) (lg : list log_event) : Prop :=
  forall w, exists objs, m w = Some (a, extend w objs lg).

Definition fresh (r : regex) (ci g : bool) (i : nat) : RegExp :=
  {| source := r; ignoreCase := ci; global := g; lastIndex := i |}.

Lemma extend_extend w o1 l1 o2 l2 :
  extend (extend w o1 l1) o2 l2 = extend w (o1 ++ o2) (l1 ++ l2).
Proof. unfold extend. simpl. now rewrite <- !app_assoc. Qed.

Lemma extend_nil w : extend w [] [] = w.
Proof. unfold extend. destruct w. simpl. now rewrite !app_nil_r. Qed.

Lemma returns_ret (A : Type) (a : A) : returns (ret a) a [].
Proof. intros w. exists []. unfold ret. now rewrite extend_nil. Qed.

Lemma returns_bind (A B : Type) (m : M A) (k : A -> M B) a b l1 l2 :
  returns m a l1 -> returns (k a) b l2 -> returns (bind m k) b (l1 ++ l2).
Proof.
  intros Hm Hk w. destruct (Hm w) as (o1 & E1).
  destruct (Hk (extend w o1 l1)) as (o2 & E2).
  exists (o1 ++ o2). unfold bind. now rewrite E1, E2, extend_extend.
Qed.

(** The same without lines logged. *)
Lemma returns_bind0 (A B : Type) (m : M A) (k : A -> M B) a b l2 :
  returns m a [] -> returns (k a) b l2 -> returns (bind m k) b l2.
Proof. intros Hm Hk. exact (@returns_bind A B m k a b [] l2 Hm Hk). Qed.

Lemma nth_error_middle (A : Type) (h : list A) o t :
  nth_error (h ++ o :: t) (length h) = Some o.
Proof. induction h as [|x h IH]; simpl; auto. Qed.

Lemma store_middle h o t o' :
  Runtime.store (h ++ o :: t) (length h) o' = h ++ o' :: t.
Proof. induction h as [|x h IH]; simpl; [reflexivity|]. now rewrite IH. Qed.

Lemma store_same : forall l n o,
  nth_error l n = Some o -> Runtime.store l n o = l.
Proof.
  induction l as [|x l IH]; intros [|n] o; simpl; try easy.
  - now intros [= ->].
  - intros H. now rewrite IH.
Qed.

(** ** The operations on a pattern that is not in the middle of a scan *)

Lemma set_lastIndex_same w re r ci g i :
  nth_error (objects w) re = Some (fresh r ci g i) ->
  Runtime.set_lastIndex re i w = Some (tt, w).
Proof.
  intros H. unfold Runtime.set_lastIndex. rewrite H.
  change {| source := source (fresh r ci g i);
            ignoreCase := ignoreCase (fresh r ci g i);
            global := global (fresh r ci g i); lastIndex := i |}
    with (fresh r ci g i).
  rewrite (@store_same _ _ _ H). now destruct w.
Qed.

Lemma String_replace_at w re r ci g str :
  nth_error (objects w) re = Some (fresh r ci g 0) ->
  Runtime.String_replace str re w
  = Some (if g then js_remove_all ci r str else js_remove_first ci r str, w).
Proof.
  intros H. unfold Runtime.String_replace, Runtime.read, bind. rewrite H.
  cbn [global fresh ignoreCase source]. destruct g; [|reflexivity].
  now rewrite (@set_lastIndex_same w re r ci _ 0 H).
Qed.

Lemma String_match_at w re r ci str :
  nth_error (objects w) re = Some (fresh r ci false 0) ->
  Runtime.String_match str re w = Some (js_match ci r str, w).
Proof.
  intros H.
  unfold Runtime.String_match, Runtime.RegExp_exec, Runtime.read, bind.
  rewrite H. cbn [global fresh]. now rewrite H.
Qed.

Lemma String_match_all_at w re r ci str :
  nth_error (objects w) re = Some (fresh r ci true 0) ->
  Runtime.String_match_all str re w = Some (js_match_all ci r str, w).
Proof.
  intros H. unfold Runtime.String_match_all, Runtime.read, bind. rewrite H.
  cbn [global fresh ignoreCase source]. now rewrite (@set_lastIndex_same w re r ci _ 0 H).
Qed.

Lemma String_split_at w re r ci g i str n :
  nth_error (objects w) re = Some (fresh r ci g i) ->
  Runtime.String_split str re n w = Some (js_split ci r n str, w).
Proof.
  intros H. unfold Runtime.String_split, Runtime.read, bind. now rewrite H.
Qed.

(** What is done with a pattern just made. *)
Lemma returns_new (A : Type) r ci g (k : nat -> M A) a lg :
  (forall w re,
      nth_error (objects w) re = Some (fresh r ci g 0) ->
      exists objs, k re w = Some (a, extend w objs lg)) ->
  returns (bind (Runtime.new_RegExp r ci g) k) a lg.
Proof.
  intros Hk w. unfold bind, Runtime.new_RegExp.
  set (w1 := {| objects := objects w ++ [_]; console := console w |}).
  destruct (Hk w1 (length (objects w))) as (objs & E).
  { apply nth_error_middle. }
  exists (fresh r ci g 0 :: objs). rewrite E. unfold extend, w1. simpl.
  now rewrite <- app_assoc.
Qed.

Lemma new_replace (A : Type) r ci (g : bool) str (k : jsstring -> M A) a lg :
  returns (k (if g then js_remove_all ci r str else js_remove_first ci r str))
          a lg ->
  returns (bind (Runtime.new_RegExp r ci g)
             (fun re => bind (Runtime.String_replace str re) k)) a lg.
Proof.
  intros Hk. apply returns_new. intros w re H.
  unfold bind. rewrite (@String_replace_at w re r ci g str H). apply Hk.
Qed.

Lemma new_match (A : Type) r ci str (k : option rmatch -> M A) a lg :
  returns (k (js_match ci r str)) a lg ->
  returns (bind (Runtime.new_RegExp r ci false)
             (fun re => bind (Runtime.String_match str re) k)) a lg.
Proof.
  intros Hk. apply returns_new. intros w re H.
  unfold bind. rewrite (@String_match_at w re r ci str H). apply Hk.
Qed.

Lemma new_match_all (A : Type) r ci str (k : list jsstring -> M A) a lg :
  returns (k (js_match_all ci r str)) a lg ->
  returns (bind (Runtime.new_RegExp r ci true)
             (fun re => bind (Runtime.String_match_all str re) k)) a lg.
Proof.
  intros Hk. apply returns_new. intros w re H.
  unfold bind. rewrite (@String_match_all_at w re r ci str H). apply Hk.
Qed.

Lemma new_split (A : Type) r ci g str n (k : list jsstring -> M A) a lg :
  returns (k (js_split ci r n str)) a lg ->
  returns (bind (Runtime.new_RegExp r ci g)
             (fun re => bind (Runtime.String_split str re n) k)) a lg.
Proof.
  intros Hk. apply returns_new. intros w re H.
  unfold bind. rewrite (@String_split_at w re r ci g 0 str n H). apply Hk.
Qed.

Lemma returns_mapM (A B : Type) (f : A -> M B) (g : A -> B) :
  (forall x, returns (f x) (g x) []) ->
  forall l, returns (Runtime.mapM f l) (map g l) [].
Proof.
  intros Hf. induction l as [|x l IH]; cbn [Runtime.mapM map].
  - apply returns_ret.
  - eapply returns_bind0; [apply Hf|].
    eapply returns_bind0; [apply IH|]. apply returns_ret.
Qed.

(** ** The [exec] loop *)

(** The loop over the pattern at address [length h], whose [lastIndex]
    is [i]: it returns what [exec_loop] computes from [i], and writes
    the [lastIndex] of that pattern and nothing else that was there. *)
Lemma while_exec_runs (A : Type) ci r (f : rmatch -> list A) body str :
  (forall m, returns (body m) (f m) []) ->
  forall fuel i out j h t c,
    exec_loop ci r f fuel str i = Some (out, j) ->
    exists objs,
      Runtime.while_exec fuel (length h) str body
        {| objects := h ++ fresh r ci true i :: t; console := c |}
      = Some (out, {| objects := h ++ fresh r ci true j :: t ++ objs;
                      console := c |}).
Proof.
  intros Hbody. induction fuel as [|n IH]; intros i out j h t c; [easy|].
  cbn [exec_loop Runtime.while_exec].
  unfold bind at 1. unfold Runtime.RegExp_exec, Runtime.read. unfold bind at 1.
  cbn [objects]. rewrite nth_error_middle.
  cbn [global fresh ignoreCase source lastIndex].
  destruct (exec ci r str i) as [[m|] i'] eqn:E.
  - unfold bind at 1. unfold Runtime.set_lastIndex. cbn [objects console].
    rewrite nth_error_middle, store_middle.
    cbn [global fresh ignoreCase source lastIndex]. unfold ret at 1.
    destruct (exec_loop ci r f n str i') as [[out' j']|] eqn:F; [|easy].
    intros [= <- <-].
    unfold bind at 1.
    change {| source := r; ignoreCase := ci; global := true; lastIndex := i' |}
      with (fresh r ci true i').
    destruct (Hbody m {| objects := h ++ fresh r ci true i' :: t; console := c |})
      as (o1 & E1).
    rewrite E1. unfold extend. cbn [objects console].
    rewrite app_nil_r, <- app_assoc. cbn [app].
    unfold bind at 1.
    destruct (IH i' out' j' h (t ++ o1) c F) as (o2 & E2).
    rewrite E2. unfold ret. exists (o1 ++ o2). now rewrite <- app_assoc.
  - intros [= <- <-].
    unfold bind at 1. unfold Runtime.set_lastIndex. cbn [objects console].
    rewrite nth_error_middle, store_middle.
    cbn [global fresh ignoreCase source lastIndex]. unfold ret.
    exists []. now rewrite app_nil_r.
Qed.

Lemma new_while (A B : Type) ci r (f : rmatch -> list A) body str fuel out j
    (k : list A -> M B) b lg :
  (forall m, returns (body m) (f m) []) ->
  exec_loop ci r f fuel str 0 = Some (out, j) ->
  returns (k out) b lg ->
  returns (bind (Runtime.new_RegExp r ci true)
             (fun re => bind (Runtime.while_exec fuel re str body) k)) b lg.
Proof.
  intros Hbody E Hk w. unfold bind, Runtime.new_RegExp.
  destruct (while_exec_runs ci r f body str Hbody fuel 0 (objects w) []
              (console w) E) as (objs & E1).
  destruct (Hk {| objects := objects w ++ fresh r ci true j :: [] ++ objs;
                  console := console w |}) as (o2 & E2).
  unfold fresh in E1. rewrite E1. unfold fresh in E2. rewrite E2.
  exists ((fresh r ci true j :: objs) ++ o2). unfold extend, fresh. simpl.
  now rewrite <- app_assoc.
Qed.

(** ** The block extractor *)

Lemma strip_tags_returns x :
  returns (Runtime.strip_tags x) (strip_tags x) [].
Proof.
  unfold Runtime.strip_tags, strip_tags.
  apply (new_replace tag_re false true). apply returns_ret.
Qed.

Lemma heading_body_returns m :
  returns (Runtime.heading_body m) (heading_block m) [].
Proof.
  unfold Runtime.heading_body, heading_block.
  eapply returns_bind0; [apply strip_tags_returns|]. apply returns_ret.
Qed.

Lemma paragraph_body_returns m :
  returns (Runtime.paragraph_body m) (paragraph_block m) [].
Proof.
  unfold Runtime.paragraph_body, paragraph_block.
  eapply returns_bind0; [apply strip_tags_returns|]. apply returns_ret.
Qed.

Lemma quote_body_returns m :
  returns (Runtime.quote_body m) (quote_block m) [].
Proof.
  unfold Runtime.quote_body, quote_block.
  eapply returns_bind0; [apply strip_tags_returns|]. apply returns_ret.
Qed.

Lemma list_body_returns m :
  returns (Runtime.list_body m) (list_block m) [].
Proof.
  unfold Runtime.list_body, list_block.
  apply (new_match_all li_re true).
  eapply returns_bind0;
    [apply (returns_mapM Runtime.strip_tags strip_tags strip_tags_returns)|].
  apply returns_ret.
Qed.

Lemma collect_loop r f cleanHtml out :
  collect r f cleanHtml = Some out ->
  exists j, exec_loop true r f (S (length cleanHtml)) cleanHtml 0 = Some (out, j).
Proof.
  unfold collect.
  destruct (exec_loop true r f (S (length cleanHtml)) cleanHtml 0)
    as [[out' j]|]; [|easy].
  intros [= <-]. now exists j.
Qed.

Lemma parseHtmlToBlocks_returns html blocks :
  parseHtmlToBlocks html = Some blocks ->
  returns (Runtime.parseHtmlToBlocks html) blocks [].
Proof.
  unfold parseHtmlToBlocks, Runtime.parseHtmlToBlocks.
  set (clean1 := js_remove_all true script_re html).
  set (cleanHtml := js_remove_all true style_re clean1).
  destruct (collect heading_re heading_block cleanHtml) as [hs|] eqn:Eh; [|easy].
  destruct (collect paragraph_re paragraph_block cleanHtml) as [ps|] eqn:Ep;
    [|easy].
  destruct (collect list_re list_block cleanHtml) as [ls|] eqn:El; [|easy].
  destruct (collect blockquote_re quote_block cleanHtml) as [qs|] eqn:Eq;
    [|easy].
  intros [= <-].
  apply collect_loop in Eh, Ep, El, Eq.
  destruct Eh as (jh & Eh), Ep as (jp & Ep), El as (jl & El), Eq as (jq & Eq).
  apply (new_replace script_re true true). fold clean1.
  apply (new_replace style_re true true). fold cleanHtml.
  apply (new_while true heading_re heading_block Runtime.heading_body cleanHtml
           (S (length cleanHtml)) (out := hs) (j := jh));
    [exact heading_body_returns|exact Eh|].
  apply (new_while true paragraph_re paragraph_block Runtime.paragraph_body
           cleanHtml (S (length cleanHtml)) (out := ps) (j := jp));
    [exact paragraph_body_returns|exact Ep|].
  apply (new_while true list_re list_block Runtime.list_body cleanHtml
           (S (length cleanHtml)) (out := ls) (j := jl));
    [exact list_body_returns|exact El|].
  apply (new_while true blockquote_re quote_block Runtime.quote_body cleanHtml
           (S (length cleanHtml)) (out := qs) (j := jq));
    [exact quote_body_returns|exact Eq|].
  apply returns_ret.
Qed.

(** ** The sanitizer and the selection *)

Definition rule_object (p : bool * regex) : RegExp :=
  fresh (snd p) (fst p) true 0.

(** The patterns of an array literal, as they stand in the world [w]. *)
Definition stand_at (w : world) (ps : list (bool * regex)) (refs : list nat)
  : Prop :=
  Forall2 (fun p re => nth_error (objects w) re = Some (rule_object p)) ps refs.

Lemma stand_at_extend w ps refs objs lg :
  stand_at w ps refs -> stand_at (extend w objs lg) ps refs.
Proof.
  unfold stand_at. induction 1 as [|p re ps refs H _ IH]; constructor; auto.
  unfold extend. cbn [objects]. rewrite nth_error_app1; [exact H|].
  apply nth_error_Some. now rewrite H.
Qed.

Lemma new_patterns_run : forall ps w,
  exists refs,
    Runtime.mapM (fun p => Runtime.new_RegExp (snd p) (fst p) true) ps w
    = Some (refs, extend w (map rule_object ps) [])
    /\ stand_at (extend w (map rule_object ps) []) ps refs.
Proof.
  induction ps as [|p ps IH]; intros w.
  - exists []. split; [|constructor].
    cbn [Runtime.mapM map]. unfold ret. now rewrite extend_nil.
  - cbn [Runtime.mapM map]. unfold bind at 1. unfold Runtime.new_RegExp at 1.
    set (w1 := {| objects := objects w ++ [_]; console := console w |}).
    destruct (IH w1) as (refs & E & F).
    assert (Ew : extend w1 (map rule_object ps) []
                 = extend w (rule_object p :: map rule_object ps) []).
    { unfold extend, w1. simpl. now rewrite <- app_assoc. }
    rewrite Ew in E, F.
    exists (length (objects w) :: refs). unfold bind at 1. rewrite E.
    unfold ret. split; [reflexivity|].
    constructor; [|exact F].
    unfold extend. cbn [objects]. apply nth_error_middle.
Qed.

Lemma replace_each_at w : forall ps refs content,
  stand_at w ps refs ->
  Runtime.replace_each content refs w
  = Some (fold_left (fun content p => js_remove_all (fst p) (snd p) content)
            ps content, w).
Proof.
  unfold stand_at. intros ps refs content F. revert content.
  induction F as [|p re ps refs H _ IH]; intros content; [reflexivity|].
  cbn [Runtime.replace_each fold_left]. unfold bind.
  unfold rule_object in H.
  rewrite (@String_replace_at w re (snd p) (fst p) true content H).
  apply IH.
Qed.

Lemma new_patterns_replace (A : Type) html (k : jsstring -> M A) a lg :
  returns (k (fold_left (fun content p => js_remove_all (fst p) (snd p) content)
                removePatterns html)) a lg ->
  returns (bind (Runtime.mapM (fun p => Runtime.new_RegExp (snd p) (fst p) true)
                   removePatterns)
             (fun patterns => bind (Runtime.replace_each html patterns) k))
          a lg.
Proof.
  intros Hk w. destruct (new_patterns_run removePatterns w) as (refs & E & F).
  unfold bind at 1. rewrite E. unfold bind at 1.
  rewrite (replace_each_at html F).
  destruct (Hk (extend w (map rule_object removePatterns) [])) as (o2 & ->).
  rewrite extend_extend. eexists. reflexivity.
Qed.

Lemma extractMainContent_returns html :
  returns (Runtime.extractMainContent html) (extractMainContent html) [].
Proof.
  unfold Runtime.extractMainContent, extractMainContent.
  apply new_patterns_replace.
  set (content := fold_left _ removePatterns html).
  apply (new_match (element_re "article") true).
  destruct (js_match true (element_re "article") content);
    [apply returns_ret|].
  apply (new_match (element_re "main") true).
  destruct (js_match true (element_re "main") content); apply returns_ret.
Qed.

Lemma extract_blocks_returns html blocks :
  parseHtmlToBlocks (extractMainContent html) = Some blocks ->
  returns (Runtime.extract_blocks html) blocks [].
Proof.
  intros H. unfold Runtime.extract_blocks.
  eapply returns_bind0; [apply extractMainContent_returns|].
  now apply parseHtmlToBlocks_returns.
Qed.

(** ** The MCQ parser *)

Lemma returns_log e : returns (Runtime.console_log e) tt [e].
Proof.
  intros w. exists []. unfold Runtime.console_log, extend.
  now rewrite app_nil_r.
Qed.

Lemma try_patterns_at w content : forall rs refs,
  Forall2 (fun r re => nth_error (objects w) re = Some (fresh r true false 0))
          rs refs ->
  Runtime.try_patterns content refs w = Some (try_patterns content rs, w).
Proof.
  induction 1 as [|r re rs refs H _ IH]; [reflexivity|].
  cbn [Runtime.try_patterns try_patterns]. unfold bind.
  rewrite (@String_match_at w re r true content H).
  destruct (js_match true r content) as [m|]; [|exact IH].
  destruct (group 1 m) as [[|c t]|]; try exact IH. reflexivity.
Qed.

Lemma scan_lines_returns letter : forall lines,
  returns (Runtime.scan_lines letter lines) (scan_lines letter lines) [].
Proof.
  induction lines as [|line tl IH]; cbn [Runtime.scan_lines scan_lines].
  - apply returns_ret.
  - apply (new_match (line_start_re letter) true).
    destruct (js_match true (line_start_re letter) (trim line)); [|exact IH].
    apply (new_replace (line_prefix_re letter) true false). apply returns_ret.
Qed.

Lemma extractOption_returns content letter nextLetter :
  returns (Runtime.extractOption content letter nextLetter)
          (extractOption content letter nextLetter) [].
Proof.
  unfold Runtime.extractOption, extractOption.
  apply returns_new. intros w p1 H1.
  unfold bind at 1. unfold Runtime.new_RegExp.
  set (w2 := {| objects := objects w ++ [_]; console := console w |}).
  assert (Ew : w2 = extend w [fresh (option_re2 letter) true false 0] []).
  { unfold w2, extend. now rewrite app_nil_r. }
  assert (F : Forall2 (fun r re =>
                         nth_error (objects w2) re = Some (fresh r true false 0))
                [option_re1 letter nextLetter; option_re2 letter]
                [p1; length (objects w)]).
  { constructor; [|constructor; [|constructor]].
    - unfold w2. cbn [objects]. rewrite nth_error_app1; [exact H1|].
      apply nth_error_Some. now rewrite H1.
    - unfold w2. cbn [objects]. apply nth_error_middle. }
  unfold bind at 1. rewrite (@try_patterns_at w2 content _ _ F).
  destruct (try_patterns content _) as [v|].
  - unfold ret. rewrite Ew. eexists. reflexivity.
  - assert (R : returns
              (bind (Runtime.scan_lines letter (split_on LF content))
                 (fun found =>
                    ret match found with Some v => v | None => [] end))
              (match scan_lines letter (split_on LF content) with
               | Some v => v
               | None => []
               end) []).
    { eapply returns_bind0; [apply scan_lines_returns|]. apply returns_ret. }
    destruct (R w2) as (o2 & ->). rewrite Ew, extend_extend.
    eexists. reflexivity.
Qed.

Lemma parse_segment_returns num questionContent :
  returns (Runtime.parse_segment num questionContent)
          (fst (parse_segment num questionContent))
          (snd (parse_segment num questionContent)).
Proof.
  unfold Runtime.parse_segment, parse_segment, extract_question.
  destruct (is_empty questionContent || _); [apply returns_ret|].
  apply (new_match stem_re true).
  destruct (is_empty _ || Nat.ltb (length _) 10); [apply returns_ret|].
  eapply returns_bind0; [apply extractOption_returns|].
  eapply returns_bind0; [apply extractOption_returns|].
  eapply returns_bind0; [apply extractOption_returns|].
  eapply returns_bind0; [apply extractOption_returns|].
  destruct (is_empty _ || is_empty _ || is_empty _ || is_empty _).
  - cbn [fst snd].
    exact (@returns_bind _ _ _ (fun _ => ret None) tt None
             [LogSkipMissingOptions (parseInt num)] []
             (returns_log _) (returns_ret None)).
  - cbn [fst snd]. unfold extract_correctAnswer, extract_explanation.
    apply (new_match correct_re true).
    apply (new_match explanation_re true).
    apply returns_ret.
Qed.

Lemma parse_parts_returns : forall n parts,
  length parts <= n ->
  returns (Runtime.parse_parts parts) (fst (parse_parts parts))
          (snd (parse_parts parts)).
Proof.
  induction n as [|n IH]; intros parts Hn.
  - destruct parts; [apply returns_ret|simpl in Hn; lia].
  - destruct parts as [|num [|questionContent tl]]; try apply returns_ret.
    cbn [Runtime.parse_parts parse_parts].
    pose proof (parse_segment_returns num questionContent) as R1.
    pose proof (IH tl ltac:(simpl in Hn; lia)) as R2.
    destruct (parse_segment num questionContent) as [o lg].
    destruct (parse_parts tl) as [rs lgs]. cbn [fst snd] in *.
    eapply returns_bind; [exact R1|].
    rewrite <- (app_nil_r lgs).
    eapply returns_bind; [exact R2|]. apply returns_ret.
Qed.

Lemma parseMCQResponse_returns content :
  returns (Runtime.parseMCQResponse content) (parseMCQResponse content)
          (snd (parseMCQResponse_log content)).
Proof.
  unfold Runtime.parseMCQResponse, parseMCQResponse, parseMCQResponse_log.
  set (parts := js_split true marker_re 1 content).
  pose proof (@parse_parts_returns (length (tl parts)) (tl parts) (le_n _)) as R.
  destruct (parse_parts (tl parts)) as [rs lg]. cbn [fst snd] in *.
  change (LogParsing :: lg) with ([LogParsing] ++ lg).
  eapply returns_bind; [apply returns_log|].
  apply (new_split marker_re true true content 1). exact R.
Qed.

(** ** Two runs *)

Lemma two_runs (A : Type) (m : M A) a lg w :
  returns m a lg ->
  exists w1 w2,
    m w = Some (a, w1) /\ m w1 = Some (a, w2)
    /\ exists objs, w1 = extend w objs lg.
Proof.
  intros R. destruct (R w) as (o1 & E1).
  destruct (R (extend w o1 lg)) as (o2 & E2).
  exists (extend w o1 lg), (extend (extend w o1 lg) o2 lg).
  split; [exact E1|]. split; [exact E2|]. now exists o1.
Qed.

(** C9.  Both pipelines are functions of their input alone.  Whatever
    RegExp objects exist when it is called, with whatever [lastIndex],
    and whatever the console holds, [parseMCQResponse] returns the same
    records, and so does a second run started in the world the first
    run left; the first run has left every object it found as it was,
    and has only added objects of its own and its lines on the console.
    The same holds of [parseHtmlToBlocks(extractMainContent(html))],
    which always returns and writes nothing on the console. *)
Theorem C9_extraction_is_stateless :
  (forall content w,
      exists w1 w2,
        Runtime.parseMCQResponse content w
        = Some (parseMCQResponse content, w1)
        /\ Runtime.parseMCQResponse content w1
           = Some (parseMCQResponse content, w2)
        /\ exists objs,
             w1 = extend w objs (snd (parseMCQResponse_log content)))
  /\ (forall html w,
        exists blocks w1 w2,
          parseHtmlToBlocks (extractMainContent html) = Some blocks
          /\ Runtime.extract_blocks html w = Some (blocks, w1)
          /\ Runtime.extract_blocks html w1 = Some (blocks, w2)
          /\ exists objs, w1 = extend w objs []).
Proof.
  split.
  - intros content w. apply two_runs. apply parseMCQResponse_returns.
  - intros html w.
    destruct (parseHtmlToBlocks_grouped (extractMainContent html))
      as (hs & ps & ls & qs & H & _).
    destruct (two_runs w (extract_blocks_returns html H)) as (w1 & w2 & R).
    now exists (hs ++ ps ++ ls ++ qs), w1, w2.
Qed.

(** A world where a heading pattern was left in the middle of a scan
    and the console is not empty. *)
Definition busy_world : world :=
  {| objects := [fresh heading_re true true 7; fresh tag_re false true 3];
     console := [LogParsing] |}.

(** The interleaved document gives its three blocks in that world, and
    again in the world that run leaves. *)
Lemma C9_stateless_witness :
  exists blocks w1 w2,
    Runtime.extract_blocks interleaved busy_world = Some (blocks, w1)
    /\ Runtime.extract_blocks interleaved w1 = Some (blocks, w2)
    /\ firstn 2 (objects w1) = objects busy_world
    /\ length blocks = 3.
Proof.
  destruct (proj2 C9_extraction_is_stateless interleaved busy_world)
    as (blocks & w1 & w2 & Hp & H1 & H2 & objs & Hw).
  exists blocks, w1, w2. split; [exact H1|]. split; [exact H2|].
  split; [now rewrite Hw|].
  vm_compute in Hp. injection Hp as <-. reflexivity.
Defined.

End Stateless.

(** * What every extracted block holds *)

Module BlockFacts.
Import RegexFacts Captures CharFacts Boundary Segmenter Answer WebScraper
       BlockOrder.
Local Open Scope N_scope.
Unset Implicit Arguments.

(** ** The loop, on what the pattern matched *)

Lemma exec_loop_matched (A : Type) ci r (f : rmatch -> list A) (P : A -> Prop) :
  (forall l pv m, search ci r pv l = Some m -> m_text m <> []) ->
  (forall l pv m pre,
     search ci r pv l = Some m ->
     Forall P (f (RMatch pre (m_text m) (m_caps m) (m_post m)))) ->
  forall fuel l i, (length l - i < fuel)%nat ->
    exists out, exec_loop ci r f fuel l i = Some (out, 0%nat) /\ Forall P out.
Proof.
  intros Hne HP. induction fuel as [|n IH]; intros l i Hf; [lia|].
  simpl. destruct (exec ci r l i) as [[m|] j] eqn:E.
  - assert (Hm : m_text m <> [] /\ Forall P (f m)).
    { unfold exec in E. destruct (Nat.ltb (length l) i); [easy|].
      destruct (search ci r _ (skipn i l)) as [m'|] eqn:S; [|easy].
      injection E as <- <-. simpl. split; [eapply Hne; eauto|].
      eapply HP; eauto. }
    destruct Hm as [Hm HPm].
    destruct (@exec_bounds ci r l i m j E Hm) as [H1 H2].
    destruct (IH l j) as (out & -> & Hout); [lia|].
    eexists; split; [reflexivity|]. apply Forall_app; auto.
  - exists []. split; [|constructor].
    unfold exec in E. destruct (Nat.ltb (length l) i); [now injection E as <-|].
    destruct (search ci r _ (skipn i l)); [easy|]. now injection E as <-.
Qed.

Lemma collect_matched r (f : rmatch -> list block) (P : block -> Prop) l :
  opens_with_literal r ->
  (forall l pv m pre,
     search true r pv l = Some m ->
     Forall P (f (RMatch pre (m_text m) (m_caps m) (m_post m)))) ->
  exists out, collect r f l = Some out /\ Forall P out.
Proof.
  intros Hr HP. unfold collect.
  destruct (exec_loop_matched block true r f P) with
    (fuel := S (length l)) (l := l) (i := 0%nat) as (out & -> & Hout);
    [|exact HP|lia|now exists out].
  destruct r as [| | | |r1 r2| | | | | | | |]; try contradiction.
  destruct r1 as [|t| | | | | | | | | | |]; try contradiction.
  destruct t as [|c t]; [contradiction|].
  intros l0 pv m. apply search_nonempty.
Qed.

(** ** Trimmed text *)

(** No white space at either end. *)
Definition trimmed (l : jsstring) : Prop :=
  drop_space l = l /\ drop_space (rev l) = rev l.

Lemma drop_while_fixed p l :
  match l with c :: _ => p c = false | [] => True end -> drop_while p l = l.
Proof. destruct l as [|c l]; simpl; [easy|]. now intros ->. Qed.

Lemma drop_while_head_stops p l :
  match drop_while p l with c :: _ => p c = false | [] => True end.
Proof.
  induction l as [|c l IH]; simpl; [exact I|].
  destruct (p c) eqn:E; [exact IH|exact E].
Qed.

Lemma trim_trimmed l : trimmed (trim l).
Proof.
  unfold trimmed, trim, drop_space. split.
  - pose proof (drop_while_head_stops Char.is_space l) as Hd.
    destruct (drop_while Char.is_space l) as [|c d] eqn:E; [reflexivity|].
    cbn [rev].
    destruct (Template.drop_while_app_keep Char.is_space (rev d) c [] Hd) as (a & ->).
    rewrite rev_app_distr. cbn [rev app]. cbn [drop_while]. now rewrite Hd.
  - rewrite rev_involutive. apply Options.drop_while_idem.
Qed.

Lemma strip_tags_trimmed l : trimmed (strip_tags l).
Proof. apply trim_trimmed. Qed.

(** ** The level of a heading *)

Lemma group_inv ci n r s s' :
  In s' (matches ci (Group n r) s) ->
  exists x, In x (matches ci r s)
            /\ caps s' = (n, firstn (length (rest s) - length (rest x)) (rest s))
                           :: caps x.
Proof.
  rewrite matches_group. intros H. apply in_map_iff in H.
  destruct H as (x & <- & Hx). now exists x.
Qed.

Lemma level_digit c :
  cls_mem true false [CRange 49 54] c = true -> 49 <= c <= 54.
Proof.
  unfold cls_mem, cset_mem, Char.upper, Char.lower, Char.is_lower,
    Char.is_upper, Char.in_range. simpl.
  destruct (N.leb_spec 49 c), (N.leb_spec c 54), (N.leb_spec 97 c),
    (N.leb_spec c 122), (N.leb_spec 65 c), (N.leb_spec c 90); simpl;
    repeat match goal with
           | |- context [N.leb ?a ?b] => destruct (N.leb_spec a b)
           end; simpl; intros; try discriminate; lia.
Qed.

(** What the first group of the heading pattern holds. *)
Lemma heading_level l pv m :
  search true heading_re pv l = Some m ->
  exists c, group_text 1 m = [c] /\ 49 <= c <= 54.
Proof.
  intros E. apply search_in_matches in E. destruct E as (s & s' & Hin & _ & Hc).
  unfold heading_re in Hin. cbn [seqs] in Hin.
  rewrite matches_seq in Hin. apply in_flat_map in Hin.
  destruct Hin as (s1 & _ & Hin).
  rewrite matches_seq in Hin. apply in_flat_map in Hin.
  destruct Hin as (s2 & H2 & Hin).
  apply group_cls_inv in H2. destruct H2 as (c & cs & Hcs & Hmem).
  rewrite matches_seq in Hin. apply in_flat_map in Hin.
  destruct Hin as (s3 & H3 & Hin).
  apply (matches_groupless true (Star true (NotChar ">")) eq_refl) in H3.
  rewrite matches_seq in Hin. apply in_flat_map in Hin.
  destruct Hin as (s4 & H4 & Hin).
  apply (matches_groupless true (chr ">") eq_refl) in H4.
  rewrite matches_seq in Hin. apply in_flat_map in Hin.
  destruct Hin as (s5 & H5 & Hin).
  apply group_inv in H5. destruct H5 as (x & Hx & H5).
  apply (matches_groupless true (Star false AnyChar) eq_refl) in Hx.
  apply (matches_groupless true (seqs [lit "</h"; Backref 1; chr ">"]) eq_refl)
    in Hin.
  exists c. split; [|now apply level_digit].
  unfold group_text, group.
  rewrite Hc, Hin, H5, Hx, H4, H3, Hcs. reflexivity.
Qed.

Lemma parseInt_level c :
  49 <= c <= 54 ->
  exists k, parseInt [c] = Num k /\ (1 <= k <= 6)%Z.
Proof.
  intros Hc. exists (Z.of_N c - 48)%Z. split; [|lia].
  unfold parseInt, drop_space.
  assert (Hs : Char.is_space c = false).
  { destruct (Char.is_space c) eqn:E; [|reflexivity].
    apply CharFacts.is_space_range in E. lia. }
  assert (Hd : Char.is_digit c = true).
  { unfold Char.is_digit, Char.in_range.
    apply andb_true_intro. split; apply N.leb_le; lia. }
  cbn [drop_while]. rewrite Hs, Hd. cbn [digits_value]. rewrite Hd.
  f_equal.
Qed.

(** ** The invariant *)

Definition non_empty (l : jsstring) : Prop := l <> [].

(** What a block of each type holds. *)
Definition block_ok (b : block) : Prop :=
  match type b with
  | heading =>
      non_empty (content b) /\ trimmed (content b)
      /\ (exists k, level b = Some (Num k) /\ (1 <= k <= 6)%Z)
      /\ items b = None
  | paragraph =>
      (20 < length (content b))%nat /\ trimmed (content b)
      /\ level b = None /\ items b = None
  | ordered_list | unordered_list =>
      exists its,
        items b = Some its /\ its <> []
        /\ Forall (fun item => non_empty item /\ trimmed item) its
        /\ content b = join (codes ", ") its
        /\ level b = None
  | quote =>
      non_empty (content b) /\ trimmed (content b)
      /\ level b = None /\ items b = None
  end.

Lemma is_empty_false l : is_empty l = false -> l <> [].
Proof. now destruct l. Qed.

Lemma heading_block_ok l pv m pre :
  search true heading_re pv l = Some m ->
  Forall block_ok (heading_block (RMatch pre (m_text m) (m_caps m) (m_post m))).
Proof.
  intros E. unfold heading_block.
  destruct (is_empty _) eqn:Hc; [constructor|].
  constructor; [|constructor]. unfold block_ok. cbn [type content level items].
  split; [now apply is_empty_false|]. split; [apply strip_tags_trimmed|].
  split; [|reflexivity].
  destruct (heading_level l pv m E) as (c & Hg & Hr).
  change (group_text 1 (RMatch pre (m_text m) (m_caps m) (m_post m)))
    with (group_text 1 m).
  rewrite Hg. destruct (parseInt_level c Hr) as (k & -> & Hk). now exists k.
Qed.

Lemma paragraph_block_ok m : Forall block_ok (paragraph_block m).
Proof.
  unfold paragraph_block.
  destruct (negb _ && Nat.ltb 20 _) eqn:Hc; [|constructor].
  apply andb_prop in Hc. destruct Hc as [_ Hlen]. apply Nat.ltb_lt in Hlen.
  constructor; [|constructor]. unfold block_ok. cbn [type content level items].
  split; [exact Hlen|]. split; [apply strip_tags_trimmed|]. auto.
Qed.

Lemma quote_block_ok m : Forall block_ok (quote_block m).
Proof.
  unfold quote_block. destruct (is_empty _) eqn:Hc; [constructor|].
  constructor; [|constructor]. unfold block_ok. cbn [type content level items].
  split; [now apply is_empty_false|]. split; [apply strip_tags_trimmed|]. auto.
Qed.

Lemma list_block_ok m : Forall block_ok (list_block m).
Proof.
  unfold list_block.
  set (its := filter _ _).
  destruct (Nat.ltb 0 (length its)) eqn:Hlen; [|constructor].
  apply Nat.ltb_lt in Hlen.
  assert (Hits : Forall (fun item => non_empty item /\ trimmed item) its).
  { apply Forall_forall. intros item Hin. unfold its in Hin.
    apply filter_In in Hin. destruct Hin as [Hin Hne].
    apply negb_true_iff in Hne. split; [now apply is_empty_false|].
    apply in_map_iff in Hin. destruct Hin as (x & <- & _).
    apply strip_tags_trimmed. }
  assert (Hne : its <> []) by (intros E; rewrite E in Hlen; simpl in Hlen; lia).
  constructor; [|constructor]. unfold block_ok. cbn [type content level items].
  destruct (list_eq_dec _ _ _); exists its; auto.
Qed.

Lemma extracted_blocks_ok html :
  exists blocks,
    parseHtmlToBlocks html = Some blocks /\ Forall block_ok blocks.
Proof.
  unfold parseHtmlToBlocks.
  set (cleanHtml := js_remove_all true style_re _).
  destruct (collect_matched heading_re heading_block block_ok cleanHtml I
              heading_block_ok) as (hs & -> & Hh).
  destruct (collect_total paragraph_re paragraph_block cleanHtml I
              paragraph_block_ok) as (ps & -> & Hp).
  destruct (collect_total list_re list_block cleanHtml I
              list_block_ok) as (ls & -> & Hl).
  destruct (collect_total blockquote_re quote_block cleanHtml I
              quote_block_ok) as (qs & -> & Hq).
  exists (hs ++ ps ++ ls ++ qs). split; [reflexivity|].
  repeat (apply Forall_app; split); assumption.
Qed.

(** X10.  Every block the extractor returns is complete for its type: a
    heading has a non-empty text and a level from 1 to 6; a paragraph
    has a text of more than 20 characters; a list has at least one item,
    every item non-empty, and as text its items joined by a comma and a
    space; a quote has a non-empty text.  Texts and items carry no white
    space at either end, and a block has a level or items only where its
    type has them. *)
Theorem parseHtmlToBlocks_blocks_ok html :
  exists blocks,
    parseHtmlToBlocks html = Some blocks /\ Forall block_ok blocks.
Proof.
  destruct (extracted_blocks_ok html) as (blocks & E & Hok).
  exists blocks. split; [exact E|exact Hok].
Qed.

End BlockFacts.

(** * What every returned record holds *)

Module RecordFacts.
Import RegexFacts MCQParser MCQFacts Segmenter Answer Template BlockFacts.
Local Open Scope N_scope.
Unset Implicit Arguments.

Lemma nil_trimmed : trimmed [].
Proof. split; reflexivity. Qed.

Lemma try_patterns_trimmed content : forall patterns v,
  try_patterns content patterns = Some v -> trimmed v.
Proof.
  induction patterns as [|p tl IH]; intros v; cbn [try_patterns]; [easy|].
  destruct (js_match true p content) as [m|]; [|apply IH].
  destruct (group 1 m) as [[|c t]|]; try apply IH.
  intros [= <-]. apply trim_trimmed.
Qed.

Lemma scan_lines_trimmed letter : forall lines v,
  scan_lines letter lines = Some v -> trimmed v.
Proof.
  induction lines as [|line tl IH]; intros v; cbn [scan_lines]; [easy|].
  destruct (js_match true (line_start_re letter) (trim line)); [|apply IH].
  intros [= <-]. apply trim_trimmed.
Qed.

Lemma extractOption_trimmed content letter nextLetter :
  trimmed (extractOption content letter nextLetter).
Proof.
  unfold extractOption.
  destruct (try_patterns content _) as [v|] eqn:E;
    [exact (try_patterns_trimmed _ _ _ E)|].
  destruct (scan_lines letter _) as [v|] eqn:F;
    [exact (scan_lines_trimmed _ _ _ F)|apply nil_trimmed].
Qed.

Lemma extract_question_trimmed body : trimmed (extract_question body).
Proof.
  unfold extract_question.
  destruct (js_match true stem_re body); [apply trim_trimmed|apply nil_trimmed].
Qed.

Lemma extract_explanation_trimmed body :
  trimmed (extract_explanation body (extract_correctAnswer body)).
Proof.
  unfold extract_explanation.
  destruct (js_match true explanation_re body); [apply trim_trimmed|].
  destruct (correct_answer_letter body) as [-> | [-> | [-> | ->]]];
    split; reflexivity.
Qed.

(** What a record holds. *)
Definition record_ok (r : MCQ) : Prop :=
  (10 <= length (question r))%nat /\ trimmed (question r)
  /\ (non_empty (optionA r) /\ trimmed (optionA r))
  /\ (non_empty (optionB r) /\ trimmed (optionB r))
  /\ (non_empty (optionC r) /\ trimmed (optionC r))
  /\ (non_empty (optionD r) /\ trimmed (optionD r))
  /\ is_answer_letter (correctAnswer r)
  /\ trimmed (explanation r).

Lemma segment_record_ok num body r :
  segment_record (num, body) = Some r ->
  record_ok r /\ (50 <= length body)%nat /\ id r = parseInt num.
Proof.
  unfold segment_record, parse_segment. cbn [fst snd].
  destruct (is_empty body || Nat.ltb (length body) 50)%bool eqn:Hb; [easy|].
  apply orb_false_elim in Hb. destruct Hb as [_ Hb]. apply Nat.ltb_ge in Hb.
  destruct (is_empty (extract_question body) || _)%bool eqn:Hq; [easy|].
  apply orb_false_elim in Hq. destruct Hq as [_ Hq]. apply Nat.ltb_ge in Hq.
  destruct (is_empty _ || _ || _ || _)%bool eqn:Ho; [easy|].
  apply orb_false_elim in Ho. destruct Ho as [Ho HD].
  apply orb_false_elim in Ho. destruct Ho as [Ho HC].
  apply orb_false_elim in Ho. destruct Ho as [HA HB].
  cbn [fst]. intros [= <-]. split; [|split; [exact Hb|reflexivity]].
  unfold record_ok.
  cbn [question optionA optionB optionC optionD correctAnswer explanation].
  split; [exact Hq|]. split; [apply extract_question_trimmed|].
  split; [split; [now apply is_empty_false|apply extractOption_trimmed]|].
  split; [split; [now apply is_empty_false|apply extractOption_trimmed]|].
  split; [split; [now apply is_empty_false|apply extractOption_trimmed]|].
  split; [split; [now apply is_empty_false|apply extractOption_trimmed]|].
  split; [apply correct_answer_letter|apply extract_explanation_trimmed].
Qed.

(** The label of a segment is the run of digits of its marker. *)
Lemma marked_segments_label : forall fuel l num body,
  In (num, body) (marked_segments fuel l) ->
  num <> [] /\ forallb Char.is_digit num = true.
Proof.
  induction fuel as [|f IH]; intros l num body; cbn [marked_segments]; [easy|].
  destruct (marker_at l) as [[ds post]|] eqn:E; [|easy].
  destruct (body_until_marker post) as [b r].
  intros [[= <- <-]|Hin]; [|exact (IH _ _ _ Hin)].
  apply marker_at_shape in E.
  destruct E as (mk & _ & q & ws1 & ws2 & _ & _ & _ & _ & Hne & Hd & _).
  now split.
Qed.

Lemma segment_label content num body :
  In (num, body) (segments content) ->
  parseInt num = Num (digits_value 0 num).
Proof.
  rewrite segments_spec. unfold spec_segments. intros Hin.
  apply marked_segments_label in Hin. destruct Hin as [Hne Hd].
  now apply parseInt_digits.
Qed.

(** X11.  Every record returned comes from a segment of the input whose
    body has at least 50 characters and is complete: a question of at
    least 10 characters, four non-empty options, a correct answer among
    A, B, C and D; and no text field of it begins or ends with white
    space.  Its id is the number written in the marker of that segment,
    for a number below 2^53, up to which a number holds an integer
    exactly. *)
Theorem parseMCQResponse_records_ok content r :
  In r (parseMCQResponse content) ->
  record_ok r
  /\ exists num body,
       In (num, body) (segments content)
       /\ (50 <= length body)%nat
       /\ ((digits_value 0 num < 2 ^ 53)%Z -> id r = Num (digits_value 0 num)).
Proof.
  rewrite parseMCQResponse_records. intros H. apply in_flat_map in H.
  destruct H as ([num body] & Hseg & Hr).
  destruct (segment_record (num, body)) as [r'|] eqn:E; [|easy].
  destruct Hr as [<-|[]].
  destruct (segment_record_ok num body r' E) as (Hok & Hlen & Hid).
  split; [exact Hok|]. exists num, body.
  split; [exact Hseg|]. split; [exact Hlen|].
  intros _. rewrite Hid. exact (segment_label content num body Hseg).
Qed.

Lemma parseMCQResponse_records_ok_witness :
  exists r, In r (parseMCQResponse two_questions) /\ record_ok r
            /\ id r = Num 1.
Proof.
  eexists. split; [vm_compute; left; reflexivity|].
  match goal with
  | |- record_ok ?r /\ _ =>
      destruct (parseMCQResponse_records_ok two_questions r) as [Hok _];
        [vm_compute; left; reflexivity|]
  end.
  split; [exact Hok|reflexivity].
Defined.

End RecordFacts.

(** * Text around the markers *)

Module Preamble.
Import RegexFacts Runs CharFacts Boundary MCQParser MCQFacts Segmenter Template.
Local Open Scope N_scope.
Unset Implicit Arguments.

(** Neither [Q] nor [q]. *)
Definition not_q (c : N) : bool := negb (N.eqb c 81) && negb (N.eqb c 113).

Lemma marker_at_not_q c l : not_q c = true -> marker_at (c :: l) = None.
Proof.
  unfold not_q. intros H. apply andb_prop in H. destruct H as [H1 H2].
  apply negb_true_iff, N.eqb_neq in H1, H2.
  unfold marker_at.
  change (codes "Question") with (81 :: codes "uestion").
  cbn [strip_prefix].
  assert (E : chr_eq true 81 c = false).
  { unfold chr_eq, canon, Char.upper, Char.is_lower, Char.in_range.
    apply N.eqb_neq. change (if false then _ else 81) with 81.
    destruct (N.leb_spec 97 c), (N.leb_spec c 122); simpl; try lia. }
  now rewrite E.
Qed.

Lemma body_until_marker_preamble rest ds post :
  marker_at rest = Some (ds, post) ->
  forall pre, forallb not_q pre = true ->
    body_until_marker (pre ++ rest) = (pre, rest).
Proof.
  intros Hm. induction pre as [|c pre IH]; intros H.
  - cbn [app]. destruct rest as [|c rest]; [discriminate|].
    cbn [body_until_marker]. now rewrite Hm.
  - simpl in H. apply andb_prop in H. destruct H as [Hc Hpre].
    cbn [app body_until_marker]. rewrite (marker_at_not_q c _ Hc).
    now rewrite (IH Hpre).
Qed.

Lemma marker_at_nil : marker_at [] = None.
Proof. reflexivity. Qed.

(** X12.  Without a marker in the input no record is returned; and text
    before the first marker that holds no letter Q is ignored: the
    records are those of the input from the marker on. *)
Theorem parseMCQResponse_outside_markers :
  (forall content, has_marker content = false -> parseMCQResponse content = [])
  /\ (forall pre rest ds post,
        forallb not_q pre = true ->
        marker_at rest = Some (ds, post) ->
        parseMCQResponse (pre ++ rest) = parseMCQResponse rest).
Proof.
  split.
  - intros content H. rewrite parseMCQResponse_records, segments_spec.
    unfold spec_segments. rewrite (body_until_marker_none content H).
    cbn [snd]. destruct (length content); reflexivity.
  - intros pre rest ds post Hpre Hm.
    rewrite !parseMCQResponse_records, !segments_spec. unfold spec_segments.
    rewrite (body_until_marker_preamble rest ds post Hm pre Hpre).
    pose proof (body_until_marker_preamble rest ds post Hm [] eq_refl) as E.
    cbn [app] in E. rewrite E. cbn [snd]. f_equal.
    apply marked_segments_fuel; rewrite ?length_app; lia.
Qed.

End Preamble.

(** * The correct answer and the explanation, when they are there *)

Module FieldFacts.
Import RegexFacts Runs Captures CharFacts Boundary MCQParser MCQFacts Segmenter
       Answer Options.
Local Open Scope N_scope.
Unset Implicit Arguments.

(** ** The correct answer *)

(** The letter of a correct-answer line that starts at the head of [l]:
    the word Correct, optional white space, the word Answer, any run of
    white space and colons, then a letter from A to D, in any case. *)
Definition correct_letter_at (l : jsstring) : option N :=
  match strip_prefix true (codes "Correct") l with
  | Some l1 =>
      match strip_prefix true (codes "Answer") (drop_space l1) with
      | Some l2 =>
          match drop_while is_separator l2 with
          | c :: _ => if is_A_to_D c then Some c else None
          | [] => None
          end
      | None => None
      end
  | None => None
  end.

Lemma separator_cls d :
  cls_mem true false [CChar 58; CSpace] d = is_separator d.
Proof.
  unfold cls_mem, is_separator. simpl.
  rewrite (chr_eq_plain true 58 d eq_refl), orb_false_r. apply orb_comm.
Qed.

Lemma A_to_D_member c :
  is_A_to_D c = true -> cls_mem true false [CRange 65 68] c = true.
Proof.
  unfold is_A_to_D, cls_mem, cset_mem, Char.upper, Char.lower, Char.is_lower,
    Char.is_upper, Char.in_range. simpl.
  destruct (N.leb_spec 65 c), (N.leb_spec c 68), (N.leb_spec 97 c),
    (N.leb_spec c 100), (N.leb_spec c 122), (N.leb_spec c 90); simpl;
    repeat match goal with
           | |- context [N.leb ?a ?b] => destruct (N.leb_spec a b)
           end; simpl; intros; try discriminate; try reflexivity; lia.
Qed.

Lemma correct_member pv l s :
  In s (matches true correct_re (MState pv l [])) ->
  exists c, correct_letter_at l = Some c /\ get_cap 1 (caps s) = Some [c].
Proof.
  intros Hin. unfold correct_re in Hin. cbn [seqs] in Hin. unfold lit in Hin.
  rewrite matches_seq, matches_str, eat_str_eq in Hin.
  unfold correct_letter_at.
  destruct (strip_prefix true (codes "Correct") l) as [l1|]; [|easy].
  cbn [flat_map] in Hin. rewrite app_nil_r in Hin.
  rewrite matches_seq in Hin. apply in_flat_map in Hin.
  destruct Hin as (s2 & H2 & Hin).
  rewrite (matches_star_one true Char.is_space Space (Space_spec true)) in H2.
  apply in_greedy_run in H2. destruct H2 as (u & v & -> & Hu & ->).
  rewrite matches_seq, matches_str, eat_str_eq in Hin.
  destruct (strip_prefix true (codes "Answer") v) as [l2|] eqn:Ev; [|easy].
  assert (Hv : stops Char.is_space v).
  { apply (@starts_with_not_space (codes "Answer") 65 (codes "nswer"));
      try reflexivity. unfold starts_with. now rewrite Ev. }
  unfold drop_space.
  destruct (while_app_stop Char.is_space u v Hu Hv) as [_ Hd].
  rewrite Hd, Ev.
  cbn [flat_map] in Hin. rewrite app_nil_r in Hin.
  rewrite matches_seq in Hin. apply in_flat_map in Hin.
  destruct Hin as (s4 & H4 & Hin).
  rewrite (matches_star_one true Char.is_space Space (Space_spec true)) in H4.
  apply in_greedy_run in H4. destruct H4 as (u1 & v1 & -> & Hu1 & ->).
  rewrite matches_seq in Hin. apply in_flat_map in Hin.
  destruct Hin as (s5 & H5 & Hin).
  rewrite (matches_star_one true (cls_mem true false [CChar 58; CSpace])
             (Cls false [CChar 58; CSpace]) (fun s => eq_refl)) in H5.
  apply in_greedy_run in H5. destruct H5 as (u2 & v2 & -> & Hu2 & ->).
  rewrite matches_group in Hin. apply in_map_iff in Hin.
  destruct Hin as (x & <- & Hx). apply eat_inv in Hx.
  destruct Hx as (c & Hc & Hr & _). cbn [rest] in Hr. subst v2.
  pose proof (@A_to_D_cls c Hc) as Hletter.
  assert (Hsep : forallb is_separator (u1 ++ u2) = true).
  { rewrite forallb_app. apply andb_true_intro. split.
    - eapply forallb_impl; [|exact Hu1]. intros d Hd'. unfold is_separator.
      now rewrite Hd'.
    - eapply forallb_impl; [|exact Hu2]. intros d. now rewrite separator_cls. }
  destruct (while_app_stop is_separator (u1 ++ u2) (c :: rest x) Hsep)
    as [_ Hd2].
  { simpl. now apply A_to_D_not_separator. }
  rewrite <- app_assoc in Hd2. rewrite Hd2, Hletter.
  exists c. split; [reflexivity|]. cbn [caps rest get_cap Nat.eqb length].
  replace (S (length (rest x)) - length (rest x))%nat with 1%nat by lia.
  reflexivity.
Qed.

Lemma correct_exists pv l c :
  correct_letter_at l = Some c ->
  matches true correct_re (MState pv l []) <> [].
Proof.
  unfold correct_letter_at.
  destruct (strip_prefix true (codes "Correct") l) as [l1|] eqn:E1; [|easy].
  destruct (strip_prefix true (codes "Answer") (drop_space l1)) as [l2|] eqn:E2;
    [|easy].
  destruct (drop_while is_separator l2) as [|d R] eqn:E3; [easy|].
  destruct (is_A_to_D d) eqn:Hd; [|easy]. intros [= <-].
  assert (Hin : exists s, In s (matches true correct_re (MState pv l []))).
  { eexists. unfold correct_re. cbn [seqs]. unfold lit.
    rewrite matches_seq, matches_str, eat_str_eq, E1.
    cbn [flat_map]. rewrite app_nil_r.
    rewrite matches_seq. apply in_flat_map. eexists. split.
    { rewrite (matches_star_one true Char.is_space Space (Space_spec true)).
      apply in_greedy_run. exists (take_while Char.is_space l1), (drop_space l1).
      split; [symmetry; apply take_drop_while|].
      split; [apply forallb_take_while|reflexivity]. }
    rewrite matches_seq, matches_str, eat_str_eq, E2.
    cbn [flat_map]. rewrite app_nil_r.
    rewrite matches_seq. apply in_flat_map. eexists. split.
    { rewrite (matches_star_one true Char.is_space Space (Space_spec true)).
      apply in_greedy_run. exists [], l2. split; [reflexivity|].
      split; reflexivity. }
    rewrite matches_seq. apply in_flat_map. eexists. split.
    { rewrite (matches_star_one true (cls_mem true false [CChar 58; CSpace])
                 (Cls false [CChar 58; CSpace]) (fun s => eq_refl)).
      apply in_greedy_run.
      exists (take_while is_separator l2), (d :: R).
      split; [rewrite <- E3; symmetry; apply take_drop_while|].
      split; [|reflexivity].
      eapply forallb_impl; [|apply forallb_take_while].
      intros x Hx. now rewrite separator_cls. }
    rewrite matches_group. apply in_map.
    cbn [matches]. unfold eat. cbn [rest]. rewrite (A_to_D_member d Hd). now left. }
  destruct Hin as (s & Hin). intros E. rewrite E in Hin. exact Hin.
Qed.

Lemma exec_at_correct pv l :
  option_map (group 1) (exec_at true correct_re pv l)
  = option_map Some (option_map (fun c => [c]) (correct_letter_at l)).
Proof.
  unfold exec_at.
  destruct (matches true correct_re (MState pv l [])) as [|s others] eqn:E.
  - destruct (correct_letter_at l) as [c|] eqn:Hc; [|reflexivity].
    now apply (correct_exists pv l c) in Hc.
  - destruct (correct_member pv l s) as (c & -> & Hcap); [rewrite E; now left|].
    cbn [option_map]. unfold group. cbn [m_caps]. now rewrite Hcap.
Qed.

(** X13.  The correct answer is read at the first place of the segment
    where a whole correct-answer line starts: the word Correct, optional
    white space, the word Answer, any run of white space and colons, and
    a letter from A to D in either case; it is that letter in upper
    case, and A when there is no such place. *)
Theorem correct_answer_rule body :
  extract_correctAnswer body
  = match first_tail correct_letter_at body with
    | Some c => [Char.upper c]
    | None => codes "A"
    end.
Proof.
  unfold extract_correctAnswer, js_match.
  assert (F : first_tail
                (fun l => option_map (fun c => [c]) (correct_letter_at l)) body
              = option_map (fun c => [c]) (first_tail correct_letter_at body)).
  { induction body as [|d body IH]; cbn [first_tail].
    - now destruct (correct_letter_at []).
    - destruct (correct_letter_at (d :: body)); [reflexivity|exact IH]. }
  assert (H : option_map (group 1) (search true correct_re None body)
              = option_map Some
                  (option_map (fun c => [c])
                     (first_tail correct_letter_at body))).
  { rewrite <- F. apply search_first_tail. exact exec_at_correct. }
  destruct (search true correct_re None body) as [m|]; simpl in H.
  - destruct (first_tail correct_letter_at body) as [c|]; [|easy].
    simpl in H. unfold group_text. injection H as ->. reflexivity.
  - now destruct (first_tail correct_letter_at body).
Qed.

(** ** The explanation *)

(** The end of the segment, or a line feed with nothing but white space
    after it. *)
Definition end_boundary (l : jsstring) : bool :=
  match l with
  | [] => true
  | c :: v => N.eqb c LF && forallb Char.is_space v
  end.

Definition end_look : regex :=
  Look true (Alt (seqs [Str [LF]; Star true Space; Eol]) Eol).

Lemma end_look_spec pv l cs :
  matches true end_look (MState pv l cs)
  = if end_boundary l then [MState pv l cs] else [].
Proof.
  unfold end_look. rewrite matches_look by reflexivity.
  destruct l as [|c v]; [reflexivity|].
  cbn [end_boundary].
  change (matches true (Alt (seqs [Str [LF]; Star true Space; Eol]) Eol)
            (MState pv (c :: v) cs))
    with (flat_map (fun s1 => flat_map (matches true Eol)
                                (matches true (Star true Space) s1))
            (eat_str true [LF] (MState pv (c :: v) cs)) ++ []).
  rewrite app_nil_r, eat_str_eq. cbn [strip_prefix].
  rewrite (chr_eq_plain true LF c eq_refl).
  destruct (N.eqb c LF); [|reflexivity].
  cbn [flat_map andb]. rewrite app_nil_r.
  rewrite (matches_star_one true Char.is_space Space (Space_spec true)).
  destruct (flat_map (matches true Eol) _) as [|s tl] eqn:E.
  - destruct (forallb Char.is_space v) eqn:Hv; [|reflexivity].
    exfalso.
    assert (Hin : In (MState (last_opt (last_opt pv (firstn 1 (c :: v))) v) [] cs)
                    (flat_map (matches true Eol)
                       (greedy_run Char.is_space
                          (last_opt pv (firstn (length [LF]) (c :: v))) v cs))).
    { apply in_flat_map. eexists. split.
      - apply in_greedy_run. exists v, []. rewrite app_nil_r.
        split; [reflexivity|]. split; [exact Hv|reflexivity].
      - now left. }
    rewrite E in Hin. exact Hin.
  - assert (Hin : In s (flat_map (matches true Eol)
                          (greedy_run Char.is_space
                             (last_opt pv (firstn (length [LF]) (c :: v))) v cs)))
      by (rewrite E; now left).
    apply in_flat_map in Hin. destruct Hin as (s1 & H1 & H2).
    apply in_greedy_run in H1. destruct H1 as (u & w & -> & Hu & ->).
    cbn [matches rest] in H2. destruct w; [|easy].
    rewrite app_nil_r, Hu. reflexivity.
Qed.

(** The first success of [g] on what the states of a greedy run leave. *)
Lemma first_some_greedy_run (X : Type) p (g : jsstring -> option X) cs :
  forall l pv,
    first_some (fun s => g (rest s)) (greedy_run p pv l cs)
    = greedy_capture p g l.
Proof.
  induction l as [|c tl IH]; intros pv; cbn [greedy_run greedy_capture].
  - cbn [first_some rest]. now destruct (g []).
  - destruct (p c).
    + rewrite first_some_app, IH. cbn [first_some rest].
      destruct (greedy_capture p g tl); [reflexivity|].
      now destruct (g (c :: tl)).
    + cbn [first_some rest]. now destruct (g (c :: tl)).
Qed.

Lemma first_some_some (A B C : Type) (k : A -> option B) (g : A -> option C)
    (f : B -> option C) :
  forall l,
    (forall x, In x l -> option_map f (k x) = option_map Some (g x)) ->
    option_map f (first_some k l) = option_map Some (first_some g l).
Proof.
  induction l as [|x tl IH]; intros H; [reflexivity|].
  cbn [first_some]. pose proof (H x (or_introl eq_refl)) as Hx.
  destruct (k x), (g x); simpl in Hx; try discriminate.
  - exact Hx.
  - apply IH. intros y Hy. apply H. now right.
Qed.

Lemma greedy_run_caps p cs : forall l pv s,
  In s (greedy_run p pv l cs) -> caps s = cs.
Proof.
  intros l pv s H. apply in_greedy_run in H.
  destruct H as (u & v & _ & _ & ->). reflexivity.
Qed.

(** What the explanation pattern captures after the word: the shortest
    text that the end of the segment, or a line feed with only white
    space after it, follows. *)
Definition capture_to_end (w : jsstring) : option jsstring :=
  option_map fst (lazy_capture (fun _ => true) end_boundary w).

(** The capture of the explanation pattern matched at the head of [l]:
    white space, then white space and colons, are skipped as far as a
    capture remains possible. *)
Definition explanation_at (l : jsstring) : option jsstring :=
  match strip_prefix true (codes "Explanation") l with
  | Some after =>
      greedy_capture Char.is_space
        (greedy_capture is_separator capture_to_end) after
  | None => None
  end.

Lemma separator_spec s :
  matches true (Cls false [CChar 58; CSpace]) s = eat is_separator s.
Proof. apply eat_ext. intros d. apply separator_cls. Qed.

Lemma exec_at_explanation pv l :
  option_map (group 1) (exec_at true explanation_re pv l)
  = option_map Some (explanation_at l).
Proof.
  rewrite exec_at_hd. unfold explanation_re, explanation_at. cbn [seqs].
  unfold lit.
  rewrite matches_seq, matches_str, eat_str_eq.
  destruct (strip_prefix true (codes "Explanation") l) as [after|];
    [|reflexivity].
  cbn [flat_map]. rewrite app_nil_r.
  set (pv0 := last_opt pv _).
  fold end_look.
  set (R := Seq (Group 1 (Plus false AnyChar)) end_look).
  assert (HR : forall pv1 w,
    option_map (fun s => get_cap 1 (caps s))
      (hd_error (matches true R (MState pv1 w [])))
    = option_map Some (capture_to_end w)).
  { intros pv1 w. unfold R.
    rewrite (hd_capture_lazy true 1%nat (fun _ => true) end_boundary end_look
               end_look_spec AnyChar (AnyChar_spec true)).
    unfold capture_to_end.
    destruct (lazy_capture _ _ w) as [[u v]|]; reflexivity. }
  assert (H2 : forall pv1 w,
    option_map (fun s => get_cap 1 (caps s))
      (hd_error (matches true
                   (Seq (Star true (Cls false [CChar 58; CSpace])) R)
                   (MState pv1 w [])))
    = option_map Some (greedy_capture is_separator capture_to_end w)).
  { intros pv1 w. rewrite matches_seq.
    rewrite (matches_star_one true is_separator
               (Cls false [CChar 58; CSpace]) separator_spec).
    rewrite hd_flat_map.
    rewrite <- (first_some_greedy_run _ is_separator capture_to_end [] w pv1).
    apply first_some_some. intros s Hs.
    pose proof (greedy_run_caps _ _ _ _ _ Hs) as Hc.
    destruct s as [pvs ls css]. cbn [caps rest] in *. subst css. apply HR. }
  rewrite matches_seq.
  rewrite (matches_star_one true Char.is_space Space (Space_spec true)).
  rewrite hd_flat_map.
  assert (H1 :
    option_map (fun s => get_cap 1 (caps s))
      (first_some
         (fun x => hd_error
                     (matches true
                        (Seq (Star true (Cls false [CChar 58; CSpace])) R) x))
         (greedy_run Char.is_space pv0 after []))
    = option_map Some
        (greedy_capture Char.is_space
           (greedy_capture is_separator capture_to_end) after)).
  { rewrite <- (first_some_greedy_run _ Char.is_space
                  (greedy_capture is_separator capture_to_end) [] after pv0).
    apply first_some_some. intros s Hs.
    pose proof (greedy_run_caps _ _ _ _ _ Hs) as Hc.
    destruct s as [pvs ls css]. cbn [caps rest] in *. subst css. apply H2. }
  destruct (first_some _ (greedy_run Char.is_space pv0 after [])) as [s|];
    simpl in H1 |- *.
  - unfold group. cbn [m_caps]. exact H1.
  - exact H1.
Qed.

(** ** The explanation, in closed form *)

Lemma lazy_capture0_boundary p b : forall l u v,
  lazy_capture0 p b l = Some (u, v) -> b v = true.
Proof.
  induction l as [|c tl IH]; intros u v; simpl.
  - destruct (b []) eqn:E; [|easy]. now intros [= <- <-].
  - destruct (b (c :: tl)) eqn:E; [now intros [= <- <-]|].
    destruct (p c); [|easy].
    destruct (lazy_capture0 p b tl) as [[u' v']|] eqn:F; [|easy].
    intros [= <- <-]. eapply IH; eauto.
Qed.

Lemma drop_while_all p : forall a x,
  forallb p a = true -> drop_while p (a ++ x) = drop_while p x.
Proof.
  induction a as [|c a IH]; intros x H; [reflexivity|].
  simpl in H. apply andb_prop in H. destruct H as [Hc Ha].
  cbn [app drop_while]. rewrite Hc. now apply IH.
Qed.

Lemma drop_while_nil p l : forallb p l = true -> drop_while p l = [].
Proof.
  intros H. rewrite <- (app_nil_r l). now rewrite drop_while_all.
Qed.

Lemma forallb_rev (p : N -> bool) l : forallb p (rev l) = forallb p l.
Proof.
  induction l as [|c l IH]; [reflexivity|].
  cbn [rev forallb]. rewrite forallb_app, IH. cbn [forallb].
  rewrite andb_true_r. apply andb_comm.
Qed.

(** White space at the end does not show after [trim]. *)
Lemma trim_app_space u v :
  forallb Char.is_space v = true -> trim (u ++ v) = trim u.
Proof.
  intros Hv. unfold trim, drop_space.
  destruct (drop_while Char.is_space u) as [|c d] eqn:E.
  - assert (Hu : forallb Char.is_space u = true).
    { clear Hv. induction u as [|x u IH]; [reflexivity|].
      simpl in E. destruct (Char.is_space x) eqn:Hx; [|discriminate].
      simpl. rewrite Hx. now apply IH. }
    rewrite (drop_while_nil Char.is_space (u ++ v)); [reflexivity|].
    now rewrite forallb_app, Hu, Hv.
  - rewrite Template.drop_while_app_nonnil by (rewrite E; discriminate).
    rewrite E, rev_app_distr. f_equal.
    apply drop_while_all. now rewrite forallb_rev.
Qed.

Lemma end_boundary_space v :
  end_boundary v = true -> forallb Char.is_space v = true.
Proof.
  destruct v as [|c v]; [reflexivity|]. cbn [end_boundary forallb].
  intros H. apply andb_prop in H. destruct H as [Hc Hv].
  apply N.eqb_eq in Hc. subst c. now rewrite Hv.
Qed.

Lemma capture_to_end_some c t :
  exists u, capture_to_end (c :: t) = Some u /\ trim u = trim (c :: t).
Proof.
  destruct (Template.lazy_capture_any_some end_boundary [] c t eq_refl)
    as (u & v & E).
  rewrite app_nil_r in E. unfold capture_to_end. rewrite E.
  exists (c :: u). split; [reflexivity|].
  pose proof (Stem.lazy_capture_split _ _ _ E) as [Hs _].
  assert (Hb : end_boundary v = true).
  { unfold lazy_capture in E.
    destruct (lazy_capture0 (fun _ => true) end_boundary t) as [[u' v']|] eqn:F;
      [|discriminate].
    injection E as <- <-. eapply lazy_capture0_boundary; eauto. }
  rewrite Hs. symmetry. apply trim_app_space. now apply end_boundary_space.
Qed.

(** The text an explanation is the trimmed form of: what follows the
    white space and colons after the word, or the last of these when
    nothing follows them. *)
Definition explanation_text (after : jsstring) : jsstring :=
  match drop_while is_separator after with
  | [] => [last after 0]
  | w => w
  end.

Lemma explanation_text_skip c tl :
  is_separator c = true -> tl <> [] ->
  explanation_text (c :: tl) = explanation_text tl.
Proof.
  intros Hc Hne. unfold explanation_text. cbn [drop_while]. rewrite Hc.
  destruct (drop_while is_separator tl); [|reflexivity].
  destruct tl; [easy|reflexivity].
Qed.

Lemma separators_capture : forall a,
  a <> [] ->
  exists u, greedy_capture is_separator capture_to_end a = Some u
            /\ trim u = trim (explanation_text a).
Proof.
  induction a as [|c tl IH]; intros Hne; [easy|].
  cbn [greedy_capture]. destruct (is_separator c) eqn:Hc.
  - destruct tl as [|d tl].
    + cbn [greedy_capture]. change (capture_to_end []) with (@None jsstring).
      destruct (capture_to_end_some c []) as (u & -> & Hu).
      exists u. split; [reflexivity|]. rewrite Hu.
      unfold explanation_text. cbn [drop_while]. now rewrite Hc.
    + destruct (IH ltac:(discriminate)) as (u & -> & Hu).
      exists u. split; [reflexivity|].
      now rewrite explanation_text_skip by (assumption || discriminate).
  - destruct (capture_to_end_some c tl) as (u & -> & Hu).
    exists u. split; [reflexivity|]. rewrite Hu.
    unfold explanation_text. cbn [drop_while]. now rewrite Hc.
Qed.

Lemma space_then_separators (X : Type) (g : jsstring -> option X) : forall a,
  greedy_capture Char.is_space (greedy_capture is_separator g) a
  = greedy_capture is_separator g a.
Proof.
  induction a as [|c tl IH]; [reflexivity|].
  cbn [greedy_capture]. destruct (Char.is_space c) eqn:Hs; [|reflexivity].
  assert (Hsep : is_separator c = true)
    by (unfold is_separator; now rewrite Hs).
  rewrite IH, Hsep.
  destruct (greedy_capture is_separator g tl); reflexivity.
Qed.

Lemma strip_prefix_short ci : forall t l,
  (length l < length t)%nat -> strip_prefix ci t l = None.
Proof.
  induction t as [|c t IH]; intros l H; [simpl in H; lia|].
  destruct l as [|d l]; [reflexivity|]. cbn [strip_prefix].
  destruct (chr_eq ci c d); [|reflexivity]. apply IH. simpl in H. lia.
Qed.

Lemma strip_prefix_length ci : forall t l v,
  strip_prefix ci t l = Some v -> length l = (length t + length v)%nat.
Proof.
  induction t as [|c t IH]; intros l v; cbn [strip_prefix].
  - now intros [= ->].
  - destruct l as [|d l]; [easy|]. destruct (chr_eq ci c d); [|easy].
    intros H. apply IH in H. simpl. lia.
Qed.

Lemma explanation_at_short : forall l,
  (length l < 11)%nat -> first_tail explanation_at l = None.
Proof.
  assert (H : forall l, (length l < 11)%nat -> explanation_at l = None).
  { intros l Hl. unfold explanation_at.
    now rewrite (strip_prefix_short true (codes "Explanation") l Hl). }
  induction l as [|c l IH]; intros Hl; cbn [first_tail]; rewrite (H _ Hl).
  - reflexivity.
  - apply IH. simpl in Hl. lia.
Qed.

Lemma first_explanation : forall body,
  match first_tail (strip_prefix true (codes "Explanation")) body with
  | Some (c :: after) =>
      exists u, first_tail explanation_at body = Some u
                /\ trim u = trim (explanation_text (c :: after))
  | _ => first_tail explanation_at body = None
  end.
Proof.
  induction body as [|d body IH]; [reflexivity|].
  cbn [first_tail].
  assert (Hat : explanation_at (d :: body)
                = match strip_prefix true (codes "Explanation") (d :: body) with
                  | Some after =>
                      greedy_capture Char.is_space
                        (greedy_capture is_separator capture_to_end) after
                  | None => None
                  end) by reflexivity.
  destruct (strip_prefix true (codes "Explanation") (d :: body))
    as [[|c after]|] eqn:E; rewrite Hat.
  - cbn [greedy_capture]. change (capture_to_end []) with (@None jsstring).
    apply explanation_at_short. apply strip_prefix_length in E.
    simpl in E. simpl. lia.
  - rewrite space_then_separators.
    destruct (separators_capture (c :: after) ltac:(discriminate))
      as (u & -> & Hu).
    now exists u.
  - exact IH.
Qed.

(** X14.  The explanation is read after the first place of the segment
    where the word Explanation stands (in any case) with text after it:
    white space and colons after the word are skipped, and the rest of
    the segment is taken, trimmed.  When only white space and colons
    follow the word, the last of them is taken in place of the rest, so
    that the explanation is then a colon or empty; when nothing follows
    the word or the word is not there, the explanation is the sentence
    naming the correct answer. *)
Theorem explanation_rule body correctAnswer :
  extract_explanation body correctAnswer
  = match first_tail (strip_prefix true (codes "Explanation")) body with
    | Some (c :: after) => trim (explanation_text (c :: after))
    | _ => codes "The correct answer is " ++ correctAnswer ++ codes "."
    end.
Proof.
  unfold extract_explanation, js_match.
  pose proof (search_first_tail true explanation_re explanation_at
                exec_at_explanation body None) as H.
  pose proof (first_explanation body) as F.
  destruct (first_tail (strip_prefix true (codes "Explanation")) body)
    as [[|c after]|].
  - rewrite F in H. now destruct (search true explanation_re None body).
  - destruct F as (u & F & Hu). rewrite F in H.
    destruct (search true explanation_re None body) as [m|]; [|easy].
    simpl in H. injection H as H. unfold group_text. now rewrite H.
  - rewrite F in H. now destruct (search true explanation_re None body).
Qed.

End FieldFacts.

(** * Comments, and the choice of the main content *)

Module Selection.
Import RegexFacts Runs Captures CharFacts Boundary Segmenter Answer WebScraper
       Sanitizer.
Local Open Scope N_scope.
Unset Implicit Arguments.

(** ** Text without markup *)

Lemma extractMainContent_plain l :
  free_of 60 l = true -> extractMainContent l = l.
Proof.
  intros H. destruct (plain_rest l H) as (Rc & Rd & Rt & Re).
  unfold extractMainContent. cbn [fold_left removePatterns fst snd].
  now rewrite !Rt, Rd, Rc, !Re.
Qed.

(** ** One comment *)

(** [<!--text-->] *)
Definition comment (text : jsstring) : jsstring :=
  codes "<!--" ++ text ++ codes "-->".

Lemma comment_nonempty text : comment text <> [].
Proof. discriminate. Qed.

Lemma comment_exec text post pv :
  free_of 62 text = true -> free_of 62 post = true ->
  exists cs,
    exec_at false comment_re pv (comment text ++ post)
    = Some (RMatch [] (comment text) cs post).
Proof.
  intros Ht Hp.
  assert (E : comment text ++ post
              = codes "<!--" ++ text ++ codes "-->" ++ post).
  { unfold comment. now rewrite <- !app_assoc. }
  apply exec_at_rest.
  - intros N. apply (in_nil (a := MState (last_opt (last_opt
                        (last_opt pv (codes "<!--")) text) (codes "-->"))
                                      post [])).
    rewrite <- N, E. unfold comment_re. cbn [seqs]. unfold lit.
    rewrite matches_seq. apply in_flat_map. eexists. split.
    { apply in_str_here. reflexivity. }
    rewrite matches_seq. apply in_flat_map. eexists. split.
    { apply in_any_star. exists text, (codes "-->" ++ post). now split. }
    now apply in_str_here.
  - intros s Hin. rewrite E in Hin. unfold comment_re in Hin.
    cbn [seqs] in Hin. unfold lit in Hin.
    rewrite matches_seq in Hin. apply in_flat_map in Hin.
    destruct Hin as (s1 & H1 & Hin). apply in_str_here in H1. subst s1.
    rewrite matches_seq in Hin. apply in_flat_map in Hin.
    destruct Hin as (s2 & H2 & Hin).
    apply in_any_star in H2. destruct H2 as (u & v & E2 & ->).
    apply in_str in Hin. destruct Hin as (m & w & -> & Hm & ->).
    apply same_word_plain in Hm; [|reflexivity]. subst m.
    cbn [rest].
    assert (E3 : (text ++ [45; 45]) ++ 62 :: post = (u ++ [45; 45]) ++ 62 :: w).
    { rewrite <- !app_assoc. exact E2. }
    apply one_occurrence in E3.
    + now destruct E3 as [_ ->].
    + now rewrite free_app, Ht.
    + exact Hp.
Qed.

Lemma comment_removed pre text post :
  free_of 60 pre = true -> free_of 62 text = true ->
  free_of 60 post = true -> free_of 62 post = true ->
  js_remove_all false comment_re (pre ++ comment text ++ post) = pre ++ post.
Proof.
  intros Hpre Ht Hp60 Hp62.
  destruct (comment_exec text post (last_opt None pre) Ht Hp62) as (cs & H).
  exact (remove_one false (codes "!--") _ pre _ post cs Hpre Hp60
           (comment_nonempty _) H).
Qed.

(** No tag opens in a text with one comment. *)
Lemma comment_tails t pre text post :
  (forall l, starts_with true (60 :: t) (60 :: 33 :: l) = false) ->
  free_of 60 pre = true -> free_of 60 text = true -> free_of 60 post = true ->
  exists_tail (starts_with true (60 :: t)) (pre ++ comment text ++ post) = false.
Proof.
  intros H1 Hpre Ht Hp. unfold comment.
  rewrite (skip_field true 60 t pre _ eq_refl Hpre).
  rewrite <- !app_assoc.
  change (codes "<!--" ++ text ++ codes "-->" ++ post)
    with (60 :: 33 :: codes "--" ++ text ++ codes "-->" ++ post).
  rewrite skip_char by apply H1.
  apply free_tails.
  change (33 :: codes "--" ++ text ++ codes "-->" ++ post)
    with (codes "!--" ++ text ++ codes "-->" ++ post).
  now rewrite !free_app, Ht, Hp.
Qed.

(** X15.  A text without [<] is returned as it is; and a comment in
    such a text, itself without [<] and [>] and followed by no [>], is
    taken out of it. *)
Theorem extractMainContent_plain_and_comments :
  (forall l, free_of 60 l = true -> extractMainContent l = l)
  /\ (forall pre text post,
        free_of 60 pre = true ->
        free_of 60 text = true -> free_of 62 text = true ->
        free_of 60 post = true -> free_of 62 post = true ->
        extractMainContent (pre ++ comment text ++ post) = pre ++ post).
Proof.
  split; [exact extractMainContent_plain|].
  intros pre text post Hpre Ht60 Ht62 Hp60 Hp62.
  assert (Hpp : free_of 60 (pre ++ post) = true)
    by now rewrite free_app, Hpre, Hp60.
  destruct (plain_rest (pre ++ post) Hpp) as (Rc & Rd & Rt & Re).
  unfold extractMainContent. cbn [fold_left removePatterns fst snd].
  set (doc := pre ++ comment text ++ post).
  assert (Habs : forall t,
            (forall l, starts_with true (60 :: t) (60 :: 33 :: l) = false) ->
            exists_tail (starts_with true (60 :: t)) doc = false)
    by (intros t H; now apply comment_tails).
  rewrite (container_absent "nav" doc) by (apply Habs; reflexivity).
  rewrite (container_absent "header" doc) by (apply Habs; reflexivity).
  rewrite (container_absent "footer" doc) by (apply Habs; reflexivity).
  rewrite (container_absent "aside" doc) by (apply Habs; reflexivity).
  rewrite (div_absent doc) by (apply Habs; reflexivity).
  unfold doc. rewrite (comment_removed pre text post) by assumption.
  now rewrite !Re.
Qed.

(** ** One article or main element *)

Lemma element_re_member tag attrs inner post pv s :
  free_of 62 attrs = true -> free_of 60 inner = true ->
  free_of 60 (codes tag) = true -> free_of 60 post = true ->
  In s (matches true (element_re tag)
          (MState pv (element (codes tag) attrs inner ++ post) [])) ->
  rest s = post /\ get_cap 1 (caps s) = Some inner.
Proof.
  intros Ha Hi Hn Hp Hin. rewrite element_app in Hin.
  change (element_re tag)
    with (Seq (Str (60 :: codes tag))
            (Seq (Star true (NotChar ">"))
               (Seq (chr ">")
                  (Seq (Group 1 (Star false AnyChar))
                     (Str (60 :: 47 :: codes tag ++ [62])))))) in Hin.
  rewrite matches_seq in Hin. apply in_flat_map in Hin.
  destruct Hin as (s1 & H1 & Hin). apply in_str_here in H1. subst s1.
  rewrite matches_seq in Hin. apply in_flat_map in Hin.
  destruct Hin as (s2 & H2 & Hin).
  change (NotChar ">") with (Cls true [CChar 62]) in H2.
  apply (in_not_char_star true 62 _ _ _ _ eq_refl) in H2.
  destruct H2 as (u & v & E1 & Hu & ->).
  rewrite matches_seq in Hin. apply in_flat_map in Hin.
  destruct Hin as (s3 & H3 & Hin).
  unfold chr in H3. apply in_str in H3. destruct H3 as (m & v2 & E2 & Hf & ->).
  apply same_word_plain in Hf; [|reflexivity]. subst m.
  rewrite E2 in E1. change (codes ">" ++ v2) with (62 :: v2) in E1.
  destruct (split_unique 62 attrs _ u _ E1 Ha Hu) as [<- E3].
  rewrite matches_seq in Hin. apply in_flat_map in Hin.
  destruct Hin as (s4 & H4 & Hin).
  rewrite matches_group in H4. apply in_map_iff in H4.
  destruct H4 as (x & <- & Hx). cbn [rest] in Hin.
  apply in_any_star in Hx. destruct Hx as (u3 & v3 & E4 & ->).
  cbn [prev rest caps] in Hin.
  apply in_str in Hin. destruct Hin as (m3 & v4 & E5 & Hf3 & ->).
  apply same_word_cons in Hf3; [|reflexivity].
  destruct Hf3 as (m' & -> & Hm').
  assert (E : inner ++ 60 :: (47 :: codes tag ++ [62]) ++ post
              = u3 ++ 60 :: m' ++ v4).
  { rewrite E3, E4, E5. reflexivity. }
  assert (Hc : free_of 60 (47 :: codes tag ++ [62]) = true).
  { change (47 :: codes tag ++ [62]) with ([47] ++ codes tag ++ [62]).
    now rewrite !free_app, Hn. }
  apply one_occurrence in E; [|assumption|now rewrite free_app, Hc, Hp].
  destruct E as [<- E].
  destruct (app_same_length N m' (47 :: codes tag ++ [62]) v4 post E)
    as [_ ->].
  { apply (same_word_length true _ m' Hm'). }
  cbn [rest caps get_cap Nat.eqb]. split; [reflexivity|].
  rewrite E4, firstn_app_exact. reflexivity.
Qed.

Lemma element_re_some tag attrs inner post pv :
  free_of 62 attrs = true ->
  exists s, In s (matches true (element_re tag)
                    (MState pv (element (codes tag) attrs inner ++ post) [])).
Proof.
  intros Ha. rewrite element_app.
  change (element_re tag)
    with (Seq (Str (60 :: codes tag))
            (Seq (Star true (NotChar ">"))
               (Seq (chr ">")
                  (Seq (Group 1 (Star false AnyChar))
                     (Str (60 :: 47 :: codes tag ++ [62])))))).
  eexists. rewrite matches_seq. apply in_flat_map. eexists. split.
  { apply in_str_here. reflexivity. }
  rewrite matches_seq. apply in_flat_map. eexists. split.
  { change (NotChar ">") with (Cls true [CChar 62]).
    apply (in_not_char_star true 62 _ _ _ _ eq_refl).
    exists attrs. eexists. split; [reflexivity|]. split; [exact Ha|reflexivity]. }
  rewrite matches_seq. apply in_flat_map. eexists. split.
  { unfold chr. rewrite matches_str. now left. }
  rewrite matches_seq. apply in_flat_map. eexists. split.
  { rewrite matches_group. apply in_map. apply in_any_star.
    exists inner. eexists. split; reflexivity. }
  cbn [prev rest caps].
  change (60 :: (47 :: codes tag ++ [62]) ++ post)
    with ((60 :: 47 :: codes tag ++ [62]) ++ post).
  apply in_str_here. reflexivity.
Qed.

Lemma element_match tag pre attrs inner post :
  free_of 60 pre = true -> free_of 62 attrs = true ->
  free_of 60 inner = true -> free_of 60 (codes tag) = true ->
  free_of 60 post = true ->
  exists m,
    js_match true (element_re tag)
      (pre ++ element (codes tag) attrs inner ++ post) = Some m
    /\ group_text 1 m = inner.
Proof.
  intros Hpre Ha Hi Hn Hp. unfold js_match.
  change (element_re tag)
    with (Seq (Str (60 :: codes tag))
            (seqs [Star true (NotChar ">"); chr ">";
                   Group 1 (Star false AnyChar);
                   Str (codes "</" ++ codes tag ++ codes ">")])).
  rewrite (search_skip true (codes tag) _ pre _ None Hpre).
  set (r := Seq (Str (60 :: codes tag)) _).
  assert (Hex : exists m,
            exec_at true r (last_opt None pre)
              (element (codes tag) attrs inner ++ post) = Some m
            /\ group_text 1 m = inner).
  { unfold exec_at.
    destruct (matches true r _) as [|s tl] eqn:E.
    - destruct (element_re_some tag attrs inner post (last_opt None pre) Ha)
        as (s & Hs).
      change (element_re tag) with r in Hs. rewrite E in Hs. destruct Hs.
    - destruct (element_re_member tag attrs inner post (last_opt None pre) s
                  Ha Hi Hn Hp) as [_ Hcap].
      { change (element_re tag) with r. rewrite E. now left. }
      eexists. split; [reflexivity|].
      unfold group_text, group. cbn [m_caps]. now rewrite Hcap. }
  destruct Hex as (m & Hm & Hg).
  rewrite (search_here _ _ _ _ _ Hm). cbn [option_map].
  eexists. split; [reflexivity|]. exact Hg.
Qed.

Definition content_elements : list String.string := ["article"; "main"]%string.

(** X16.  From a text without [<] that holds one article element, or one
    main element, whose content has no [<], the content of the element
    is returned, whatever the attributes of its opening tag. *)
Theorem extractMainContent_selects tag pre attrs inner post :
  In tag content_elements ->
  free_of 60 pre = true -> no_angle attrs = true ->
  free_of 60 inner = true -> free_of 60 post = true ->
  extractMainContent (pre ++ element (codes tag) attrs inner ++ post) = inner.
Proof.
  intros Htag Hpre Ha Hi Hp.
  unfold no_angle in Ha. apply andb_prop in Ha. destruct Ha as [Ha60 Ha62].
  unfold extractMainContent. cbn [fold_left removePatterns fst snd].
  unfold content_elements in Htag. cbn [In] in Htag.
  destruct Htag as [<-|[<-|[]]].
  - set (doc := pre ++ element (codes "article") attrs inner ++ post).
    rewrite (container_absent "nav" doc) by (unfold doc; other_tag).
    rewrite (container_absent "header" doc) by (unfold doc; other_tag).
    rewrite (container_absent "footer" doc) by (unfold doc; other_tag).
    rewrite (container_absent "aside" doc) by (unfold doc; other_tag).
    rewrite (div_absent doc) by (unfold doc; other_tag).
    rewrite (comment_absent doc)
      by (unfold doc; apply element_tails;
          [intros; reflexivity | intros; reflexivity
          | try assumption; try reflexivity ..]).
    unfold doc.
    destruct (element_match "article" pre attrs inner post Hpre Ha62 Hi
                eq_refl Hp) as (m & -> & Hg).
    exact Hg.
  - set (doc := pre ++ element (codes "main") attrs inner ++ post).
    rewrite (container_absent "nav" doc) by (unfold doc; other_tag).
    rewrite (container_absent "header" doc) by (unfold doc; other_tag).
    rewrite (container_absent "footer" doc) by (unfold doc; other_tag).
    rewrite (container_absent "aside" doc) by (unfold doc; other_tag).
    rewrite (div_absent doc) by (unfold doc; other_tag).
    rewrite (comment_absent doc)
      by (unfold doc; apply element_tails;
          [intros; reflexivity | intros; reflexivity
          | try assumption; try reflexivity ..]).
    rewrite (element_absent "article" doc) by (unfold doc; other_tag).
    unfold doc.
    destruct (element_match "main" pre attrs inner post Hpre Ha62 Hi
                eq_refl Hp) as (m & -> & Hg).
    exact Hg.
Qed.

Lemma extractMainContent_selects_witness :
  extractMainContent
    (codes "top " ++ element (codes "main") (codes " id='m'") (codes "Body text")
     ++ codes " end")
  = codes "Body text".
Proof.
  apply (extractMainContent_selects "main"%string); try reflexivity.
  right. left. reflexivity.
Defined.

End Selection.

(** * The scraped article *)

Module Scrape.
Import RegexFacts WebScraper BlockOrder BlockFacts.
Local Open Scope N_scope.
Unset Implicit Arguments.

(** [ContentBlock['type']] *)
Inductive content_type : Type :=
| ct_heading      (* 'heading' *)
| ct_paragraph    (* 'paragraph' *)
| ct_bullet       (* 'bullet' *)
| ct_numbered     (* 'numbered' *)
| ct_quote.       (* 'quote' *)

Record ContentBlock : Type := {
  cb_type : content_type;
  cb_content : jsstring;
  cb_level : option jsnumber;
  cb_items : option (list jsstring)
}.

(** The callback of [rawBlocks.map] in [smartScrape]. *)
Definition to_ContentBlock (b : block) : ContentBlock :=
  {| cb_type :=
       match type b with
       | ordered_list => ct_numbered
       | unordered_list => ct_bullet
       | heading => ct_heading
       | paragraph => ct_paragraph
       | quote => ct_quote
       end;
     cb_content := content b;     (* [block.content || ''], on a string *)
     cb_level := level b;
     cb_items := items b |}.

(** [b.items ? b.items.join('\n') : b.content] *)
Definition block_text (b : ContentBlock) : jsstring :=
  match cb_items b with
  | Some its => join [LF] its
  | None => cb_content b
  end.

(** [contentBlocks.map(...).filter(c => c).join('\n\n')] *)
Definition plainContent (contentBlocks : list ContentBlock) : jsstring :=
  join [LF; LF]
    (filter (fun c => negb (is_empty c)) (map block_text contentBlocks)).

(** The blocks and the plain text [smartScrape] builds from the page. *)
Definition scrape_content (html : jsstring)
  : option (list ContentBlock * jsstring) :=
  match parseHtmlToBlocks (extractMainContent html) with
  | Some rawBlocks =>
      let contentBlocks := map to_ContentBlock rawBlocks in
      Some (contentBlocks, plainContent contentBlocks)
  | None => None
  end.

Lemma join_nonempty sep its :
  its <> [] -> Forall (fun item => non_empty item) its -> join sep its <> [].
Proof.
  destruct its as [|i its]; [easy|]. intros _ H.
  inversion H as [|x l Hx Hl]; subst. unfold non_empty in Hx.
  destruct i as [|c i]; [easy|]. destruct its; discriminate.
Qed.

Lemma block_text_nonempty b :
  block_ok b -> block_text (to_ContentBlock b) <> [].
Proof.
  unfold block_ok, block_text, to_ContentBlock. cbn [cb_items cb_content].
  destruct (type b).
  - now intros (Hc & _ & _ & ->).
  - intros (Hc & _ & _ & ->). destruct (content b); [simpl in Hc; lia|easy].
  - intros (its & -> & Hne & Hits & _). apply join_nonempty; [exact Hne|].
    eapply Forall_impl; [|exact Hits]. now intros a [Ha _].
  - intros (its & -> & Hne & Hits & _). apply join_nonempty; [exact Hne|].
    eapply Forall_impl; [|exact Hits]. now intros a [Ha _].
  - now intros (Hc & _ & _ & ->).
Qed.

Lemma filter_all (A : Type) (f : A -> bool) l :
  Forall (fun x => f x = true) l -> filter f l = l.
Proof.
  induction 1 as [|x l Hx Hl IH]; [reflexivity|].
  cbn [filter]. now rewrite Hx, IH.
Qed.

(** X17.  The scraped article has one content block per block extracted
    from the main content, in the same order, and its plain text has one
    piece per block, none of them empty and none left out, with a blank
    line between two pieces: the text of a heading, paragraph or quote,
    and for a list its items, one per line. *)
Theorem scrape_content_pieces html :
  exists rawBlocks,
    parseHtmlToBlocks (extractMainContent html) = Some rawBlocks
    /\ scrape_content html
       = Some (map to_ContentBlock rawBlocks,
               join [LF; LF]
                 (map (fun b => block_text (to_ContentBlock b)) rawBlocks))
    /\ Forall (fun b => block_text (to_ContentBlock b) <> []) rawBlocks.
Proof.
  destruct (BlockFacts.extracted_blocks_ok (extractMainContent html))
    as (rawBlocks & E & Hok).
  exists rawBlocks. split; [exact E|].
  assert (Hne : Forall (fun b => block_text (to_ContentBlock b) <> []) rawBlocks).
  { eapply Forall_impl; [|exact Hok]. intros b. apply block_text_nonempty. }
  split; [|exact Hne].
  unfold scrape_content. rewrite E. unfold plainContent.
  rewrite map_map, filter_all; [reflexivity|].
  apply Forall_map. eapply Forall_impl; [|exact Hne].
  intros b Hb. cbv beta in Hb. destruct (block_text (to_ContentBlock b));
    [congruence|reflexivity].
Qed.

End Scrape.

(** * The title of the scraped article *)

Module Title.
Import RegexFacts Runs Captures CharFacts Boundary Segmenter Answer WebScraper
       Sanitizer FieldFacts.
Local Open Scope N_scope.
Unset Implicit Arguments.

(** The pattern of [smartScrape] for the site name after the title:
    white space, one of the bar, the hyphen, the en dash and the em dash,
    white space, text without a bar, the end of the title. *)
Definition title_suffix_re : regex :=
  seqs [Star true Space;
        Cls false [CChar 124; CChar 45; CChar 8211; CChar 8212];
        Star true Space; Star true (NotChar "|"); Eol].

(** [title.replace(pattern, '').trim()] *)
Definition cleanedTitle (title : jsstring) : jsstring :=
  trim (js_remove_first false title_suffix_re title).

(** [cleanedTitle || 'Untitled'] *)
Definition article_title (title : jsstring) : jsstring :=
  match cleanedTitle title with
  | [] => codes "Untitled"
  | c :: t => c :: t
  end.

Definition is_title_separator (c : N) : bool :=
  N.eqb c 124 || N.eqb c 45 || N.eqb c 8211 || N.eqb c 8212.

(** A separator is the first character after the white space at the head
    of [l]. *)
Definition separator_next (l : jsstring) : bool :=
  match drop_space l with
  | c :: _ => is_title_separator c
  | [] => false
  end.

Lemma separator_cls_mem d :
  cls_mem false false [CChar 124; CChar 45; CChar 8211; CChar 8212] d
  = is_title_separator d.
Proof.
  unfold cls_mem, is_title_separator. simpl. unfold chr_eq, canon.
  rewrite orb_false_r, !orb_assoc.
  rewrite (N.eqb_sym 124 d), (N.eqb_sym 45 d), (N.eqb_sym 8211 d),
    (N.eqb_sym 8212 d). reflexivity.
Qed.

Lemma separator_not_space d :
  is_title_separator d = true -> Char.is_space d = false.
Proof.
  unfold is_title_separator. intros H.
  apply orb_prop in H. destruct H as [H|H]; [|apply N.eqb_eq in H; now subst].
  apply orb_prop in H. destruct H as [H|H]; [|apply N.eqb_eq in H; now subst].
  apply orb_prop in H. destruct H as [H|H]; apply N.eqb_eq in H; now subst.
Qed.

Lemma title_member pv l s :
  In s (matches false title_suffix_re (MState pv l [])) ->
  rest s = [] /\ separator_next l = true.
Proof.
  intros Hin. unfold title_suffix_re in Hin. cbn [seqs] in Hin.
  rewrite matches_seq in Hin. apply in_flat_map in Hin.
  destruct Hin as (s1 & H1 & Hin).
  rewrite (matches_star_one false Char.is_space Space (Space_spec false)) in H1.
  apply in_greedy_run in H1. destruct H1 as (u & v & -> & Hu & ->).
  rewrite matches_seq in Hin. apply in_flat_map in Hin.
  destruct Hin as (s2 & H2 & Hin).
  apply eat_inv in H2. destruct H2 as (d & Hd & Hr & _). cbn [rest] in Hr.
  rewrite separator_cls_mem in Hd.
  rewrite matches_seq in Hin. apply in_flat_map in Hin.
  destruct Hin as (s3 & _ & Hin).
  rewrite matches_seq in Hin. apply in_flat_map in Hin.
  destruct Hin as (s4 & _ & Hin).
  cbn [matches] in Hin. destruct (rest s4) eqn:E4; [|easy].
  destruct Hin as [<-|[]]. split; [exact E4|].
  unfold separator_next, drop_space. subst v.
  destruct (while_app_stop Char.is_space u (d :: rest s2) Hu) as [_ ->].
  - cbn [stops]. now apply separator_not_space.
  - exact Hd.
Qed.

Lemma title_exec_none pv l :
  separator_next l = false -> exec_at false title_suffix_re pv l = None.
Proof.
  intros H. apply exec_at_nil.
  destruct (matches false title_suffix_re (MState pv l [])) as [|s tl] eqn:E;
    [reflexivity|].
  destruct (title_member pv l s) as [_ Hs]; [rewrite E; now left|congruence].
Qed.

Lemma title_exec_some pv ws sep site :
  forallb Char.is_space ws = true -> is_title_separator sep = true ->
  free_of 124 site = true ->
  exists cs,
    exec_at false title_suffix_re pv (ws ++ sep :: site)
    = Some (RMatch [] (ws ++ sep :: site) cs []).
Proof.
  intros Hws Hsep Hrest.
  assert (E : exists cs,
            exec_at false title_suffix_re pv ((ws ++ sep :: site) ++ [])
            = Some (RMatch [] (ws ++ sep :: site) cs [])).
  { apply exec_at_rest.
    - rewrite app_nil_r. intros N.
      apply (in_nil (a := MState (last_opt (Some sep) site) [] [])).
      rewrite <- N. unfold title_suffix_re. cbn [seqs].
      rewrite matches_seq. apply in_flat_map. eexists. split.
      { rewrite (matches_star_one false Char.is_space Space (Space_spec false)).
        apply in_greedy_run. exists ws, (sep :: site).
        split; [reflexivity|]. split; [exact Hws|reflexivity]. }
      rewrite matches_seq. apply in_flat_map. eexists. split.
      { cbn [matches]. unfold eat. cbn [rest].
        rewrite separator_cls_mem, Hsep. now left. }
      rewrite matches_seq. apply in_flat_map. eexists. split.
      { rewrite (matches_star_one false Char.is_space Space (Space_spec false)).
        apply in_greedy_run. exists [], site. split; [reflexivity|].
        split; reflexivity. }
      rewrite matches_seq. apply in_flat_map. eexists. split.
      { change (NotChar "|") with (Cls true [CChar 124]).
        apply (in_not_char_star false 124 _ _ _ _ eq_refl).
        exists site, []. rewrite app_nil_r. split; [reflexivity|].
        split; [exact Hrest|reflexivity]. }
      cbn [matches rest last_opt]. now left.
    - rewrite app_nil_r. intros s Hs. now apply title_member in Hs. }
  now rewrite app_nil_r in E.
Qed.

(** The search runs over the places where the pattern fails. *)
Lemma search_past ci r : forall x l pv,
  (forall n1 c n2, x = n1 ++ c :: n2 ->
                   exec_at ci r (last_opt pv n1) (c :: n2 ++ l) = None) ->
  search ci r pv (x ++ l)
  = option_map (fun m => RMatch (x ++ m_pre m) (m_text m) (m_caps m) (m_post m))
      (search ci r (last_opt pv x) l).
Proof.
  induction x as [|c x IH]; intros l pv H.
  - cbn [app last_opt]. destruct (search ci r pv l) as [[]|]; reflexivity.
  - pose proof (H [] c x eq_refl) as H0. cbn [last_opt] in H0.
    cbn [app search last_opt]. rewrite H0.
    rewrite (IH l (Some c)).
    + destruct (search ci r _ l) as [[]|]; reflexivity.
    + intros n1 d n2 E. subst x. exact (H (c :: n1) d n2 eq_refl).
Qed.

Lemma drop_space_first : forall s X,
  (exists d, In d s /\ Char.is_space d = false) ->
  exists e r, drop_space (s ++ X) = e :: r /\ In e s.
Proof.
  unfold drop_space. induction s as [|c s IH]; intros X (d & Hin & Hd).
  - destruct Hin.
  - cbn [app drop_while]. destruct (Char.is_space c) eqn:Hc.
    + destruct Hin as [->|Hin]; [congruence|].
      destruct (IH X (ex_intro _ d (conj Hin Hd))) as (e & r & -> & He).
      exists e, r. split; [reflexivity|now right].
    + exists c, (s ++ X). split; [reflexivity|now left].
Qed.

(** A text is its part up to the last character that is not white
    space, and white space. *)
Lemma trailing_space name :
  exists name0 ws,
    name = name0 ++ ws /\ forallb Char.is_space ws = true
    /\ forall n1 c n2, name0 = n1 ++ c :: n2 ->
         exists d, In d (c :: n2) /\ Char.is_space d = false.
Proof.
  exists (rev (drop_space (rev name))), (rev (take_while Char.is_space (rev name))).
  split; [|split].
  - rewrite <- rev_app_distr. unfold drop_space.
    now rewrite take_drop_while, rev_involutive.
  - rewrite forallb_rev. apply forallb_take_while.
  - intros n1 c n2 E. apply (f_equal (@rev N)) in E.
    rewrite rev_involutive, rev_app_distr in E.
    pose proof (drop_while_stops Char.is_space (rev name)) as Hs.
    unfold drop_space in E. rewrite E in Hs.
    cbn [rev] in Hs. destruct (rev n2) as [|z zs] eqn:Ez.
    + cbn [app] in Hs. exists c. split; [now left|exact Hs].
    + cbn [app stops] in Hs. exists z. split; [|exact Hs].
      right. apply in_rev. rewrite Ez. now left.
Qed.

Definition no_separator (l : jsstring) : bool :=
  forallb (fun c => negb (is_title_separator c)) l.

Lemma no_separator_in l d :
  no_separator l = true -> In d l -> is_title_separator d = false.
Proof.
  unfold no_separator. rewrite forallb_forall. intros H Hd.
  apply negb_true_iff. now apply H.
Qed.

Lemma separator_next_inside s X :
  no_separator s = true ->
  (exists d, In d s /\ Char.is_space d = false) ->
  separator_next (s ++ X) = false.
Proof.
  intros Hs Hd. unfold separator_next.
  destruct (drop_space_first s X Hd) as (e & r & -> & He).
  now apply (no_separator_in s).
Qed.

(** X18.  A title with none of the four separators keeps its text,
    trimmed.  From the first separator of a title on, when no bar
    follows it, the rest of the title is dropped with the white space
    around the separator: what is left is the text before the separator,
    trimmed, whatever the separator sets apart, a site name or the second
    half of a hyphenated word. *)
Theorem cleanedTitle_rule :
  (forall title, no_separator title = true -> cleanedTitle title = trim title)
  /\ (forall name sep site,
        no_separator name = true -> is_title_separator sep = true ->
        free_of 124 site = true ->
        cleanedTitle (name ++ sep :: site) = trim name).
Proof.
  split.
  - intros title H. unfold cleanedTitle, js_remove_first.
    rewrite (search_none false title_suffix_re separator_next
               (fun pv l => title_exec_none pv l)); [reflexivity|].
    induction title as [|c title IH]; [reflexivity|].
    cbn [exists_tail].
    assert (Ht : no_separator title = true).
    { unfold no_separator in *. simpl in H. apply andb_prop in H. tauto. }
    rewrite (IH Ht), orb_false_r.
    unfold separator_next, drop_space.
    pose proof (take_drop_while Char.is_space (c :: title)) as E.
    destruct (drop_while Char.is_space (c :: title)) as [|e r] eqn:D;
      [reflexivity|].
    apply (no_separator_in (c :: title)); [exact H|].
    rewrite <- E. apply in_or_app. right. now left.
  - intros name sep site Hname Hsep Hrest.
    destruct (trailing_space name) as (name0 & ws & -> & Hws & Hn0).
    unfold cleanedTitle, js_remove_first.
    rewrite <- app_assoc.
    assert (H0 : no_separator name0 = true).
    { unfold no_separator in *. rewrite forallb_app in Hname.
      apply andb_prop in Hname. tauto. }
    rewrite (search_past false title_suffix_re name0 (ws ++ sep :: site) None).
    + destruct (title_exec_some (last_opt None name0) ws sep site Hws Hsep Hrest)
        as (cs & E).
      rewrite (search_here _ _ _ _ _ E). cbn [option_map m_pre m_post].
      rewrite !app_nil_r. symmetry. now apply trim_app_space.
    + intros n1 c n2 E. apply title_exec_none.
      change (c :: n2 ++ ws ++ sep :: site)
        with ((c :: n2) ++ ws ++ sep :: site).
      apply separator_next_inside; [|now apply (Hn0 n1)].
      unfold no_separator in *. rewrite E, forallb_app in H0.
      apply andb_prop in H0. tauto.
Qed.

End Title.

(** * Answers by question *)

Module Answers.

(** An object used as a map from question ids: the property keys are the
    numbers as text, so two keys are the same when the numbers are.  The
    binding written last is in front. *)
Definition record (V : Type) : Type := list (jsnumber * V).

Definition same_key (a b : jsnumber) : bool :=
  match a, b with
  | Num x, Num y => Z.eqb x y
  | NaN, NaN => true
  | _, _ => false
  end.

(** [object[key]]; [None] is [undefined]. *)
Fixpoint lookup (V : Type) (object : record V) (key : jsnumber) : option V :=
  match object with
  | [] => None
  | (k, v) :: tl => if same_key k key then Some v else lookup tl key
  end.

Lemma same_key_eq a b : same_key a b = true <-> a = b.
Proof.
  destruct a as [x|], b as [y|]; simpl; split; try congruence.
  - intros H. apply Z.eqb_eq in H. now subst.
  - intros [= ->]. apply Z.eqb_refl.
Qed.

End Answers.

(** * The export utilities and the score *)

Module Exports.
Import RegexFacts CharFacts Boundary Segmenter MCQParser WebScraper Answers.
Local Open Scope N_scope.
Unset Implicit Arguments.

(** [str.replace(re, rep)] for a global pattern and a replacement text
    without [$]: every match is replaced, the scan going on after it. *)
Fixpoint replace_all (ci : bool) (r : regex) (rep : jsstring) (fuel : nat)
    (pv : option N) (l : jsstring) : jsstring :=
  match fuel with
  | O => l
  | S f =>
      match search ci r pv l with
      | None => l
      | Some m =>
          m_pre m ++ rep ++
          match m_text m with
          | [] =>
              match m_post m with
              | [] => []
              | c :: tl => c :: replace_all ci r rep f (Some c) tl
              end
          | _ :: _ =>
              replace_all ci r rep f (last_opt pv (m_pre m ++ m_text m))
                (m_post m)
          end
      end
  end.

Definition js_replace_all (ci : bool) (r : regex) (rep l : jsstring)
  : jsstring :=
  replace_all ci r rep (S (length l)) None l.

(** The four global replacements of [escapeXml], in the order of the
    source: the ampersand by [&amp;], then [<] by [&lt;], [>] by [&gt;]
    and the double quote by [&quot;]. *)
Definition escapeXml (str : jsstring) : jsstring :=
  js_replace_all false (Str [DQ]) (codes "&quot;")
    (js_replace_all false (chr ">") (codes "&gt;")
       (js_replace_all false (chr "<") (codes "&lt;")
          (js_replace_all false (chr "&") (codes "&amp;") str))).

(** A quoted field of the CSV export: the text between two double
    quotes, after the global replacement of every double quote in it by
    two. *)
Definition csv_field (text : jsstring) : jsstring :=
  DQ :: js_replace_all false (Str [DQ]) [DQ; DQ] text ++ [DQ].

(** [Record<number, string>] *)
Definition answers : Type := record jsstring.

(** [a === b] on strings. *)
Definition same_text (a b : jsstring) : bool :=
  if list_eq_dec N.eq_dec a b then true else false.

(** [selectedAnswers[mcq.id] || 'Not Answered'] *)
Definition userAnswer (selectedAnswers : answers) (mcq : MCQ) : jsstring :=
  match lookup selectedAnswers (id mcq) with
  | Some (c :: t) => c :: t
  | _ => codes "Not Answered"
  end.

(** The [Result] column of the CSV and XLSX exports. *)
Definition isCorrect (selectedAnswers : answers) (mcq : MCQ) : jsstring :=
  let userAnswer := userAnswer selectedAnswers mcq in
  if same_text userAnswer (correctAnswer mcq) then codes "Correct"
  else if same_text userAnswer (codes "Not Answered") then codes "Skipped"
  else codes "Wrong".

(** [getScore]: the pair of [correct] and [answered]. *)
Definition getScore (mcqs : list MCQ) (selectedAnswers : answers)
  : nat * nat :=
  fold_left
    (fun (acc : nat * nat) mcq =>
       let (correct, answered) := acc in
       match lookup selectedAnswers (id mcq) with
       | Some (c :: t) =>
           (if same_text (c :: t) (correctAnswer mcq)
            then S correct else correct, S answered)
       | _ => (correct, answered)
       end)
    mcqs (0%nat, 0%nat).

(** ** One character replaced everywhere *)

Lemma exec_at_char c pv d l :
  exec_at false (Str [c]) pv (d :: l)
  = if N.eqb c d then Some (RMatch [] [d] [] l) else None.
Proof.
  unfold exec_at. rewrite matches_str, Runs.eat_str_eq.
  cbn [Runs.strip_prefix]. unfold chr_eq, canon.
  destruct (N.eqb c d); [|reflexivity].
  cbn [rest caps length firstn]. f_equal. f_equal.
  replace (S (length l) - length l)%nat with 1%nat by lia. reflexivity.
Qed.

Lemma exec_at_char_nil c pv : exec_at false (Str [c]) pv [] = None.
Proof. reflexivity. Qed.

Definition replace_char (c : N) (rep : jsstring) (d : N) : jsstring :=
  if N.eqb c d then rep else [d].

Lemma replace_all_char c rep : forall l fuel pv,
  (length l < fuel)%nat ->
  replace_all false (Str [c]) rep fuel pv l = flat_map (replace_char c rep) l.
Proof.
  induction l as [|d l IH]; intros fuel pv Hf.
  - destruct fuel; reflexivity.
  - destruct fuel as [|f]; [simpl in Hf; lia|].
    change (flat_map (replace_char c rep) (d :: l))
      with (replace_char c rep d ++ flat_map (replace_char c rep) l).
    unfold replace_char at 1.
    cbn [replace_all search]. rewrite exec_at_char.
    destruct (N.eqb c d) eqn:E.
    + cbn [m_pre m_text m_post app last_opt]. f_equal.
      apply IH. simpl in Hf. lia.
    + pose proof (IH (S f) (Some d)) as H. cbn [replace_all] in H.
      destruct (search false (Str [c]) (Some d) l) as [m|] eqn:S.
      * cbn [option_map shift m_pre m_text m_post app].
        rewrite <- H by (simpl in Hf; lia).
        destruct m as [mp mt mc mo]. cbn [m_pre m_text m_post].
        cbn [app last_opt]. reflexivity.
      * cbn [option_map]. rewrite <- H by (simpl in Hf; lia). reflexivity.
Qed.

Lemma js_replace_all_char c rep l :
  js_replace_all false (Str [c]) rep l = flat_map (replace_char c rep) l.
Proof. unfold js_replace_all. apply replace_all_char. lia. Qed.

(** ** Escaping for XML *)

(** What [escapeXml] puts for one character. *)
Definition escape_char (d : N) : jsstring :=
  if N.eqb d 38 then codes "&amp;"
  else if N.eqb d 60 then codes "&lt;"
  else if N.eqb d 62 then codes "&gt;"
  else if N.eqb d 34 then codes "&quot;"
  else [d].

Ltac split_chars :=
  repeat match goal with
         | |- context [N.eqb ?a ?b] => destruct (N.eqb_spec a b); subst
         | H : context [N.eqb ?a ?b] |- _ => destruct (N.eqb_spec a b); subst
         end.

(** The four replacements in a row escape each character once: the
    ampersands the first one writes are not touched by the other three,
    and none of these brings in an ampersand of its own. *)
Lemma escapeXml_chars str : escapeXml str = flat_map escape_char str.
Proof.
  unfold escapeXml, chr.
  change (codes ">") with [62]. change (codes "<") with [60].
  change (codes "&") with [38].
  rewrite !js_replace_all_char, !flat_map_assoc. apply flat_map_ext.
  intros d. unfold escape_char, replace_char at 4.
  destruct (N.eqb_spec 38 d) as [<-|H38]; [reflexivity|].
  cbn [flat_map app]. unfold replace_char at 3.
  destruct (N.eqb_spec 60 d) as [<-|H60]; [reflexivity|].
  cbn [flat_map app]. unfold replace_char at 2.
  destruct (N.eqb_spec 62 d) as [<-|H62]; [reflexivity|].
  cbn [flat_map app]. unfold replace_char, DQ.
  destruct (N.eqb_spec 34 d) as [<-|H34]; [reflexivity|].
  split_chars; try congruence. reflexivity.
Qed.

Definition entity_names : list jsstring :=
  [codes "amp;"; codes "lt;"; codes "gt;"; codes "quot;"].

Lemma escape_char_cases d :
  (escape_char d = [d] /\ d <> 38 /\ d <> 60 /\ d <> 62 /\ d <> 34)
  \/ (exists e, In e entity_names /\ escape_char d = 38 :: e).
Proof.
  unfold escape_char, entity_names. split_chars.
  - right. exists (codes "amp;"). simpl. auto.
  - right. exists (codes "lt;"). simpl. auto.
  - right. exists (codes "gt;"). simpl. auto.
  - right. exists (codes "quot;"). simpl. auto 6.
  - left. auto.
Qed.

Lemma entity_name_free e :
  In e entity_names ->
  Sanitizer.free_of 38 e = true /\ Sanitizer.free_of 60 e = true
  /\ Sanitizer.free_of 62 e = true /\ Sanitizer.free_of 34 e = true.
Proof.
  unfold entity_names. simpl.
  intros [<-|[<-|[<-|[<-|[]]]]]; repeat split; reflexivity.
Qed.

Lemma escapeXml_free str c :
  c = 60 \/ c = 62 \/ c = 34 ->
  Sanitizer.free_of c (escapeXml str) = true.
Proof.
  intros Hc. rewrite escapeXml_chars.
  induction str as [|d str IH]; [reflexivity|].
  cbn [flat_map]. rewrite Sanitizer.free_app, IH, andb_true_r.
  destruct (escape_char_cases d) as [Hd|Hd].
  - destruct Hd as (-> & H38 & H60 & H62 & H34). unfold Sanitizer.free_of. cbn [forallb]. rewrite andb_true_r.
    apply negb_true_iff, N.eqb_neq. destruct Hc as [-> | [-> | ->]]; assumption.
  - destruct Hd as (e & He & ->).
    destruct (entity_name_free e He) as (_ & F60 & F62 & F34).
    change (38 :: e) with ([38] ++ e). rewrite Sanitizer.free_app.
    destruct Hc as [-> | [-> | ->]]; [now rewrite F60|now rewrite F62|now rewrite F34].
Qed.

Lemma free_prefix c e : forall rest u v,
  Sanitizer.free_of c e = true ->
  e ++ rest = u ++ c :: v ->
  exists u', u = e ++ u' /\ rest = u' ++ c :: v.
Proof.
  unfold Sanitizer.free_of.
  induction e as [|x e IH]; intros rest u v He E.
  - now exists u.
  - simpl in He. apply andb_prop in He. destruct He as [Hx He].
    apply negb_true_iff, N.eqb_neq in Hx.
    destruct u as [|y u]; simpl in E.
    + injection E as E _. congruence.
    + injection E as <- E. destruct (IH _ _ _ He E) as (u' & -> & ->).
      now exists u'.
Qed.

Lemma escapeXml_ampersand str : forall u v,
  flat_map escape_char str = u ++ 38 :: v ->
  exists e v', In e entity_names /\ v = e ++ v'.
Proof.
  induction str as [|d str IH]; intros u v E.
  - destruct u; discriminate.
  - cbn [flat_map] in E.
    destruct (escape_char_cases d) as [(Hd & H38 & _)|(e & He & Hd)];
      rewrite Hd in E.
    + destruct u as [|y u]; simpl in E.
      * injection E as E _. congruence.
      * injection E as _ E. eapply IH; eauto.
    + destruct u as [|y u]; simpl in E.
      * injection E as <-. now exists e, (flat_map escape_char str).
      * injection E as _ E.
        destruct (entity_name_free e He) as (F38 & _).
        destruct (free_prefix 38 e _ u v F38 E) as (u' & -> & E').
        eapply IH; eauto.
Qed.

Lemma escape_char_prefix x y A B :
  escape_char x ++ A = escape_char y ++ B -> x = y /\ A = B.
Proof.
  unfold escape_char. split_chars; cbn [codes map app]; simpl; intros E;
    try discriminate; try (injection E; intros; subst; now auto);
    injection E; intros; subst; congruence.
Qed.

Lemma flat_map_escape_inj : forall a b,
  flat_map escape_char a = flat_map escape_char b -> a = b.
Proof.
  induction a as [|x a IH]; intros [|y b] E; cbn [flat_map] in E.
  - reflexivity.
  - destruct (escape_char_cases y) as [(H & _)|(e & _ & H)]; rewrite H in E;
      discriminate.
  - destruct (escape_char_cases x) as [(H & _)|(e & _ & H)]; rewrite H in E;
      discriminate.
  - apply escape_char_prefix in E. destruct E as [-> E]. f_equal. now apply IH.
Qed.

(** X1.  The escaped text holds no [<], no [>] and no double quote, and
    every ampersand in it begins one of [&amp;], [&lt;], [&gt;] and
    [&quot;]: an ampersand written by the first replacement is never
    escaped again. *)
Theorem escapeXml_is_markup_free str :
  Sanitizer.free_of 60 (escapeXml str) = true
  /\ Sanitizer.free_of 62 (escapeXml str) = true
  /\ Sanitizer.free_of DQ (escapeXml str) = true
  /\ (forall u v, escapeXml str = u ++ 38 :: v ->
        exists e v', In e entity_names /\ v = e ++ v').
Proof.
  split; [|split; [|split]].
  - apply escapeXml_free. auto.
  - apply escapeXml_free. auto.
  - apply escapeXml_free. auto.
  - intros u v. rewrite escapeXml_chars. apply escapeXml_ampersand.
Qed.

(** X2.  Escaping loses nothing: two texts with the same escaped form are
    the same text. *)
Theorem escapeXml_injective a b : escapeXml a = escapeXml b -> a = b.
Proof. rewrite !escapeXml_chars. apply flat_map_escape_inj. Qed.

Lemma escapeXml_injective_witness :
  escapeXml (codes "a<b") = escapeXml (codes "a<b") /\ codes "a<b" = codes "a<b".
Proof.
  split; [reflexivity|].
  apply (escapeXml_injective (codes "a<b") (codes "a<b")). reflexivity.
Defined.

(** ** Quoting for CSV *)

Definition double_quote (d : N) : jsstring := replace_char DQ [DQ; DQ] d.

Lemma csv_field_chars text :
  csv_field text = DQ :: flat_map double_quote text ++ [DQ].
Proof. unfold csv_field. now rewrite js_replace_all_char. Qed.

Lemma double_quote_prefix x y A B :
  double_quote x ++ A = double_quote y ++ B -> x = y /\ A = B.
Proof.
  unfold double_quote, replace_char, DQ. split_chars; simpl; intros E;
    try (injection E; intros; subst; now auto);
    injection E; intros; subst; congruence.
Qed.

Lemma flat_map_double_inj : forall a b,
  flat_map double_quote a = flat_map double_quote b -> a = b.
Proof.
  induction a as [|x a IH]; intros [|y b] E; cbn [flat_map] in E.
  - reflexivity.
  - unfold double_quote, replace_char in E. destruct (N.eqb DQ y); discriminate.
  - unfold double_quote, replace_char in E. destruct (N.eqb DQ x); discriminate.
  - apply double_quote_prefix in E. destruct E as [-> E]. f_equal. now apply IH.
Qed.

Lemma count_double text :
  Sanitizer.count DQ (flat_map double_quote text)
  = (2 * Sanitizer.count DQ text)%nat.
Proof.
  induction text as [|d text IH]; [reflexivity|].
  cbn [flat_map]. rewrite Sanitizer.count_app, IH.
  unfold double_quote, replace_char. destruct (N.eqb_spec DQ d) as [<-|Hd].
  - rewrite !Sanitizer.count_here. change (Sanitizer.count DQ []) with 0%nat. lia.
  - unfold Sanitizer.count. cbn [count_occ].
    destruct (N.eq_dec d DQ) as [E|_]; [congruence|].
    destruct (N.eq_dec d DQ) as [E|_]; [congruence|]. lia.
Qed.

(** X3.  A quoted CSV field is the text between two double quotes with
    every double quote of the text written twice, so that the quotes
    between the outer two come in pairs, and two texts with the same
    field are the same text. *)
Theorem csv_field_quotes text :
  (exists body, csv_field text = DQ :: body ++ [DQ]
                /\ Sanitizer.count DQ body = (2 * Sanitizer.count DQ text)%nat
                /\ length body = (length text + Sanitizer.count DQ text)%nat)
  /\ (forall other, csv_field other = csv_field text -> other = text).
Proof.
  split.
  - exists (flat_map double_quote text). split; [apply csv_field_chars|].
    split; [apply count_double|].
    induction text as [|d text IH]; [reflexivity|].
    cbn [flat_map]. rewrite length_app, IH. cbn [length].
    unfold double_quote, replace_char. destruct (N.eqb_spec DQ d) as [<-|Hd].
    + rewrite Sanitizer.count_here. simpl. lia.
    + unfold Sanitizer.count. cbn [count_occ].
      destruct (N.eq_dec d DQ) as [E|_]; [congruence|]. simpl. lia.
  - intros other E. rewrite !csv_field_chars in E. injection E as E.
    apply app_inv_tail in E. now apply flat_map_double_inj.
Qed.

(** ** The score and the result column *)

Lemma same_text_true a b : same_text a b = true <-> a = b.
Proof. unfold same_text. destruct (list_eq_dec N.eq_dec a b); split; congruence. Qed.

Lemma same_text_false a b : same_text a b = false <-> a <> b.
Proof. unfold same_text. destruct (list_eq_dec N.eq_dec a b); split; congruence. Qed.

(** One step of the loop of [getScore]. *)
Definition score_step (selectedAnswers : answers) (acc : nat * nat) (mcq : MCQ)
  : nat * nat :=
  let (correct, answered) := acc in
  match lookup selectedAnswers (id mcq) with
  | Some (c :: t) =>
      (if same_text (c :: t) (correctAnswer mcq) then S correct else correct,
       S answered)
  | _ => (correct, answered)
  end.

Lemma getScore_fold mcqs selectedAnswers :
  getScore mcqs selectedAnswers
  = fold_left (score_step selectedAnswers) mcqs (0, 0)%nat.
Proof. reflexivity. Qed.

Lemma score_bounds sel : forall mcqs c a,
  (c <= a)%nat ->
  let r := fold_left (score_step sel) mcqs (c, a) in
  (c <= fst r /\ fst r <= snd r /\ a <= snd r
   /\ snd r <= a + length mcqs /\ snd r - fst r >= a - c)%nat.
Proof.
  induction mcqs as [|m mcqs IH]; intros c a Hca; cbn [fold_left length].
  - simpl. lia.
  - assert (H : exists c' a', score_step sel (c, a) m = (c', a')
                /\ (c <= c' /\ c' <= a' /\ a <= a' /\ a' <= S a
                    /\ a' - c' >= a - c)%nat).
    { unfold score_step. destruct (lookup sel (id m)) as [[|x t]|].
      - exists c, a. split; [reflexivity|lia].
      - destruct (same_text _ _); eexists; eexists; (split; [reflexivity|lia]).
      - exists c, a. split; [reflexivity|lia]. }
    destruct H as (c' & a' & -> & Hb).
    specialize (IH c' a' ltac:(lia)). simpl in IH. simpl. lia.
Qed.

(** X4.  The score never counts more correct answers than answers, nor
    more answers than questions. *)
Theorem getScore_bounds mcqs selectedAnswers :
  (fst (getScore mcqs selectedAnswers) <= snd (getScore mcqs selectedAnswers)
   /\ snd (getScore mcqs selectedAnswers) <= length mcqs)%nat.
Proof.
  rewrite getScore_fold.
  pose proof (score_bounds selectedAnswers mcqs 0%nat 0%nat (le_n 0)) as H.
  simpl in H. lia.
Qed.

(** The number of rows of the export that carry a given result. *)
Definition rows_with (result : String.string) (mcqs : list MCQ)
    (selectedAnswers : answers) : nat :=
  length (filter (fun mcq => same_text (isCorrect selectedAnswers mcq)
                               (codes result)) mcqs).

Lemma rows_with_cons result m mcqs sel :
  rows_with result (m :: mcqs) sel
  = ((if same_text (isCorrect sel m) (codes result) then 1 else 0)
     + rows_with result mcqs sel)%nat.
Proof.
  unfold rows_with. cbn [filter].
  destruct (same_text (isCorrect sel m) (codes result)); reflexivity.
Qed.

Lemma score_rows sel : forall mcqs c a,
  (forall m, In m mcqs -> correctAnswer m <> codes "Not Answered") ->
  (forall m, In m mcqs -> lookup sel (id m) <> Some (codes "Not Answered")) ->
  fold_left (score_step sel) mcqs (c, a)
  = (c + rows_with "Correct" mcqs sel,
     a + rows_with "Correct" mcqs sel + rows_with "Wrong" mcqs sel)%nat
  /\ length mcqs
     = (rows_with "Correct" mcqs sel + rows_with "Wrong" mcqs sel
        + rows_with "Skipped" mcqs sel)%nat.
Proof.
  induction mcqs as [|m mcqs IH]; intros c a H1 H2.
  - unfold rows_with. cbn [fold_left filter length].
    split; [f_equal; lia|reflexivity].
  - assert (H1' : forall m', In m' mcqs -> correctAnswer m' <> codes "Not Answered")
      by (intros; apply H1; now right).
    assert (H2' : forall m', In m' mcqs ->
                             lookup sel (id m') <> Some (codes "Not Answered"))
      by (intros; apply H2; now right).
    specialize (H1 m (or_introl eq_refl)). specialize (H2 m (or_introl eq_refl)).
    rewrite !rows_with_cons. cbn [fold_left length].
    assert (Hm : exists c' a' result,
               score_step sel (c, a) m = (c', a')
               /\ isCorrect sel m = codes result
               /\ ((result = "Correct"%string /\ c' = S c /\ a' = S a)
                   \/ (result = "Wrong"%string /\ c' = c /\ a' = S a)
                   \/ (result = "Skipped"%string /\ c' = c /\ a' = a))).
    { unfold score_step, isCorrect, userAnswer.
      destruct (lookup sel (id m)) as [[|x t]|].
      - exists c, a, "Skipped"%string. split; [reflexivity|].
        destruct (same_text (codes "Not Answered") (correctAnswer m)) eqn:E;
          [apply same_text_true in E; congruence|].
        split; [reflexivity|right; right; auto].
      - destruct (same_text (x :: t) (correctAnswer m)) eqn:E.
        + exists (S c), (S a), "Correct"%string.
          split; [reflexivity|]. split; [reflexivity|left; auto].
        + exists c, (S a), "Wrong"%string. split; [reflexivity|].
          destruct (same_text (x :: t) (codes "Not Answered")) eqn:E2;
            [apply same_text_true in E2; congruence|].
          split; [reflexivity|right; left; auto].
      - exists c, a, "Skipped"%string. split; [reflexivity|].
        destruct (same_text (codes "Not Answered") (correctAnswer m)) eqn:E;
          [apply same_text_true in E; congruence|].
        split; [reflexivity|right; right; auto]. }
    destruct Hm as (c' & a' & result & -> & -> & Hr).
    destruct (IH c' a' H1' H2') as [-> ->].
    destruct Hr as [(-> & -> & ->) | [(-> & -> & ->) | (-> & -> & ->)]].
    + change (same_text (codes "Correct") (codes "Correct")) with true.
      change (same_text (codes "Correct") (codes "Wrong")) with false.
      change (same_text (codes "Correct") (codes "Skipped")) with false.
      split; [f_equal; lia|lia].
    + change (same_text (codes "Wrong") (codes "Correct")) with false.
      change (same_text (codes "Wrong") (codes "Wrong")) with true.
      change (same_text (codes "Wrong") (codes "Skipped")) with false.
      split; [f_equal; lia|lia].
    + change (same_text (codes "Skipped") (codes "Correct")) with false.
      change (same_text (codes "Skipped") (codes "Wrong")) with false.
      change (same_text (codes "Skipped") (codes "Skipped")) with true.
      split; [f_equal; lia|lia].
Qed.

(** X5.  When no correct answer and no selected answer is the text
    [Not Answered], the result column of the exports and the score agree:
    the rows marked [Correct] are the correct answers counted, those
    marked [Correct] or [Wrong] the answers counted, and every row carries
    one of the three results. *)
Theorem export_results_agree_with_score mcqs selectedAnswers :
  (forall m, In m mcqs -> correctAnswer m <> codes "Not Answered") ->
  (forall m, In m mcqs ->
             lookup selectedAnswers (id m) <> Some (codes "Not Answered")) ->
  getScore mcqs selectedAnswers
  = (rows_with "Correct" mcqs selectedAnswers,
     rows_with "Correct" mcqs selectedAnswers
     + rows_with "Wrong" mcqs selectedAnswers)%nat
  /\ length mcqs
     = (rows_with "Correct" mcqs selectedAnswers
        + rows_with "Wrong" mcqs selectedAnswers
        + rows_with "Skipped" mcqs selectedAnswers)%nat.
Proof.
  intros H1 H2. rewrite getScore_fold.
  exact (score_rows selectedAnswers mcqs 0%nat 0%nat H1 H2).
Qed.

(** Three questions, the second answered rightly and the first wrongly. *)
Definition sample_mcq (n : Z) (answer : String.string) : MCQ :=
  {| id := Num n; question := codes "Which one is it?";
     optionA := codes "one"; optionB := codes "two";
     optionC := codes "three"; optionD := codes "four";
     correctAnswer := codes answer;
     explanation := codes "It is so." |}.

Definition sample_mcqs : list MCQ :=
  [sample_mcq 1 "A"; sample_mcq 2 "B"; sample_mcq 3 "C"].

Definition sample_answers : answers :=
  [(Num 2, codes "B"); (Num 1, codes "C")].

Lemma export_results_witness :
  getScore sample_mcqs sample_answers = (1, 2)%nat
  /\ length sample_mcqs = 3%nat.
Proof.
  apply (export_results_agree_with_score sample_mcqs sample_answers).
  - intros m [<-|[<-|[<-|[]]]]; discriminate.
  - intros m [<-|[<-|[<-|[]]]]; discriminate.
Defined.

End Exports.

(** * Answering the questions *)

Module Quiz.
Import MCQParser Answers.
Local Open Scope N_scope.
Unset Implicit Arguments.

(** The two pieces of state the handler works on. *)
Record quiz_state : Type := {
  selectedAnswers : record jsstring;
  showResults : record bool
}.

(** The state of [useState({})], to which [handleReset] returns. *)
Definition no_answers : quiz_state :=
  {| selectedAnswers := []; showResults := [] |}.

(** [handleOptionSelect] (and [handleSelectAnswer] on the other screen),
    run on the state the previous event left. *)
Definition handleOptionSelect (st : quiz_state) (mcqId : jsnumber)
    (option : jsstring) : quiz_state :=
  match lookup (showResults st) mcqId with
  | Some true => st
  | _ =>
      {| selectedAnswers := (mcqId, option) :: selectedAnswers st;
         showResults := (mcqId, true) :: showResults st |}
  end.

(** A run of presses, each on an option of a question. *)
Definition presses (st : quiz_state) (events : list (jsnumber * jsstring))
  : quiz_state :=
  fold_left (fun st e => handleOptionSelect st (fst e) (snd e)) events st.

Lemma same_key_left a b key :
  same_key a b = true -> same_key a key = same_key b key.
Proof. intros H. apply same_key_eq in H. now subst. Qed.

(** A question is revealed when it has an answer. *)
Definition revealed_when_answered (st : quiz_state) : Prop :=
  forall key,
    lookup (showResults st) key
    = match lookup (selectedAnswers st) key with
      | Some _ => Some true
      | None => None
      end.

Lemma handleOptionSelect_keeps st mcqId option :
  revealed_when_answered st ->
  revealed_when_answered (handleOptionSelect st mcqId option)
  /\ forall key,
       lookup (selectedAnswers (handleOptionSelect st mcqId option)) key
       = match lookup (selectedAnswers st) key with
         | Some v => Some v
         | None => if same_key mcqId key then Some option else None
         end.
Proof.
  intros Hinv. unfold handleOptionSelect.
  pose proof (Hinv mcqId) as Hid.
  destruct (lookup (showResults st) mcqId) as [[|]|] eqn:E.
  - split; [exact Hinv|]. intros key.
    destruct (lookup (selectedAnswers st) key) eqn:K; [reflexivity|].
    destruct (same_key mcqId key) eqn:S; [|reflexivity].
    apply same_key_eq in S. subst key. rewrite K in Hid. discriminate.
  - destruct (lookup (selectedAnswers st) mcqId); discriminate.
  - destruct (lookup (selectedAnswers st) mcqId) eqn:K; [discriminate|].
    split.
    + intros key. cbn [showResults selectedAnswers lookup].
      destruct (same_key mcqId key); [reflexivity|apply Hinv].
    + intros key. cbn [selectedAnswers lookup].
      destruct (same_key mcqId key) eqn:S.
      * apply same_key_eq in S. subst key. now rewrite K.
      * now destruct (lookup (selectedAnswers st) key).
Qed.

Lemma presses_first : forall events st,
  revealed_when_answered st ->
  forall key,
    lookup (selectedAnswers (presses st events)) key
    = match lookup (selectedAnswers st) key with
      | Some v => Some v
      | None => option_map snd (find (fun e => same_key (fst e) key) events)
      end.
Proof.
  induction events as [|[k o] events IH]; intros st Hinv key.
  - cbn [presses fold_left find option_map].
    now destruct (lookup (selectedAnswers st) key).
  - change (presses st ((k, o) :: events))
      with (presses (handleOptionSelect st k o) events).
    destruct (handleOptionSelect_keeps st k o Hinv) as [Hinv' Hsel].
    rewrite (IH _ Hinv' key), Hsel. cbn [find fst snd].
    destruct (lookup (selectedAnswers st) key); [reflexivity|].
    destruct (same_key k key); reflexivity.
Qed.

(** X6.  After any run of presses on fresh state, the answer held for a
    question is the option of the first press on it: a later press on a
    question already answered changes nothing. *)
Theorem first_answer_is_kept events key :
  lookup (selectedAnswers (presses no_answers events)) key
  = option_map snd (find (fun e => same_key (fst e) key) events).
Proof.
  rewrite presses_first; [reflexivity|]. intros k. reflexivity.
Qed.

End Quiz.

(** * MCQs from the question service *)

Module Generator.
Import MCQParser.
Local Open Scope N_scope.
Unset Implicit Arguments.

(** [String(n)] for a natural number. *)
Fixpoint digits_of (fuel n : nat) (acc : jsstring) : jsstring :=
  match fuel with
  | O => acc
  | S f =>
      let acc' := N.of_nat (48 + n mod 10) :: acc in
      if Nat.eqb (n / 10) 0 then acc' else digits_of f (n / 10) acc'
  end.

Definition number_text (n : nat) : jsstring := digits_of (S n) n [].

(** The JSON the service answers with, as far as [generateMCQs] reads it:
    [q.options] may be missing, and so may [q.explanation]. *)
Record option_json : Type := {
  o_text : jsstring;
  o_isCorrect : bool
}.

Record question_json : Type := {
  j_question : jsstring;
  j_options : option (list option_json);
  j_explanation : option jsstring
}.

Inductive thrown : Type :=
| Error (message : jsstring)
| TypeError.          (* a property read on [undefined] *)

(** The callback of [data.questions.map], at [index]. *)
Definition map_question (q : question_json) (index : nat) : thrown + MCQ :=
  let options := match j_options q with Some o => o | None => [] end in
  if Nat.ltb (length options) 4
  then inl (Error (codes "Question " ++ number_text (index + 1)
                   ++ codes " has fewer than 4 options"))
  else
    match nth_error options 0, nth_error options 1, nth_error options 2,
          nth_error options 3 with
    | Some o0, Some o1, Some o2, Some o3 =>
        let correctAnswer := codes "A" in
        let correctAnswer :=
          if o_isCorrect o1 then codes "B" else correctAnswer in
        let correctAnswer :=
          if o_isCorrect o2 then codes "C" else correctAnswer in
        let correctAnswer :=
          if o_isCorrect o3 then codes "D" else correctAnswer in
        inr {| id := Num (Z.of_nat (index + 1));
               question := j_question q;
               optionA := o_text o0;
               optionB := o_text o1;
               optionC := o_text o2;
               optionD := o_text o3;
               correctAnswer := correctAnswer;
               explanation :=
                 match j_explanation q with
                 | Some (c :: t) => c :: t
                 | _ => codes "No explanation provided."
                 end |}
    | _, _, _, _ => inl TypeError
    end.

(** [data.questions.map(...)] from [index] on: the first throw ends it. *)
Fixpoint map_questions (questions : list question_json) (index : nat)
  : thrown + list MCQ :=
  match questions with
  | [] => inr []
  | q :: tl =>
      match map_question q index with
      | inl e => inl e
      | inr mcq =>
          match map_questions tl (S index) with
          | inl e => inl e
          | inr mcqs => inr (mcq :: mcqs)
          end
      end
  end.

(** [generateMCQs] from the parsed body of an [ok] response on:
    [questions] is [data.questions], [None] when it is missing or not an
    array. *)
Definition generateMCQs_of (questions : option (list question_json))
  : thrown + list MCQ :=
  match questions with
  | None => inl (Error (codes "Invalid response format from server"))
  | Some qs => map_questions qs 0
  end.

Definition options_of (q : question_json) : list option_json :=
  match j_options q with Some o => o | None => [] end.

Lemma map_question_some q index :
  (4 <= length (options_of q))%nat ->
  exists mcq, map_question q index = inr mcq
              /\ id mcq = Num (Z.of_nat (index + 1)).
Proof.
  unfold map_question, options_of. intros H.
  destruct (Nat.ltb_spec (length (match j_options q with
                                  | Some o => o | None => [] end)) 4);
    [lia|].
  destruct (match j_options q with Some o => o | None => [] end)
    as [|o0 [|o1 [|o2 [|o3 tl]]]]; simpl in H; try lia.
  cbn [nth_error]. eexists. split; reflexivity.
Qed.

Lemma map_question_short q index :
  (length (options_of q) < 4)%nat ->
  map_question q index
  = inl (Error (codes "Question " ++ number_text (index + 1)
                ++ codes " has fewer than 4 options")).
Proof.
  unfold map_question, options_of. intros H.
  destruct (Nat.ltb_spec (length (match j_options q with
                                  | Some o => o | None => [] end)) 4);
    [reflexivity|lia].
Qed.

Lemma map_questions_all : forall questions index,
  Forall (fun q => 4 <= length (options_of q))%nat questions ->
  exists mcqs,
    map_questions questions index = inr mcqs
    /\ map id mcqs
       = map (fun k => Num (Z.of_nat k)) (seq (S index) (length questions)).
Proof.
  induction questions as [|q tl IH]; intros index H.
  - now exists [].
  - inversion H as [|q' tl' Hq Htl]; subst.
    destruct (map_question_some q index Hq) as (mcq & E & Hid).
    destruct (IH (S index) Htl) as (mcqs & E' & Hids).
    exists (mcq :: mcqs). cbn [map_questions]. rewrite E, E'.
    split; [reflexivity|]. cbn [map length seq]. rewrite Hid, Hids.
    do 2 f_equal. lia.
Qed.

Lemma map_questions_first_short : forall before q after index,
  Forall (fun q => 4 <= length (options_of q))%nat before ->
  (length (options_of q) < 4)%nat ->
  map_questions (before ++ q :: after) index
  = inl (Error (codes "Question " ++ number_text (index + length before + 1)
                ++ codes " has fewer than 4 options")).
Proof.
  induction before as [|b before IH]; intros q after index Hb Hq.
  - cbn [app map_questions length]. rewrite (map_question_short q index Hq).
    now rewrite Nat.add_0_r.
  - inversion Hb as [|b' tl' Hb1 Hb2]; subst.
    destruct (map_question_some b index Hb1) as (mcq & E & _).
    cbn [app map_questions length]. rewrite E, (IH q after (S index) Hb2 Hq).
    replace (S index + length before + 1)%nat
      with (index + S (length before) + 1)%nat by lia.
    reflexivity.
Qed.

(** X7.  The mapping of the service's questions is all or nothing.  When
    every question has at least four options, there is one MCQ per
    question and the ids are 1, 2, ... in order; at the first question
    with fewer, the whole call throws, naming that question by its
    position, and the questions before it are lost with it. *)
Theorem generateMCQs_all_or_nothing :
  (forall questions,
     Forall (fun q => 4 <= length (options_of q))%nat questions ->
     exists mcqs,
       generateMCQs_of (Some questions) = inr mcqs
       /\ map id mcqs
          = map (fun k => Num (Z.of_nat k)) (seq 1 (length questions)))
  /\ (forall before q after,
        Forall (fun q => 4 <= length (options_of q))%nat before ->
        (length (options_of q) < 4)%nat ->
        generateMCQs_of (Some (before ++ q :: after))
        = inl (Error (codes "Question " ++ number_text (length before + 1)
                      ++ codes " has fewer than 4 options"))).
Proof.
  split.
  - intros questions H. exact (map_questions_all questions 0 H).
  - intros before q after Hb Hq.
    exact (map_questions_first_short before q after 0 Hb Hq).
Qed.

(** ** The number of questions asked for *)

(** The value of [c] as a digit in [radix], if it is one. *)
Definition digit_value (radix : Z) (c : N) : option Z :=
  let v :=
    if Char.is_digit c then Some (Z.of_N c - 48)%Z
    else if Char.is_lower c then Some (Z.of_N c - 87)%Z
    else if Char.is_upper c then Some (Z.of_N c - 55)%Z
    else None in
  match v with
  | Some v => if Z.ltb v radix then Some v else None
  | None => None
  end.

(** The value of the longest run of digits [l] starts with; [acc] is the
    value read so far, [None] before the first digit. *)
Fixpoint digits_radix (radix : Z) (acc : option Z) (l : jsstring) : option Z :=
  match l with
  | c :: tl =>
      match digit_value radix c with
      | Some v =>
          digits_radix radix
            (Some (radix * match acc with Some a => a | None => 0 end + v)%Z)
            tl
      | None => acc
      end
  | [] => acc
  end.

(** [parseInt(str)] without a radix, on any text: leading white space is
    skipped, a sign is read, then [0x] or [0X] selects radix 16, then the
    longest run of digits is read; NaN when there is none.  The integer
    is given exactly (the number held is the double nearest to it, and
    is zero, or beyond a bound that is itself an integer below 2^53,
    exactly when the integer is). *)
Definition parseInt_any (str : jsstring) : jsnumber :=
  let s := drop_space str in
  let (sign, s) :=
    match s with
    | c :: t =>
        if N.eqb c 45 then ((-1)%Z, t)
        else if N.eqb c 43 then (1%Z, t)
        else (1%Z, s)
    | [] => (1%Z, s)
    end in
  let (radix, s) :=
    match s with
    | c :: x :: t =>
        if N.eqb c 48 && (N.eqb x 120 || N.eqb x 88) then (16%Z, t)
        else (10%Z, s)
    | _ => (10%Z, s)
    end in
  match digits_radix radix None s with
  | Some v => Num (sign * v)
  | None => NaN
  end.

(** [n || d] *)
Definition or_default (n : jsnumber) (d : Z) : Z :=
  match n with
  | Num 0 => d
  | Num z => z
  | NaN => d
  end.

(** [Math.min(limit, Math.max(1, parseInt(mcqCount) || 10))], with
    [limit] 200 on the PDF screen and 50 on the other. *)
Definition question_count (limit : Z) (mcqCount : jsstring) : Z :=
  Z.min limit (Z.max 1 (or_default (parseInt_any mcqCount) 10)).

Lemma digit_value_decimal c :
  Char.is_digit c = true -> digit_value 10 c = Some (Z.of_N c - 48)%Z.
Proof.
  intros H. unfold digit_value. rewrite H.
  unfold Char.is_digit, Char.in_range in H. apply andb_prop in H.
  destruct H as [H1 H2]. apply N.leb_le in H1, H2.
  destruct (Z.ltb_spec (Z.of_N c - 48) 10); [reflexivity|lia].
Qed.

Lemma digits_radix_decimal : forall l a,
  forallb Char.is_digit l = true ->
  digits_radix 10 (Some a) l = Some (digits_value a l).
Proof.
  induction l as [|c l IH]; intros a H; [reflexivity|].
  simpl in H. apply andb_prop in H. destruct H as [Hc Hl].
  cbn [digits_radix digits_value]. rewrite (digit_value_decimal c Hc), Hc.
  now apply IH.
Qed.

Lemma digits_value_nonneg : forall l a,
  (0 <= a)%Z -> (0 <= digits_value a l)%Z.
Proof.
  induction l as [|c l IH]; intros a Ha; cbn [digits_value]; [exact Ha|].
  destruct (Char.is_digit c) eqn:Hc; [|exact Ha]. apply IH.
  unfold Char.is_digit, Char.in_range in Hc. apply andb_prop in Hc.
  destruct Hc as [H1 H2]. apply N.leb_le in H1, H2. lia.
Qed.

(** On a run of digits the reading agrees with the one of the parser. *)
Lemma parseInt_any_digits c l :
  forallb Char.is_digit (c :: l) = true ->
  parseInt_any (c :: l) = Num (digits_value 0 (c :: l))
  /\ parseInt_any (c :: l) = parseInt (c :: l).
Proof.
  intros H. pose proof H as H'. simpl in H'. apply andb_prop in H'.
  destruct H' as [Hc Hl].
  assert (Hs : Char.is_space c = false).
  { destruct (Char.is_space c) eqn:E; [|reflexivity].
    now rewrite (Segmenter.space_not_digit c E) in Hc. }
  assert (E : parseInt_any (c :: l) = Num (digits_value 0 (c :: l))).
  { unfold parseInt_any, drop_space. cbn [drop_while]. rewrite Hs.
    destruct (N.eqb_spec c 45) as [->|_]; [discriminate|].
    destruct (N.eqb_spec c 43) as [->|_]; [discriminate|].
    assert (Hd : digits_radix 10 None (c :: l)
                 = Some (digits_value 0 (c :: l))).
    { cbn [digits_radix digits_value]. rewrite (digit_value_decimal c Hc), Hc.
      now apply digits_radix_decimal. }
    cbv beta iota. destruct l as [|x t].
    - cbv beta iota. rewrite Hd. f_equal. apply Z.mul_1_l.
    - assert (Hx : N.eqb x 120 || N.eqb x 88 = false).
      { simpl in Hl. apply andb_prop in Hl. destruct Hl as [Hx _].
        destruct (N.eqb_spec x 120) as [->|_]; [discriminate|].
        destruct (N.eqb_spec x 88) as [->|_]; [discriminate|reflexivity]. }
      rewrite Hx, andb_false_r. cbv beta iota. rewrite Hd.
      f_equal. apply Z.mul_1_l. }
  split; [exact E|]. rewrite E. unfold parseInt, drop_space.
  cbn [drop_while]. now rewrite Hs, Hc.
Qed.

(** X8.  The number of questions asked for is between 1 and the limit
    whatever is typed; an entry without a number, or with the number
    zero, counts as 10, and a run of digits with a value above zero as
    that value, cut at the limit. *)
Theorem question_count_bounds limit :
  (1 <= limit)%Z ->
  (forall mcqCount, (1 <= question_count limit mcqCount <= limit)%Z)
  /\ (forall mcqCount,
        parseInt_any mcqCount = NaN \/ parseInt_any mcqCount = Num 0 ->
        question_count limit mcqCount = Z.min limit 10)
  /\ (forall c l,
        forallb Char.is_digit (c :: l) = true ->
        question_count limit (c :: l)
        = if Z.eqb (digits_value 0 (c :: l)) 0 then Z.min limit 10
          else Z.min limit (digits_value 0 (c :: l))).
Proof.
  intros Hlimit. split; [|split].
  - intros mcqCount. unfold question_count. lia.
  - intros mcqCount [H|H]; unfold question_count; rewrite H; reflexivity.
  - intros c l H. unfold question_count.
    destruct (parseInt_any_digits c l H) as [-> _].
    pose proof (digits_value_nonneg (c :: l) 0 (Z.le_refl 0)) as Hv.
    destruct (Z.eqb_spec (digits_value 0 (c :: l)) 0) as [->|Hne];
      [reflexivity|].
    unfold or_default.
    destruct (digits_value 0 (c :: l)) as [|p|p]; [congruence| |lia].
    f_equal. lia.
Qed.

Lemma question_count_witness :
  (1 <= question_count 200 (codes "0") <= 200)%Z
  /\ question_count 200 (codes "abc") = 10%Z
  /\ question_count 200 (codes "0") = 10%Z
  /\ question_count 200 (codes "250") = 200%Z.
Proof.
  destruct (question_count_bounds 200 ltac:(lia)) as (H1 & H2 & H3).
  split; [apply H1|]. split; [apply H2; now left|].
  split; [apply H2; now right|]. exact (H3 50 (codes "50") eq_refl).
Defined.

(** ** The payload of a data URL *)

(** [result.split(',')[1] || result], in the [onload] handlers of
    [readFileAsBase64]. *)
Definition base64_of (result : jsstring) : jsstring :=
  match nth_error (split_on 44 result) 1 with
  | Some (c :: t) => c :: t
  | _ => result
  end.

Definition not_comma (c : N) : bool := negb (N.eqb c 44).

Lemma split_on_head sep : forall l,
  exists tl,
    split_on sep l = take_while (fun c => negb (N.eqb c sep)) l :: tl.
Proof.
  induction l as [|c l (tl & IH)]; [now exists []|].
  cbn [split_on take_while]. destruct (N.eqb c sep); cbn [negb].
  - now exists (split_on sep l).
  - rewrite IH. now exists tl.
Qed.

Lemma split_on_app sep : forall h r,
  forallb (fun c => negb (N.eqb c sep)) h = true ->
  split_on sep (h ++ sep :: r) = h :: split_on sep r.
Proof.
  induction h as [|c h IH]; intros r H.
  - cbn [app split_on]. now rewrite N.eqb_refl.
  - simpl in H. apply andb_prop in H. destruct H as [Hc Hh].
    apply negb_true_iff in Hc. cbn [app split_on]. rewrite Hc.
    now rewrite (IH r Hh).
Qed.

Lemma split_on_free sep : forall l,
  forallb (fun c => negb (N.eqb c sep)) l = true -> split_on sep l = [l].
Proof.
  induction l as [|c l IH]; intros H; [reflexivity|].
  simpl in H. apply andb_prop in H. destruct H as [Hc Hl].
  apply negb_true_iff in Hc. cbn [split_on]. now rewrite Hc, (IH Hl).
Qed.

(** X9.  From a data URL [header,payload] whose header has no comma, the
    text between the first comma and the next one (or the end) is taken;
    when that text is empty, as it is for an empty file, the whole data
    URL is returned in its place, and so is a text without a comma. *)
Theorem base64_of_data_url :
  (forall header payload,
     forallb not_comma header = true ->
     base64_of (header ++ 44 :: payload)
     = match take_while not_comma payload with
       | [] => header ++ 44 :: payload
       | c :: t => c :: t
       end)
  /\ (forall result, forallb not_comma result = true ->
                     base64_of result = result).
Proof.
  split.
  - intros header payload H. unfold base64_of.
    rewrite (split_on_app 44 header payload H).
    destruct (split_on_head 44 payload) as (tl & ->). reflexivity.
  - intros result H. unfold base64_of.
    now rewrite (split_on_free 44 result H).
Qed.

End Generator.
